(** * HashTable: separate chaining and linear probing over [int] keys

    A shallow embedding of the two C++ classes of the repository,
    [HashTableSeparateChaining] and [HashTableLinearProbing], and the
    properties of their public operations [insert], [remove] and [get].

    Conventions of the embedding.
    - A C++ [int] is a [Z] in the range [INT_MIN .. INT_MAX].  Signed
      overflow is undefined behaviour in C++, so every arithmetic result
      that is stored in an [int] goes through [int_of], which yields
      [Undef] outside that range.
    - [a % b] on [int] truncates towards zero: it is [Z.rem], undefined
      for [b = 0] (and for [INT_MIN % -1]).
    - [std::vector::operator[]] outside the vector is undefined behaviour:
      [vget] and [vset] yield [Undef] there.
    - A [while] loop is a function with fuel.  The three unbounded scans
      of the probing table are run with as much fuel as the table has
      slots; exhausting it is the outcome [Loops], and
      [LinearProbingFacts.probe_loops_forever] shows that such a scan
      indeed never exits, whatever the fuel.  The loop of [get] has its own
      bound, the check against the start index.
    - The constructors take the group count as given; with a negative
      count [std::vector] throws, and every statement below is about a
      table made with a positive count.
    - [horner_hash] is called by no operation; it is modelled on its
      own. *)

From Stdlib Require Import ZArith List Lia Bool.
Import ListNotations.
Open Scope Z_scope.

(** ** Outcomes of a C++ computation *)

Inductive outcome (A : Type) : Type :=
| Ret (a : A)   (* normal return *)
| Undef         (* undefined behaviour or a fatal error *)
| Loops.        (* the loop never exits *)

Arguments Ret {A} a.
Arguments Undef {A}.
Arguments Loops {A}.

Definition bind {A B : Type} (c : outcome A) (k : A -> outcome B) : outcome B :=
  match c with
  | Ret a => k a
  | Undef => Undef
  | Loops => Loops
  end.

Notation "x <- c ;; k" := (bind c (fun x => k))
  (at level 61, c at next level, right associativity).

(** ** Machine integers *)

Definition INT_MAX : Z := 2147483647.
Definition INT_MIN : Z := -2147483648.

Definition in_int (z : Z) : bool := (INT_MIN <=? z) && (z <=? INT_MAX).

Definition int_of (z : Z) : outcome Z :=
  if in_int z then Ret z else Undef.

(** [a % b] *)
Definition cmod (a b : Z) : outcome Z :=
  if (b =? 0) || ((a =? INT_MIN) && (b =? -1)) then Undef else Ret (Z.rem a b).

(** [a / b] *)
Definition cdiv (a b : Z) : outcome Z :=
  if (b =? 0) || ((a =? INT_MIN) && (b =? -1)) then Undef else Ret (Z.quot a b).

(** ** [horner_hash]

    The private helper of both classes.  A [std::string] is the list of
    its [char] values; [1LL * hash_value * base + c] is computed in
    [long long], the remainder by [mod] (converted to [long long]) too, and
    the result is stored back into the [int] [hash_value]. *)

Definition LLONG_MAX : Z := 9223372036854775807.
Definition LLONG_MIN : Z := -9223372036854775808.

Definition ll_of (z : Z) : outcome Z :=
  if (LLONG_MIN <=? z) && (z <=? LLONG_MAX) then Ret z else Undef.

(** [a % b] on [long long] *)
Definition cmod_ll (a b : Z) : outcome Z :=
  if (b =? 0) || ((a =? LLONG_MIN) && (b =? -1)) then Undef else Ret (Z.rem a b).

(** [for (char c : s) hash_value = (1LL * hash_value * base + c) % mod;] *)
Fixpoint horner_loop (s : list Z) (base modulus hash_value : Z) : outcome Z :=
  match s with
  | [] => Ret hash_value
  | c :: rest =>
      p <- ll_of (1 * hash_value * base) ;;
      a <- ll_of (p + c) ;;
      r <- cmod_ll a modulus ;;
      hash_value' <- int_of r ;;
      horner_loop rest base modulus hash_value'
  end.

Definition horner_hash (s : list Z) (base modulus : Z) : outcome Z :=
  horner_loop s base modulus 0.

(** The default arguments: [base = 31] and [mod = pow(10, 9) + 9]. *)
Definition horner_base : Z := 31.
Definition horner_mod : Z := 1000000009.

(** The value of a [char], whether the platform's [char] is signed or
    unsigned. *)
Definition is_char (c : Z) : Prop := -128 <= c <= 255.

(** The polynomial with the characters of [s] as coefficients, the first
    character with the highest power, at [base]. *)
Fixpoint poly (s : list Z) (base : Z) : Z :=
  match s with
  | [] => 0
  | c :: rest => c * base ^ Z.of_nat (length rest) + poly rest base
  end.

(** The bucket index both tables compute: [key % hash_groups]. *)
Definition bucket_index (key hash_groups : Z) : Z := Z.rem key hash_groups.

(** The normalised index the design document asks for:
    [((key % n) + n) % n]. *)
Definition normalized_index (key n : Z) : Z := Z.rem (Z.rem key n + n) n.

(** The value of the first, and of the last, pair for [key] in a list of
    key-value pairs. *)
Definition first_value (key : Z) (kvs : list (Z * Z)) : option Z :=
  option_map snd (find (fun kv => fst kv =? key) kvs).

Definition last_value (key : Z) (kvs : list (Z * Z)) : option Z :=
  first_value key (rev kvs).

(** ** Vectors *)

Definition vget {A : Type} (v : list A) (index : Z) : outcome A :=
  if index <? 0 then Undef
  else match nth_error v (Z.to_nat index) with
       | Some x => Ret x
       | None => Undef
       end.

Fixpoint upd {A : Type} (v : list A) (i : nat) (x : A) : list A :=
  match v, i with
  | [], _ => []
  | _ :: rest, O => x :: rest
  | y :: rest, S i' => y :: upd rest i' x
  end.

Definition vset {A : Type} (v : list A) (index : Z) (x : A) : outcome (list A) :=
  if (index <? 0) || (Z.of_nat (length v) <=? index) then Undef
  else Ret (upd v (Z.to_nat index) x).

(** The element at [index], with a default outside the vector (used in
    statements only; the code reads through [vget]). *)
Definition vnth {A : Type} (d : A) (v : list A) (i : Z) : A :=
  nth (Z.to_nat i) v d.

(** The number of elements of [v] that satisfy [f]. *)
Definition count {A : Type} (f : A -> bool) (v : list A) : Z :=
  Z.of_nat (length (filter f v)).

(** ** The probing table *)

Module LinearProbing.

Definition slot : Type := (Z * Z)%type.

Definition empty_slot : slot := (0, 0).

Record t : Type := mk {
  hash_groups : Z;
  elements : Z;
  table : list slot
}.

(** [HashTableLinearProbing(int hash_groups)]: a vector of [hash_groups]
    value-initialised pairs. *)
Definition make (n : Z) : t :=
  mk n 0 (repeat empty_slot (Z.to_nat n)).

(** [while (!stop(table[index])) index = (index + 1) % hash_groups;] *)
Fixpoint probe (stop : slot -> bool) (tbl : list slot) (n : Z)
    (fuel : nat) (index : Z) : outcome Z :=
  match fuel with
  | O => Loops
  | S fuel' =>
      p <- vget tbl index ;;
      if stop p then Ret index
      else
        s <- int_of (index + 1) ;;
        index' <- cmod s n ;;
        probe stop tbl n fuel' index'
  end.

Definition is_empty (p : slot) : bool := fst p =? 0.
Definition holds (key : Z) (p : slot) : bool := fst p =? key.
Definition free_or_holds (key : Z) (p : slot) : bool :=
  negb (negb (fst p =? 0) && negb (fst p =? key)).

(** The body of the [for] loop of [resize]. *)
Definition place (h : Z) (new_table : list slot) (p : slot) : outcome (list slot) :=
  index <- cmod (fst p) h ;;
  index <- probe is_empty new_table h (length new_table) index ;;
  vset new_table index p.

Fixpoint rehash (h : Z) (new_table : list slot) (tbl : list slot)
    : outcome (list slot) :=
  match tbl with
  | [] => Ret new_table
  | p :: rest => new_table' <- place h new_table p ;; rehash h new_table' rest
  end.

Definition resize (s : t) : outcome t :=
  h <- int_of (hash_groups s * 2) ;;
  if h <? 0 then Undef
  else
    new_table <- rehash h (repeat empty_slot (Z.to_nat h)) (table s) ;;
    Ret (mk h (elements s) new_table).

(** [elements >= hash_groups * 0.75] compares in [double]; both sides are
    exact there for [int] operands, so the test is [3 * hash_groups <= 4 *
    elements]. *)
Definition overloaded (s : t) : bool := 3 * hash_groups s <=? 4 * elements s.

(** The body of [insert] after the load-factor test: the scan for the
    slot, the count of a new key, and the write. *)
Definition insert_tail (s : t) (key value : Z) : outcome t :=
  index <- cmod key (hash_groups s) ;;
  index <- probe (free_or_holds key) (table s) (hash_groups s)
             (length (table s)) index ;;
  p <- vget (table s) index ;;
  elements' <- (if fst p =? key then Ret (elements s)
                else int_of (elements s + 1)) ;;
  table' <- vset (table s) index (key, value) ;;
  Ret (mk (hash_groups s) elements' table').

Definition insert (s : t) (key value : Z) : outcome t :=
  s <- (if overloaded s then resize s else Ret s) ;;
  insert_tail s key value.

Definition remove (s : t) (key : Z) : outcome t :=
  index <- cmod key (hash_groups s) ;;
  index <- probe (holds key) (table s) (hash_groups s)
             (length (table s)) index ;;
  table' <- vset (table s) index (0, 0) ;;
  elements' <- int_of (elements s - 1) ;;
  Ret (mk (hash_groups s) elements' table').

Fixpoint get_loop (tbl : list slot) (n key start_index : Z)
    (fuel : nat) (index : Z) : outcome Z :=
  match fuel with
  | O => Loops
  | S fuel' =>
      p <- vget tbl index ;;
      if fst p =? 0 then Ret (-1)
      else if fst p =? key then Ret (snd p)
      else
        s <- int_of (index + 1) ;;
        index' <- cmod s n ;;
        if index' =? start_index then Ret (-1)
        else get_loop tbl n key start_index fuel' index'
  end.

Definition get_fuel (fuel : nat) (s : t) (key : Z) : outcome Z :=
  index <- cmod key (hash_groups s) ;;
  get_loop (table s) (hash_groups s) key index fuel index.

Definition get (s : t) (key : Z) : outcome Z :=
  get_fuel (length (table s)) s key.

(** Sequences of calls. *)
Inductive op : Type :=
| Insert (key value : Z)
| Remove (key : Z).

Definition step (s : t) (o : op) : outcome t :=
  match o with
  | Insert key value => insert s key value
  | Remove key => remove s key
  end.

Fixpoint run (s : t) (ops : list op) : outcome t :=
  match ops with
  | [] => Ret s
  | o :: rest => s' <- step s o ;; run s' rest
  end.

(** The calls of [main]: on a table of 5 groups, insert 1, 2 and 3, remove
    2, then [for (int i = 4; i <= 20; i++) insert(i, i * 100)]. *)
Definition demo : list op :=
  [Insert 1 100; Insert 2 200; Insert 3 300; Remove 2]
  ++ map (fun i => Insert i (i * 100)) (map Z.of_nat (seq 4 17)).

(** A sequence of inserts. *)
Definition inserts (kvs : list (Z * Z)) : list op :=
  map (fun kv => Insert (fst kv) (snd kv)) kvs.

(** The number of slots whose key is not the empty sentinel. *)
Definition occupied (tbl : list slot) : Z :=
  count (fun p => negb (is_empty p)) tbl.


(** The index [d] steps after [i] in a table of [n] slots, wrapping
    around. *)
Definition off (n i : Z) (d : nat) : Z := (i + Z.of_nat d) mod n.

(** What the design document says of [get]: walk the slots in probe order,
    starting at the home index and going once around the table; an empty
    slot or the end of the walk is not-found, a slot with the key gives its
    value. *)
Fixpoint walk (key : Z) (slots : list slot) : Z :=
  match slots with
  | [] => -1
  | p :: rest =>
      if fst p =? 0 then -1
      else if fst p =? key then snd p
      else walk key rest
  end.

Definition probe_order (tbl : list slot) (home : Z) : list slot :=
  skipn (Z.to_nat home) tbl ++ firstn (Z.to_nat home) tbl.

Definition get_spec (tbl : list slot) (key : Z) : Z :=
  walk key (probe_order tbl (key mod Z.of_nat (length tbl))).

Definition slot_at (tbl : list slot) (i : Z) : slot := vnth empty_slot tbl i.
Definition key_at (tbl : list slot) (i : Z) : Z := fst (slot_at tbl i).

(** [reaches tbl key]: the scan of [insert] for [key], started at the key's
    home index and wrapping around, stops on a slot that holds [key], that
    is, it meets the key before it meets an empty slot. *)
Definition reaches (tbl : list slot) (key : Z) : bool :=
  let n := Z.of_nat (length tbl) in
  match probe (free_or_holds key) tbl n (length tbl) (bucket_index key n) with
  | Ret j => key_at tbl j =? key
  | _ => false
  end.

(** The probe invariant: every key stored in the table is reached from its
    home index before an empty slot. *)
Definition probe_invariant (tbl : list slot) : bool :=
  forallb (fun p => is_empty p || reaches tbl (fst p)) tbl.

(** The vector has [hash_groups] slots and [hash_groups] is a positive
    [int]. *)
Definition shape (s : t) : Prop :=
  Z.of_nat (length (table s)) = hash_groups s /\ 0 < hash_groups s <= INT_MAX.

(** A test on slots that no empty slot passes. *)
Definition ignores_empty (f : slot -> bool) : Prop :=
  forall q, fst q = 0 -> f q = false.

(** [elements] is the number of occupied slots. *)
Definition counted (s : t) : Prop := elements s = occupied (table s).

(** No key other than the sentinel is stored in two slots. *)
Definition distinct_keys (tbl : list slot) : Prop :=
  forall k, k <> 0 -> count (holds k) tbl <= 1.

Definition keys_nonneg (tbl : list slot) : Prop :=
  forall p, In p tbl -> 0 <= fst p.

(** The states of a table that has only seen inserts of positive keys. *)
Record good (s : t) : Prop := {
  good_shape : shape s;
  good_counted : counted s;
  good_probe : probe_invariant (table s) = true;
  good_distinct : distinct_keys (table s);
  good_nonneg : keys_nonneg (table s)
}.

End LinearProbing.

(** ** The chained table *)

Module SeparateChaining.

Definition entry : Type := (Z * Z)%type.

Record t : Type := mk {
  hash_groups : Z;
  elements : Z;
  table : list (list entry)
}.

(** [HashTableSeparateChaining(int hash_groups)]: a vector of [hash_groups]
    empty lists. *)
Definition make (n : Z) : t :=
  mk n 0 (repeat [] (Z.to_nat n)).

(** [table[group].push_back(e)] *)
Definition push_back (tbl : list (list entry)) (group : Z) (e : entry)
    : outcome (list (list entry)) :=
  chain <- vget tbl group ;;
  vset tbl group (chain ++ [e]).

(** The inner [for] loop of [resize], over the pairs of one group. *)
Fixpoint rehash_group (h2 : Z) (new_table : list (list entry))
    (group : list entry) : outcome (list (list entry)) :=
  match group with
  | [] => Ret new_table
  | pr :: rest =>
      new_group <- cmod (fst pr) h2 ;;
      new_table' <- push_back new_table new_group pr ;;
      rehash_group h2 new_table' rest
  end.

(** The outer [for] loop of [resize], over the groups of the table. *)
Fixpoint rehash (h2 : Z) (new_table : list (list entry))
    (tbl : list (list entry)) : outcome (list (list entry)) :=
  match tbl with
  | [] => Ret new_table
  | group :: rest =>
      new_table' <- rehash_group h2 new_table group ;;
      rehash h2 new_table' rest
  end.

Definition resize (s : t) : outcome t :=
  load <- cdiv (elements s) (hash_groups s) ;;
  if load <? 3 then Ret s
  else
    h2 <- int_of (hash_groups s * 2) ;;
    if h2 <? 0 then Undef
    else
      new_table <- rehash h2 (repeat [] (Z.to_nat h2)) (table s) ;;
      Ret (mk h2 (elements s) new_table).

Definition insert (s : t) (key value : Z) : outcome t :=
  group <- cmod key (hash_groups s) ;;
  table' <- push_back (table s) group (key, value) ;;
  elements' <- int_of (elements s + 1) ;;
  resize (mk (hash_groups s) elements' table').

(** The loop of [remove] over one chain: the chain without its first entry
    for [key], or [None] when the loop ends without a match. *)
Fixpoint erase_first (key : Z) (chain : list entry) : option (list entry) :=
  match chain with
  | [] => None
  | e :: rest =>
      if fst e =? key then Some rest
      else match erase_first key rest with
           | Some rest' => Some (e :: rest')
           | None => None
           end
  end.

Definition remove (s : t) (key : Z) : outcome t :=
  group <- cmod key (hash_groups s) ;;
  chain <- vget (table s) group ;;
  match erase_first key chain with
  | Some chain' =>
      table' <- vset (table s) group chain' ;;
      elements' <- int_of (elements s - 1) ;;
      Ret (mk (hash_groups s) elements' table')
  | None => Ret s
  end.

(** The loop of [get] over one chain. *)
Fixpoint find_first (key : Z) (chain : list entry) : Z :=
  match chain with
  | [] => -1
  | e :: rest => if fst e =? key then snd e else find_first key rest
  end.

Definition get (s : t) (key : Z) : outcome Z :=
  group <- cmod key (hash_groups s) ;;
  chain <- vget (table s) group ;;
  Ret (find_first key chain).

(** Sequences of calls. *)
Inductive op : Type :=
| Insert (key value : Z)
| Remove (key : Z).

Definition step (s : t) (o : op) : outcome t :=
  match o with
  | Insert key value => insert s key value
  | Remove key => remove s key
  end.

Fixpoint run (s : t) (ops : list op) : outcome t :=
  match ops with
  | [] => Ret s
  | o :: rest => s' <- step s o ;; run s' rest
  end.

(** The calls of [main]: on a table of 5 groups, insert 1, 2 and 3, remove
    2, then [for (int i = 4; i <= 20; i++) insert(i, i * 100)]. *)
Definition demo : list op :=
  [Insert 1 100; Insert 2 200; Insert 3 300; Remove 2]
  ++ map (fun i => Insert i (i * 100)) (map Z.of_nat (seq 4 17)).

(** A sequence of inserts. *)
Definition inserts (kvs : list (Z * Z)) : list op :=
  map (fun kv => Insert (fst kv) (snd kv)) kvs.

(** The number of entries in the structure. *)
Definition entries (tbl : list (list entry)) : Z :=
  Z.of_nat (length (concat tbl)).

Definition chain_at (tbl : list (list entry)) (group : Z) : list entry :=
  vnth [] tbl group.

(** The vector has [hash_groups] chains, and [hash_groups] and [elements]
    are [int]s, the former positive. *)
Definition shape (s : t) : Prop :=
  Z.of_nat (length (table s)) = hash_groups s /\
  0 < hash_groups s <= INT_MAX /\ elements s <= INT_MAX.

(** [elements] is the number of entries in the chains. *)
Definition counted (s : t) : Prop := elements s = entries (table s).

Definition in_group (h : Z) (group : nat) (e : entry) : bool :=
  bucket_index (fst e) h =? Z.of_nat group.

(** The table with [h] groups that holds the entries of [log], each chain
    in the order of [log]. *)
Definition distribute (h : Z) (log : list entry) : list (list entry) :=
  map (fun group => filter (in_group h group) log) (seq 0 (Z.to_nat h)).

Definition has_key (key : Z) (e : entry) : bool := fst e =? key.

(** [log] without its first entry for [key]. *)
Fixpoint erase (key : Z) (log : list entry) : list entry :=
  match log with
  | [] => []
  | e :: rest => if fst e =? key then rest else e :: erase key rest
  end.

(** What a call does to the list of entries. *)
Definition key_of (o : op) : Z :=
  match o with
  | Insert key _ => key
  | Remove key => key
  end.

Definition apply_op (log : list entry) (o : op) : list entry :=
  match o with
  | Insert key value => log ++ [(key, value)]
  | Remove key => erase key log
  end.

Definition replay (ops : list op) (log : list entry) : list entry :=
  fold_left apply_op ops log.

(** [represents s log]: the table holds exactly the entries of [log], a
    list of entries with non-negative keys, and every chain has its entries
    in the order of [log]. *)
Definition represents (s : t) (log : list entry) : Prop :=
  0 < hash_groups s <= INT_MAX /\
  table s = distribute (hash_groups s) log /\
  elements s = Z.of_nat (length log) /\
  elements s <= INT_MAX /\
  (forall e, In e log -> 0 <= fst e).

End SeparateChaining.

(** * Proofs *)

(** ** Outcomes, integers and vectors *)

Lemma bind_Ret {A B : Type} (c : outcome A) (k : A -> outcome B) (b : B) :
  bind c k = Ret b -> exists a, c = Ret a /\ k a = Ret b.
Proof. destruct c; simpl; intros H; try discriminate. eauto. Qed.

Lemma int_of_Ret (z : Z) : INT_MIN <= z <= INT_MAX -> int_of z = Ret z.
Proof.
  intros H. unfold int_of, in_int.
  destruct (INT_MIN <=? z) eqn:E1; destruct (z <=? INT_MAX) eqn:E2; simpl; trivial; lia.
Qed.

Lemma int_of_inv (z r : Z) : int_of z = Ret r -> r = z /\ INT_MIN <= z <= INT_MAX.
Proof.
  unfold int_of, in_int.
  destruct (INT_MIN <=? z) eqn:E1; destruct (z <=? INT_MAX) eqn:E2; simpl;
    intros H; inversion H; subst; lia.
Qed.

Lemma cmod_Ret (a b : Z) : 0 < b -> cmod a b = Ret (Z.rem a b).
Proof.
  intros H. unfold cmod.
  destruct (b =? 0) eqn:E1; [lia|].
  destruct (b =? -1) eqn:E2; [lia|].
  now rewrite andb_false_r.
Qed.

Lemma cmod_inv (a b r : Z) : cmod a b = Ret r -> r = Z.rem a b /\ b <> 0.
Proof.
  unfold cmod. destruct (b =? 0) eqn:E1; simpl; [discriminate|].
  destruct ((a =? INT_MIN) && (b =? -1)); intros H; inversion H; lia.
Qed.

Lemma rem_nonneg_mod (a b : Z) : 0 <= a -> 0 < b -> Z.rem a b = a mod b.
Proof. intros. apply Z.rem_mod_nonneg; lia. Qed.

Lemma home_nonneg_bound (key n : Z) :
  0 < n -> 0 <= key -> 0 <= bucket_index key n < n.
Proof. intros Hn Hk. unfold bucket_index. apply Z.rem_bound_pos; lia. Qed.

Section Vectors.
Context {A : Type} (d : A).

Lemma vget_Ret (v : list A) (i : Z) :
  0 <= i < Z.of_nat (length v) -> vget v i = Ret (vnth d v i).
Proof.
  intros H. unfold vget, vnth.
  destruct (i <? 0) eqn:E; [lia|].
  rewrite (nth_error_nth' v d) by lia. reflexivity.
Qed.

Lemma vget_inv (v : list A) (i : Z) (x : A) :
  vget v i = Ret x -> 0 <= i < Z.of_nat (length v) /\ x = vnth d v i.
Proof.
  unfold vget, vnth. destruct (i <? 0) eqn:E; [discriminate|].
  destruct (nth_error v (Z.to_nat i)) eqn:N; [|discriminate].
  intros H; inversion H; subst.
  assert (Z.to_nat i < length v)%nat by (apply nth_error_Some; congruence).
  split; [lia|]. symmetry. now apply nth_error_nth.
Qed.

Lemma vset_Ret (v : list A) (i : Z) (x : A) :
  0 <= i < Z.of_nat (length v) -> vset v i x = Ret (upd v (Z.to_nat i) x).
Proof.
  intros H. unfold vset.
  destruct (i <? 0) eqn:E1; [lia|].
  destruct (Z.of_nat (length v) <=? i) eqn:E2; [lia|]. reflexivity.
Qed.

Lemma vset_inv (v v' : list A) (i : Z) (x : A) :
  vset v i x = Ret v' ->
  0 <= i < Z.of_nat (length v) /\ v' = upd v (Z.to_nat i) x.
Proof.
  unfold vset.
  destruct (i <? 0) eqn:E1; [discriminate|].
  destruct (Z.of_nat (length v) <=? i) eqn:E2; [discriminate|].
  intros H; inversion H. split; [lia|reflexivity].
Qed.

Lemma length_upd (v : list A) (i : nat) (x : A) : length (upd v i x) = length v.
Proof.
  revert i; induction v as [|y v IH]; intros [|i]; simpl; trivial.
  now rewrite IH.
Qed.

Lemma nth_upd_same (v : list A) (i : nat) (x : A) :
  (i < length v)%nat -> nth i (upd v i x) d = x.
Proof.
  revert i; induction v as [|y v IH]; intros [|i]; simpl; intros H; try lia; trivial.
  apply IH; lia.
Qed.

Lemma nth_upd_other (v : list A) (i j : nat) (x : A) :
  i <> j -> nth j (upd v i x) d = nth j v d.
Proof.
  revert i j; induction v as [|y v IH]; intros [|i] [|j]; simpl; intros H;
    try congruence; trivial.
  apply IH; congruence.
Qed.

Lemma vnth_upd_same (v : list A) (i : Z) (x : A) :
  0 <= i < Z.of_nat (length v) -> vnth d (upd v (Z.to_nat i) x) i = x.
Proof. intros H. unfold vnth. apply nth_upd_same. lia. Qed.

Lemma vnth_upd_other (v : list A) (i j : Z) (x : A) :
  0 <= i -> 0 <= j -> i <> j -> vnth d (upd v (Z.to_nat i) x) j = vnth d v j.
Proof. intros Hi Hj H. unfold vnth. apply nth_upd_other. lia. Qed.

Lemma vnth_In (v : list A) (i : Z) :
  0 <= i < Z.of_nat (length v) -> In (vnth d v i) v.
Proof. intros H. unfold vnth. apply nth_In. lia. Qed.

Lemma In_vnth (v : list A) (x : A) :
  In x v -> exists i, 0 <= i < Z.of_nat (length v) /\ vnth d v i = x.
Proof.
  intros H. destruct (In_nth v x d H) as (k & Hk & E).
  exists (Z.of_nat k). unfold vnth. rewrite Nat2Z.id. split; [lia|trivial].
Qed.

Lemma In_upd (v : list A) (i : nat) (x y : A) :
  In y (upd v i x) -> y = x \/ In y v.
Proof.
  revert i; induction v as [|z v IH]; intros [|i]; simpl; intros H; auto.
  - destruct H; auto.
  - destruct H as [H|H]; auto. destruct (IH _ H); auto.
Qed.

Lemma In_upd_keep (v : list A) (i : nat) (x y : A) :
  In y v -> y = nth i v d \/ In y (upd v i x).
Proof.
  revert i; induction v as [|z v IH]; intros [|i]; simpl; intros H; auto.
  - destruct H; auto.
  - destruct H as [H|H]; auto. destruct (IH i H); auto.
Qed.

Lemma In_upd_new (v : list A) (i : nat) (x : A) :
  (i < length v)%nat -> In x (upd v i x).
Proof.
  revert i; induction v as [|z v IH]; intros [|i]; simpl; intros H; try lia; auto.
  right. apply IH. lia.
Qed.

Lemma count_nil (f : A -> bool) : count f [] = 0.
Proof. reflexivity. Qed.

Lemma count_cons (f : A -> bool) (x : A) (v : list A) :
  count f (x :: v) = Z.b2z (f x) + count f v.
Proof. unfold count. simpl. destruct (f x); simpl Z.b2z; simpl length; lia. Qed.

Lemma count_bounds (f : A -> bool) (v : list A) :
  0 <= count f v <= Z.of_nat (length v).
Proof.
  induction v as [|x v IH]; [rewrite count_nil; simpl; lia|].
  rewrite count_cons. simpl length. destruct (f x); simpl Z.b2z; lia.
Qed.

Lemma count_upd (f : A -> bool) (v : list A) (i : nat) (x : A) :
  (i < length v)%nat ->
  count f (upd v i x) = count f v - Z.b2z (f (nth i v d)) + Z.b2z (f x).
Proof.
  revert i; induction v as [|y v IH]; intros [|i]; simpl length; intros H; try lia.
  - simpl upd. rewrite !count_cons. simpl nth. lia.
  - simpl upd. rewrite !count_cons. simpl nth. rewrite IH by lia. lia.
Qed.

Lemma count_pos_In (f : A -> bool) (v : list A) :
  0 < count f v -> exists x, In x v /\ f x = true.
Proof.
  induction v as [|y v IH]; [rewrite count_nil; lia|].
  rewrite count_cons. destruct (f y) eqn:E.
  - intros _. exists y. simpl; auto.
  - simpl Z.b2z. intros H. destruct IH as (x & Hx & Fx); [lia|].
    exists x. simpl; auto.
Qed.

Lemma In_count_pos (f : A -> bool) (v : list A) (x : A) :
  In x v -> f x = true -> 0 < count f v.
Proof.
  induction v as [|y v IH]; simpl; [tauto|].
  intros [->|H] Fx; rewrite count_cons.
  - rewrite Fx. pose proof (count_bounds f v). simpl Z.b2z. lia.
  - specialize (IH H Fx). destruct (f y); simpl Z.b2z; lia.
Qed.

Lemma count_repeat_false (f : A -> bool) (x : A) (k : nat) :
  f x = false -> count f (repeat x k) = 0.
Proof.
  intros H. induction k as [|k IH]; [reflexivity|].
  simpl repeat. rewrite count_cons, H, IH. reflexivity.
Qed.

End Vectors.

(** ** The probing table: the scan *)

Module LinearProbingFacts.
Import LinearProbing.

Lemma off_range (n i : Z) (d : nat) : 0 < n -> 0 <= off n i d < n.
Proof. intros Hn. unfold off. apply Z.mod_pos_bound. lia. Qed.

Lemma off_zero (n i : Z) : 0 <= i < n -> off n i 0 = i.
Proof. intros H. unfold off. rewrite Z.add_0_r. now apply Z.mod_small. Qed.

Lemma off_succ (n i : Z) (d : nat) : off n ((i + 1) mod n) d = off n i (S d).
Proof.
  unfold off. rewrite Zplus_mod_idemp_l. f_equal. lia.
Qed.

Lemma off_next (n i : Z) (d : nat) : (off n i d + 1) mod n = off n i (S d).
Proof.
  unfold off. rewrite Zplus_mod_idemp_l. f_equal. lia.
Qed.

Lemma off_reach (n i j : Z) :
  0 <= i < n -> 0 <= j < n -> exists d, (d < Z.to_nat n)%nat /\ off n i d = j.
Proof.
  intros Hi Hj. exists (Z.to_nat ((j - i) mod n)).
  pose proof (Z.mod_pos_bound (j - i) n ltac:(lia)) as B.
  split; [lia|]. unfold off. rewrite Z2Nat.id by lia.
  rewrite Zplus_mod_idemp_r. replace (i + (j - i)) with j by lia.
  now apply Z.mod_small.
Qed.

Lemma off_wrap (n i : Z) (d : nat) :
  0 <= i < n -> Z.of_nat d < n ->
  off n i d = if i + Z.of_nat d <? n then i + Z.of_nat d else i + Z.of_nat d - n.
Proof.
  intros Hi Hd. unfold off.
  destruct (Z.ltb_spec (i + Z.of_nat d) n) as [L|L].
  - apply Z.mod_small. lia.
  - symmetry. apply (Z.mod_unique _ n 1); lia.
Qed.

Lemma off_back (n start : Z) (d : nat) :
  0 <= start < n -> (0 < d)%nat -> Z.of_nat d < n -> off n start d <> start.
Proof.
  intros Hs Hd Hdn. rewrite off_wrap by trivial.
  destruct (start + Z.of_nat d <? n); lia.
Qed.

Lemma off_full (n start : Z) :
  0 <= start < n -> off n start (Z.to_nat n) = start.
Proof.
  intros Hs. unfold off. rewrite Z2Nat.id by lia.
  symmetry. apply (Z.mod_unique _ n 1); lia.
Qed.

Section Probe.
Variable stop : slot -> bool.
Variable tbl : list slot.
Variable n : Z.
Hypothesis Hlen : Z.of_nat (length tbl) = n.
Hypothesis Hn : 0 < n <= INT_MAX.

Lemma probe_step (f : nat) (i : Z) :
  0 <= i < n ->
  probe stop tbl n (S f) i =
  if stop (slot_at tbl i) then Ret i else probe stop tbl n f ((i + 1) mod n).
Proof.
  intros Hi. simpl. rewrite (vget_Ret empty_slot) by lia. simpl.
  fold (slot_at tbl i). destruct (stop (slot_at tbl i)); [reflexivity|].
  rewrite int_of_Ret by (unfold INT_MIN, INT_MAX in *; lia). simpl.
  rewrite cmod_Ret by lia. simpl. rewrite rem_nonneg_mod by lia. reflexivity.
Qed.

Lemma probe_sound (f : nat) : forall i j,
  0 <= i < n -> probe stop tbl n f i = Ret j ->
  exists d, (d < f)%nat /\ j = off n i d /\ stop (slot_at tbl j) = true /\
            forall e, (e < d)%nat -> stop (slot_at tbl (off n i e)) = false.
Proof.
  induction f as [|f IH]; intros i j Hi H; [discriminate|].
  rewrite probe_step in H by trivial.
  destruct (stop (slot_at tbl i)) eqn:E.
  - inversion H; subst j. exists 0%nat. rewrite off_zero by trivial.
    repeat split; trivial; lia.
  - apply IH in H; [|apply Z.mod_pos_bound; lia].
    destruct H as (d & Hd & Hj & Hs & Hb). exists (S d).
    rewrite <- off_succ. repeat split; trivial; try lia.
    intros [|e] He; [now rewrite off_zero|].
    rewrite <- off_succ. apply Hb. lia.
Qed.

Lemma probe_complete (d : nat) : forall f i,
  0 <= i < n -> (d < f)%nat ->
  stop (slot_at tbl (off n i d)) = true ->
  (forall e, (e < d)%nat -> stop (slot_at tbl (off n i e)) = false) ->
  probe stop tbl n f i = Ret (off n i d).
Proof.
  induction d as [|d IH]; intros [|f] i Hi Hf Hs Hb; try lia;
    rewrite probe_step by trivial.
  - rewrite off_zero in * by trivial. now rewrite Hs.
  - pose proof (Hb 0%nat ltac:(lia)) as H0. rewrite off_zero in H0 by trivial.
    rewrite H0, <- off_succ. apply IH.
    + apply Z.mod_pos_bound; lia.
    + lia.
    + now rewrite off_succ.
    + intros e He. rewrite off_succ. apply Hb. lia.
Qed.

Lemma probe_exists (d : nat) : forall f i,
  0 <= i < n -> (d < f)%nat -> stop (slot_at tbl (off n i d)) = true ->
  exists j, probe stop tbl n f i = Ret j.
Proof.
  induction d as [|d IH]; intros [|f] i Hi Hf Hs; try lia;
    rewrite probe_step by trivial.
  - rewrite off_zero in Hs by trivial. rewrite Hs. eauto.
  - destruct (stop (slot_at tbl i)); [eauto|].
    apply IH; [apply Z.mod_pos_bound; lia|lia|now rewrite off_succ].
Qed.

(** A scan over a table that has a stopping slot exits. *)
Lemma probe_total (i j : Z) :
  0 <= i < n -> 0 <= j < n -> stop (slot_at tbl j) = true ->
  exists j', probe stop tbl n (length tbl) i = Ret j'.
Proof.
  intros Hi Hj Hs. destruct (off_reach n i j Hi Hj) as (d & Hd & E).
  apply (probe_exists d); trivial; [lia|now rewrite E].
Qed.

Lemma probe_range (f : nat) (i j : Z) :
  0 <= i < n -> probe stop tbl n f i = Ret j -> 0 <= j < n.
Proof.
  intros Hi H. destruct (probe_sound f i j Hi H) as (d & _ & -> & _).
  apply off_range. lia.
Qed.

Lemma probe_stops (f : nat) (i j : Z) :
  0 <= i < n -> probe stop tbl n f i = Ret j -> stop (slot_at tbl j) = true.
Proof.
  intros Hi H. now destruct (probe_sound f i j Hi H) as (d & _ & _ & ? & _).
Qed.

Lemma probe_never_stops (f : nat) : forall i,
  0 <= i < n -> (forall j, 0 <= j < n -> stop (slot_at tbl j) = false) ->
  probe stop tbl n f i = Loops.
Proof.
  induction f as [|f IH]; intros i Hi Hs; [reflexivity|].
  rewrite probe_step, Hs by trivial. apply IH; trivial.
  apply Z.mod_pos_bound; lia.
Qed.

(** Running out of the fuel the operations give a scan, one unit per slot
    of the table, means that the scan never exits: it returns for no amount
    of fuel. *)
Lemma probe_loops_forever (i : Z) :
  0 <= i < n -> probe stop tbl n (length tbl) i = Loops ->
  forall fuel, probe stop tbl n fuel i = Loops.
Proof.
  intros Hi H fuel. apply probe_never_stops; trivial.
  intros j Hj. destruct (stop (slot_at tbl j)) eqn:E; trivial.
  destruct (probe_total i j Hi Hj E) as (j' & E'). congruence.
Qed.

(** More fuel does not change the result of a scan that returns. *)
Lemma probe_more_fuel (f g : nat) (i j : Z) :
  0 <= i < n -> (f <= g)%nat -> probe stop tbl n f i = Ret j ->
  probe stop tbl n g i = Ret j.
Proof.
  intros Hi Hfg H. destruct (probe_sound f i j Hi H) as (d & Hd & -> & Hs & Hb).
  apply probe_complete; trivial. lia.
Qed.

End Probe.

Lemma probe_ext (stop stop' : slot -> bool) (tbl tbl' : list slot) (n : Z)
    (f : nat) : forall i j,
  Z.of_nat (length tbl) = n -> Z.of_nat (length tbl') = n -> 0 < n <= INT_MAX ->
  0 <= i < n ->
  probe stop tbl n f i = Ret j ->
  (forall x, 0 <= x < n -> stop (slot_at tbl x) = false \/ x = j ->
             stop' (slot_at tbl' x) = stop (slot_at tbl x)) ->
  probe stop' tbl' n f i = Ret j.
Proof.
  induction f as [|f IH]; intros i j L L' Hn Hi H Hx; [discriminate|].
  rewrite probe_step in H |- * by trivial.
  destruct (stop (slot_at tbl i)) eqn:E.
  - inversion H; subst j. rewrite Hx, E by auto. reflexivity.
  - rewrite Hx, E by auto. apply IH; trivial. apply Z.mod_pos_bound; lia.
Qed.

(** ** The probing table: [get] *)

Section GetLoop.
Variable tbl : list slot.
Variable n : Z.
Variable key : Z.
Variable start : Z.
Hypothesis Hlen : Z.of_nat (length tbl) = n.
Hypothesis Hn : 0 < n <= INT_MAX.
Hypothesis Hstart : 0 <= start < n.

Lemma get_loop_step (f : nat) (i : Z) :
  0 <= i < n ->
  get_loop tbl n key start (S f) i =
  if fst (slot_at tbl i) =? 0 then Ret (-1)
  else if fst (slot_at tbl i) =? key then Ret (snd (slot_at tbl i))
  else if (i + 1) mod n =? start then Ret (-1)
  else get_loop tbl n key start f ((i + 1) mod n).
Proof.
  intros Hi. simpl. rewrite (vget_Ret empty_slot) by lia. simpl.
  fold (slot_at tbl i). destruct (fst (slot_at tbl i) =? 0); [reflexivity|].
  destruct (fst (slot_at tbl i) =? key); [reflexivity|].
  rewrite int_of_Ret by (unfold INT_MIN, INT_MAX in *; lia). simpl.
  rewrite cmod_Ret by lia. simpl. rewrite rem_nonneg_mod by lia. reflexivity.
Qed.

(** From the slot [c] steps after [start], with [r] slots left before the
    scan is back at [start], the loop returns what [walk] finds in these
    [r] slots. *)
Lemma get_loop_walk (r : nat) : forall c f,
  (c + S r = Z.to_nat n)%nat -> (r < f)%nat ->
  get_loop tbl n key start f (off n start c) =
  Ret (walk key (map (fun e => slot_at tbl (off n start e)) (seq c (S r)))).
Proof.
  induction r as [|r IH]; intros c [|f] Hc Hf; try lia;
    rewrite get_loop_step by (apply off_range; lia);
    cbn [seq map walk];
    destruct (fst (slot_at tbl (off n start c)) =? 0); trivial;
    destruct (fst (slot_at tbl (off n start c)) =? key); trivial;
    rewrite off_next.
  - replace (S c) with (Z.to_nat n) by lia.
    rewrite off_full, Z.eqb_refl by trivial. reflexivity.
  - destruct (off n start (S c) =? start) eqn:E.
    + apply Z.eqb_eq in E. apply off_back in E; trivial; lia.
    + apply IH; lia.
Qed.

Lemma probe_order_nth (e : nat) :
  (e < length tbl)%nat ->
  nth e (probe_order tbl start) empty_slot = slot_at tbl (off n start e).
Proof.
  intros He. unfold probe_order, slot_at, vnth, off.
  assert (Hs : (Z.to_nat start < length tbl)%nat) by lia.
  destruct (Z_lt_dec (start + Z.of_nat e) n) as [L|L].
  - rewrite Z.mod_small by lia.
    rewrite app_nth1 by (rewrite length_skipn; lia).
    rewrite nth_skipn. f_equal. lia.
  - rewrite <- (Z.mod_unique (start + Z.of_nat e) n 1 (start + Z.of_nat e - n))
      by lia.
    rewrite app_nth2 by (rewrite length_skipn; lia).
    rewrite length_skipn, nth_firstn.
    destruct (Nat.ltb_spec (e - (length tbl - Z.to_nat start)) (Z.to_nat start));
      [|lia].
    f_equal. lia.
Qed.

Lemma probe_order_map :
  probe_order tbl start =
  map (fun e => slot_at tbl (off n start e)) (seq 0 (length tbl)).
Proof.
  apply (nth_ext _ _ empty_slot empty_slot).
  - unfold probe_order.
    rewrite length_app, length_skipn, length_firstn, length_map, length_seq. lia.
  - intros e He.
    assert (He' : (e < length tbl)%nat).
    { unfold probe_order in He.
      rewrite length_app, length_skipn, length_firstn in He. lia. }
    rewrite probe_order_nth by trivial.
    rewrite (nth_indep _ empty_slot (slot_at tbl (off n start 0)))
      by (rewrite length_map, length_seq; trivial).
    rewrite (map_nth (fun e => slot_at tbl (off n start e))).
    now rewrite seq_nth.
Qed.

(** [get]'s loop, started at [start] with one unit of fuel per slot or
    more, returns what the walk in probe order finds. *)
Lemma get_loop_total (f : nat) :
  (length tbl <= f)%nat ->
  get_loop tbl n key start f start = Ret (walk key (probe_order tbl start)).
Proof.
  intros Hf. rewrite probe_order_map.
  transitivity (get_loop tbl n key start f (off n start 0));
    [now rewrite off_zero|].
  assert (E : exists r, length tbl = S r)
    by (exists (Nat.pred (length tbl)); lia).
  destruct E as (r & E). rewrite E. apply get_loop_walk; lia.
Qed.

End GetLoop.

Lemma walk_zero (slots : list slot) : walk 0 slots = -1.
Proof.
  induction slots as [|p rest IH]; simpl; trivial.
  destruct (fst p =? 0); trivial.
Qed.

(** The walk finds the key when no earlier slot is empty or has the key. *)
Lemma walk_hit (key : Z) (g : nat -> slot) (d : nat) : forall c r,
  key <> 0 -> (d < r)%nat ->
  (forall e, (c <= e < c + d)%nat -> free_or_holds key (g e) = false) ->
  fst (g (c + d)%nat) = key ->
  walk key (map g (seq c r)) = snd (g (c + d)%nat).
Proof.
  induction d as [|d IH]; intros c [|r] Hk Hr Hb Hd; try lia; cbn [seq map walk].
  - rewrite Nat.add_0_r in *. rewrite Hd.
    destruct (key =? 0) eqn:E; [lia|]. now rewrite Z.eqb_refl.
  - pose proof (Hb c ltac:(lia)) as H0. unfold free_or_holds in H0.
    destruct (fst (g c) =? 0); [discriminate|].
    destruct (fst (g c) =? key); [discriminate|].
    replace (c + S d)%nat with (S c + d)%nat in * by lia.
    apply IH; trivial; [lia|]. intros e He. apply Hb. lia.
Qed.

(** The walk reports not-found when it meets an empty slot before a slot
    with the key. *)
Lemma walk_miss (key : Z) (g : nat -> slot) (d : nat) : forall c r,
  (d < r)%nat ->
  (forall e, (c <= e < c + d)%nat -> holds key (g e) = false) ->
  fst (g (c + d)%nat) = 0 ->
  walk key (map g (seq c r)) = -1.
Proof.
  induction d as [|d IH]; intros c [|r] Hr Hb Hd; try lia; cbn [seq map walk].
  - rewrite Nat.add_0_r in *. now rewrite Hd.
  - pose proof (Hb c ltac:(lia)) as H0. unfold holds in H0. rewrite H0.
    destruct (fst (g c) =? 0); trivial.
    replace (c + S d)%nat with (S c + d)%nat in * by lia.
    apply IH; trivial; [lia|]. intros e He. apply Hb. lia.
Qed.

(** ** The probing table: writing a slot *)

Lemma home_mod (key n : Z) :
  0 < n -> 0 <= bucket_index key n -> bucket_index key n = key mod n.
Proof.
  unfold bucket_index. intros Hn H. destruct (Z_le_gt_dec 0 key) as [L|L].
  - now apply Z.rem_mod_nonneg.
  - pose proof (Z.rem_nonpos key n ltac:(lia) ltac:(lia)).
    assert (E : Z.rem key n = 0) by lia. rewrite E. symmetry.
    now apply Z.rem_mod_eq_0; [lia|].
Qed.

Lemma home_range (key n : Z) :
  0 < n -> 0 <= bucket_index key n -> 0 <= bucket_index key n < n.
Proof.
  intros Hn H. rewrite home_mod by trivial. apply Z.mod_pos_bound. lia.
Qed.

Lemma home_nonneg (key n : Z) : 0 < n -> 0 <= key -> 0 <= bucket_index key n.
Proof. intros Hn Hk. unfold bucket_index. apply Z.rem_nonneg; lia. Qed.

Lemma probe_start_range (stop : slot -> bool) (tbl : list slot) (n : Z)
    (f : nat) (i j : Z) :
  probe stop tbl n f i = Ret j -> 0 <= i < Z.of_nat (length tbl).
Proof.
  destruct f as [|f]; [discriminate|]. simpl. intros H.
  apply bind_Ret in H. destruct H as (q & Hq & _).
  now apply (vget_inv empty_slot) in Hq.
Qed.

Lemma slot_at_upd_same (tbl : list slot) (j : Z) (p : slot) :
  0 <= j < Z.of_nat (length tbl) -> slot_at (upd tbl (Z.to_nat j) p) j = p.
Proof. apply vnth_upd_same. Qed.

Lemma slot_at_upd_other (tbl : list slot) (j x : Z) (p : slot) :
  0 <= j -> 0 <= x -> j <> x -> slot_at (upd tbl (Z.to_nat j) p) x = slot_at tbl x.
Proof. apply vnth_upd_other. Qed.

Lemma free_or_holds_fst (k : Z) (p q : slot) :
  fst p = fst q -> free_or_holds k p = free_or_holds k q.
Proof. unfold free_or_holds. now intros ->. Qed.

Lemma free_or_holds_false (k : Z) (p : slot) :
  free_or_holds k p = false <-> fst p <> 0 /\ fst p <> k.
Proof.
  unfold free_or_holds.
  destruct (Z.eqb_spec (fst p) 0), (Z.eqb_spec (fst p) k); simpl;
    intuition congruence.
Qed.

Lemma free_or_holds_true (k : Z) (p : slot) :
  free_or_holds k p = true <-> fst p = 0 \/ fst p = k.
Proof.
  unfold free_or_holds.
  destruct (Z.eqb_spec (fst p) 0), (Z.eqb_spec (fst p) k); simpl;
    intuition congruence.
Qed.

Section Write.
Variable tbl : list slot.
Variable n : Z.
Variable j : Z.
Variable p : slot.
Hypothesis Hlen : Z.of_nat (length tbl) = n.
Hypothesis Hn : 0 < n <= INT_MAX.
Hypothesis Hj : 0 <= j < n.
(** The slot that is overwritten is empty or has the key that is written. *)
Hypothesis Hfree : key_at tbl j = 0 \/ key_at tbl j = fst p.

Lemma reaches_upd_old (k : Z) :
  k <> 0 -> reaches tbl k = true -> reaches (upd tbl (Z.to_nat j) p) k = true.
Proof.
  intros Hk. unfold reaches. rewrite length_upd, Hlen.
  destruct (probe (free_or_holds k) tbl n (length tbl) (bucket_index k n))
    as [j'| |] eqn:E; try discriminate.
  intros Hj'. apply Z.eqb_eq in Hj'.
  pose proof (probe_start_range _ _ _ _ _ _ E) as Hs. rewrite Hlen in Hs.
  assert (K : forall x, 0 <= x < n ->
            free_or_holds k (slot_at tbl x) = false \/ x = j' ->
            fst (slot_at (upd tbl (Z.to_nat j) p) x) = fst (slot_at tbl x)).
  { intros x Hx Hc. destruct (Z.eq_dec j x) as [<-|N].
    - rewrite slot_at_upd_same by lia. unfold key_at in *.
      destruct Hc as [Hc| ->]; [apply free_or_holds_false in Hc|]; lia.
    - rewrite slot_at_upd_other by lia. reflexivity. }
  rewrite (probe_ext (free_or_holds k) (free_or_holds k) tbl _ n _ _ j');
    trivial; try lia.
  - assert (R : 0 <= j' < n)
      by apply (probe_range _ tbl n Hlen Hn _ _ _ Hs E).
    apply Z.eqb_eq. unfold key_at. rewrite K; auto.
  - now rewrite length_upd.
  - intros x Hx Hc. apply free_or_holds_fst. now apply K.
Qed.

Lemma reaches_upd_new :
  probe (free_or_holds (fst p)) tbl n (length tbl) (bucket_index (fst p) n)
    = Ret j ->
  reaches (upd tbl (Z.to_nat j) p) (fst p) = true.
Proof.
  intros E. unfold reaches. rewrite length_upd, Hlen.
  pose proof (probe_start_range _ _ _ _ _ _ E) as Hs. rewrite Hlen in Hs.
  rewrite (probe_ext (free_or_holds (fst p)) (free_or_holds (fst p)) tbl _ n _ _ j);
    trivial; try lia.
  - unfold key_at. rewrite slot_at_upd_same by lia. apply Z.eqb_refl.
  - now rewrite length_upd.
  - intros x Hx Hc. destruct (Z.eq_dec j x) as [<-|N].
    + rewrite slot_at_upd_same by lia.
      rewrite (probe_stops _ tbl n Hlen Hn _ _ _ Hs E).
      apply free_or_holds_true. auto.
    + rewrite slot_at_upd_other by lia. reflexivity.
Qed.

Lemma probe_invariant_upd :
  probe_invariant tbl = true ->
  (fst p <> 0 -> reaches (upd tbl (Z.to_nat j) p) (fst p) = true) ->
  probe_invariant (upd tbl (Z.to_nat j) p) = true.
Proof.
  intros PI Hp. unfold probe_invariant in *.
  rewrite forallb_forall in *. intros q Hq.
  destruct (Z.eqb_spec (fst q) 0) as [Z0|NZ];
    [unfold is_empty; rewrite Z0; reflexivity|].
  apply orb_true_iff. right.
  apply In_upd in Hq. destruct Hq as [->|Hq]; [auto|].
  apply reaches_upd_old; trivial.
  specialize (PI q Hq). apply orb_true_iff in PI. destruct PI as [PI|PI]; trivial.
  unfold is_empty in PI. apply Z.eqb_eq in PI. contradiction.
Qed.

End Write.

(** ** The probing table: [resize] *)

Lemma occupied_ignores_empty : ignores_empty (fun q => negb (is_empty q)).
Proof. intros q Hq. unfold is_empty. now rewrite Hq. Qed.

Lemma holds_ignores_empty (k : Z) : k <> 0 -> ignores_empty (holds k).
Proof.
  intros Hk q Hq. unfold holds. rewrite Hq. apply Z.eqb_neq. congruence.
Qed.

Lemma exists_empty (tbl : list slot) :
  occupied tbl < Z.of_nat (length tbl) ->
  exists j, 0 <= j < Z.of_nat (length tbl) /\ is_empty (slot_at tbl j) = true.
Proof.
  intros H. destruct (existsb is_empty tbl) eqn:E.
  - apply existsb_exists in E. destruct E as (q & Hq & Eq).
    destruct (In_vnth empty_slot _ _ Hq) as (j & Hj & <-). eauto.
  - exfalso. revert H. unfold occupied.
    induction tbl as [|q tbl IH]; [unfold count; simpl; lia|].
    simpl in E. apply orb_false_iff in E. destruct E as (E1 & E2).
    rewrite count_cons, E1. simpl length. simpl Z.b2z.
    intros H. apply (IH E2). lia.
Qed.

Lemma place_inv (h : Z) (new new' : list slot) (p : slot) :
  Z.of_nat (length new) = h -> 0 < h <= INT_MAX ->
  place h new p = Ret new' ->
  exists j, 0 <= j < h /\ key_at new j = 0 /\
    probe is_empty new h (length new) (bucket_index (fst p) h) = Ret j /\
    new' = upd new (Z.to_nat j) p.
Proof.
  intros L Hh H. unfold place in H.
  apply bind_Ret in H. destruct H as (i & Hi & H).
  apply bind_Ret in H. destruct H as (j & Hj & H).
  apply cmod_inv in Hi. destruct Hi as (-> & _).
  apply vset_inv in H. destruct H as (Rj & ->).
  pose proof (probe_start_range _ _ _ _ _ _ Hj) as Rs. rewrite L in Rs.
  exists j. repeat split; try lia; trivial.
  apply (probe_stops _ _ _ L Hh) in Hj; trivial.
  now apply Z.eqb_eq in Hj.
Qed.

Lemma place_total (h : Z) (new : list slot) (p : slot) :
  Z.of_nat (length new) = h -> 0 < h <= INT_MAX ->
  0 <= bucket_index (fst p) h -> occupied new < h ->
  exists new', place h new p = Ret new'.
Proof.
  intros L Hh Hp Hocc. unfold place. rewrite cmod_Ret by lia. simpl.
  assert (Hpos : 0 < h) by lia.
  pose proof (home_range _ _ Hpos Hp) as Rs.
  assert (Hocc' : occupied new < Z.of_nat (length new)) by lia.
  destruct (exists_empty new Hocc') as (j & Rj & Ej). rewrite L in Rj.
  destruct (probe_total is_empty new h L Hh _ j Rs Rj Ej) as (j' & E).
  unfold bucket_index in Rs, E. rewrite E. simpl.
  pose proof (probe_range _ _ _ L Hh _ _ _ Rs E).
  rewrite (vset_Ret) by lia. eauto.
Qed.

Section Place.
Variable new : list slot.
Variable h : Z.
Variable j : Z.
Variable p : slot.
Hypothesis Hlen : Z.of_nat (length new) = h.
Hypothesis Hh : 0 < h <= INT_MAX.
Hypothesis Hj : 0 <= j < h.
Hypothesis Hfree : key_at new j = 0.
Hypothesis Hprobe :
  probe is_empty new h (length new) (bucket_index (fst p) h) = Ret j.

Lemma place_count (f : slot -> bool) :
  ignores_empty f ->
  count f (upd new (Z.to_nat j) p) = count f new + Z.b2z (f p).
Proof.
  intros Hf. rewrite (count_upd empty_slot) by lia.
  fold (vnth empty_slot new j). fold (slot_at new j).
  rewrite (Hf (slot_at new j) Hfree). simpl. lia.
Qed.

Lemma place_In_old (q : slot) :
  fst q <> 0 -> In q new -> In q (upd new (Z.to_nat j) p).
Proof.
  intros Hq H.
  destruct (In_upd_keep empty_slot new (Z.to_nat j) p q H) as [E|E]; trivial.
  exfalso. apply Hq. rewrite E. exact Hfree.
Qed.

Lemma place_In_new : In p (upd new (Z.to_nat j) p).
Proof. apply In_upd_new. lia. Qed.

Lemma place_probe_invariant :
  probe_invariant new = true ->
  probe_invariant (upd new (Z.to_nat j) p) = true.
Proof.
  intros PI. apply (probe_invariant_upd new h); auto.
  intros Hp. destruct (existsb (holds (fst p)) new) eqn:E.
  - apply existsb_exists in E. destruct E as (q & Hq & Eq).
    unfold holds in Eq. apply Z.eqb_eq in Eq.
    apply (reaches_upd_old new h); auto.
    unfold probe_invariant in PI. rewrite forallb_forall in PI.
    specialize (PI q Hq). apply orb_true_iff in PI. rewrite Eq in PI.
    destruct PI as [PI|PI]; trivial.
    unfold is_empty in PI. apply Z.eqb_eq in PI. lia.
  - apply (reaches_upd_new new h); auto.
    pose proof (probe_start_range _ _ _ _ _ _ Hprobe) as Rs. rewrite Hlen in Rs.
    apply (probe_ext is_empty _ new new h _ _ j); trivial.
    intros x Hx _. unfold free_or_holds, is_empty.
    destruct (fst (slot_at new x) =? 0) eqn:E0; trivial.
    assert (N : holds (fst p) (slot_at new x) = false).
    { destruct (holds (fst p) (slot_at new x)) eqn:Ho; trivial.
      assert (Ex : existsb (holds (fst p)) new = true).
      { apply existsb_exists. exists (slot_at new x). split; trivial.
        apply vnth_In. lia. }
      congruence. }
    unfold holds in N. now rewrite N.
Qed.

End Place.

Lemma rehash_inv (h : Z) (l : list slot) : forall new new',
  Z.of_nat (length new) = h -> 0 < h <= INT_MAX ->
  rehash h new l = Ret new' ->
  Z.of_nat (length new') = h /\
  (probe_invariant new = true -> probe_invariant new' = true) /\
  (forall f, ignores_empty f -> count f new' = count f new + count f l) /\
  (forall q, fst q <> 0 -> In q new \/ In q l -> In q new') /\
  (forall q, In q new' -> In q new \/ In q l).
Proof.
  induction l as [|p l IH]; intros new new' L Hh H; simpl in H.
  - inversion H; subst new'. repeat split; trivial.
    + intros f _. rewrite count_nil. lia.
    + intros q _ [?|[]]; trivial.
    + auto.
  - apply bind_Ret in H. destruct H as (new1 & H1 & H).
    destruct (place_inv _ _ _ _ L Hh H1) as (j & Rj & Fj & Pj & ->).
    apply IH in H; trivial; [|now rewrite length_upd].
    destruct H as (L' & PI' & C' & I1 & I2).
    split; [trivial|]. split; [|split; [|split]].
    + intros PI. apply PI'. now apply (place_probe_invariant new h).
    + intros f Hf. rewrite (C' f Hf), (place_count new h j p L Rj Fj f Hf).
      rewrite count_cons. lia.
    + intros q Hq [Hin|[->|Hin]]; apply I1; trivial.
      * left. now apply place_In_old.
      * left. now apply (place_In_new new h).
      * now right.
    + intros q Hq. destruct (I2 q Hq) as [Hin|Hin]; [|right; now right].
      apply In_upd in Hin. destruct Hin as [->|Hin]; [right; now left|now left].
Qed.

Lemma rehash_total (h : Z) (l : list slot) : forall new,
  Z.of_nat (length new) = h -> 0 < h <= INT_MAX ->
  (forall q, In q l -> 0 <= bucket_index (fst q) h) ->
  occupied new + Z.of_nat (length l) <= h ->
  exists new', rehash h new l = Ret new'.
Proof.
  induction l as [|p l IH]; intros new L Hh Hk Hocc; simpl; [eauto|].
  simpl length in Hocc.
  destruct (place_total h new p L Hh) as (new1 & H1);
    [apply Hk; now left|lia|].
  rewrite H1. simpl.
  destruct (place_inv _ _ _ _ L Hh H1) as (j & Rj & Fj & Pj & ->).
  apply IH; trivial.
  - now rewrite length_upd.
  - intros q Hq. apply Hk. now right.
  - unfold occupied in *.
    rewrite (place_count new h j p L Rj Fj _ occupied_ignores_empty).
    destruct (negb (is_empty p)); simpl Z.b2z; lia.
Qed.

Lemma probe_invariant_fresh (k : nat) :
  probe_invariant (repeat empty_slot k) = true.
Proof.
  unfold probe_invariant. apply forallb_forall. intros q Hq.
  apply repeat_spec in Hq. now subst q.
Qed.

Lemma resize_inv (s s' : t) :
  shape s -> resize s = Ret s' ->
  hash_groups s' = 2 * hash_groups s /\ shape s' /\
  elements s' = elements s /\
  probe_invariant (table s') = true /\
  (forall f, ignores_empty f -> count f (table s') = count f (table s)) /\
  (forall q, fst q <> 0 -> In q (table s) <-> In q (table s')).
Proof.
  intros (L & Hh) H. unfold resize in H.
  apply bind_Ret in H. destruct H as (h & Eh & H).
  apply int_of_inv in Eh. destruct Eh as (-> & Bh).
  destruct (hash_groups s * 2 <? 0) eqn:E; [discriminate|].
  apply bind_Ret in H. destruct H as (new' & R & H). inversion H; subst s'; clear H.
  apply rehash_inv in R; [|rewrite repeat_length; lia|lia].
  destruct R as (L' & PI & C & I1 & I2). cbn [hash_groups elements table].
  split; [lia|]. split; [split; cbn [hash_groups elements table]; lia|].
  split; [trivial|].
  split; [apply PI, probe_invariant_fresh|]. split.
  - intros f Hf. rewrite (C f Hf), count_repeat_false; [lia|]. now apply Hf.
  - intros q Hq. split; intros Hin.
    + apply I1; auto.
    + destruct (I2 q Hin) as [Hr|Hr]; trivial.
      apply repeat_spec in Hr. subst q. now elim Hq.
Qed.

Lemma resize_total (s : t) :
  shape s -> 2 * hash_groups s <= INT_MAX ->
  (forall q, In q (table s) -> 0 <= bucket_index (fst q) (2 * hash_groups s)) ->
  exists s', resize s = Ret s'.
Proof.
  intros (L & Hh) Hmax Hk. unfold resize.
  rewrite int_of_Ret by (unfold INT_MIN, INT_MAX in *; lia). simpl.
  destruct (hash_groups s * 2 <? 0) eqn:E; [lia|].
  destruct (rehash_total (hash_groups s * 2) (table s)
              (repeat empty_slot (Z.to_nat (hash_groups s * 2)))) as (new' & R).
  - rewrite repeat_length. lia.
  - lia.
  - intros q Hq. replace (hash_groups s * 2) with (2 * hash_groups s) by lia. auto.
  - unfold occupied. rewrite count_repeat_false by reflexivity. lia.
  - rewrite R. simpl. eauto.
Qed.

(** ** The probing table: [insert] *)

Lemma insert_unfold (s : t) (key value : Z) :
  insert s key value =
  (s1 <- (if overloaded s then resize s else Ret s) ;; insert_tail s1 key value).
Proof. reflexivity. Qed.

Lemma insert_tail_inv (s s' : t) (k v : Z) :
  shape s -> insert_tail s k v = Ret s' ->
  exists j, 0 <= j < hash_groups s /\
    probe (free_or_holds k) (table s) (hash_groups s) (length (table s))
      (bucket_index k (hash_groups s)) = Ret j /\
    (key_at (table s) j = 0 \/ key_at (table s) j = k) /\
    hash_groups s' = hash_groups s /\
    table s' = upd (table s) (Z.to_nat j) (k, v) /\
    elements s' = (if key_at (table s) j =? k then elements s
                   else elements s + 1).
Proof.
  intros (L & Hh) H. unfold insert_tail in H.
  apply bind_Ret in H. destruct H as (i & Hi & H).
  apply bind_Ret in H. destruct H as (j & Hj & H).
  apply bind_Ret in H. destruct H as (q & Hq & H).
  apply bind_Ret in H. destruct H as (e' & He & H).
  apply bind_Ret in H. destruct H as (tbl' & Ht & H).
  inversion H; subst s'; clear H. cbn [hash_groups elements table].
  apply cmod_inv in Hi. destruct Hi as (-> & _).
  apply (vget_inv empty_slot) in Hq. destruct Hq as (Rj & ->).
  apply vset_inv in Ht. destruct Ht as (_ & ->).
  pose proof (probe_start_range _ _ _ _ _ _ Hj) as Rs. rewrite L in Rs.
  pose proof (probe_stops _ _ _ L Hh _ _ _ Rs Hj) as St.
  apply free_or_holds_true in St.
  exists j. fold (slot_at (table s) j) in He. fold (key_at (table s) j) in He.
  split; [lia|]. split; [exact Hj|]. split; [exact St|].
  split; [trivial|]. split; [trivial|].
  destruct (key_at (table s) j =? k).
  - now inversion He.
  - apply int_of_inv in He. tauto.
Qed.

Lemma insert_tail_total (s : t) (k v : Z) :
  shape s -> 0 <= bucket_index k (hash_groups s) ->
  occupied (table s) < hash_groups s ->
  k = 0 \/ INT_MIN <= elements s + 1 <= INT_MAX ->
  exists s', insert_tail s k v = Ret s'.
Proof.
  intros (L & Hh) Hk Hocc He. unfold insert_tail.
  assert (Hpos : 0 < hash_groups s) by lia.
  pose proof (home_range _ _ Hpos Hk) as Rs.
  rewrite cmod_Ret by lia. cbn [bind].
  assert (Hocc' : occupied (table s) < Z.of_nat (length (table s))) by lia.
  destruct (exists_empty _ Hocc') as (x & Rx & Ex). rewrite L in Rx.
  assert (Sx : free_or_holds k (slot_at (table s) x) = true).
  { apply free_or_holds_true. left. now apply Z.eqb_eq. }
  destruct (probe_total _ _ _ L Hh _ x Rs Rx Sx) as (j & E).
  unfold bucket_index in Rs, E. rewrite E. cbn [bind].
  pose proof (probe_range _ _ _ L Hh _ _ _ Rs E) as Rj.
  pose proof (probe_stops _ _ _ L Hh _ _ _ Rs E) as Sj.
  apply free_or_holds_true in Sj. unfold slot_at in Sj.
  rewrite (vget_Ret empty_slot) by lia. cbn [bind].
  destruct (Z.eqb_spec (fst (vnth empty_slot (table s) j)) k) as [Ek|Ek];
    cbn [bind].
  - rewrite vset_Ret by lia. cbn [bind]. eauto.
  - rewrite int_of_Ret by lia. cbn [bind]. rewrite vset_Ret by lia.
    cbn [bind]. eauto.
Qed.

(** What a write into the slot found by [insert] does to the invariants. *)
Section InsertWrite.
Variable s s' : t.
Variable k v j : Z.
Hypothesis Hshape : shape s.
Hypothesis Hj : 0 <= j < hash_groups s.
Hypothesis Hprobe :
  probe (free_or_holds k) (table s) (hash_groups s) (length (table s))
    (bucket_index k (hash_groups s)) = Ret j.
Hypothesis Hfree : key_at (table s) j = 0 \/ key_at (table s) j = k.
Hypothesis Hh' : hash_groups s' = hash_groups s.
Hypothesis Ht' : table s' = upd (table s) (Z.to_nat j) (k, v).
Hypothesis He' :
  elements s' = (if key_at (table s) j =? k then elements s else elements s + 1).

Lemma write_shape : shape s'.
Proof.
  destruct Hshape as (L & Hh). unfold shape. rewrite Ht', Hh', length_upd. lia.
Qed.

Lemma write_occupied :
  occupied (table s') =
  occupied (table s) + (if key_at (table s) j =? k then 0 else 1).
Proof.
  destruct Hshape as (L & Hh). unfold occupied. rewrite Ht'.
  rewrite (count_upd empty_slot) by lia.
  fold (vnth empty_slot (table s) j). fold (slot_at (table s) j).
  unfold is_empty; cbn [fst]. fold (key_at (table s) j).
  destruct (Z.eqb_spec (key_at (table s) j) k) as [E|E].
  - rewrite E. lia.
  - destruct Hfree as [F|F]; [|contradiction]. rewrite F. simpl.
    destruct (Z.eqb_spec k 0); simpl; lia.
Qed.

Lemma write_counted : counted s -> counted s'.
Proof.
  unfold counted. intros C. rewrite write_occupied, He', C.
  destruct (key_at (table s) j =? k); lia.
Qed.

Lemma write_probe_invariant :
  probe_invariant (table s) = true -> probe_invariant (table s') = true.
Proof.
  destruct Hshape as (L & Hh). intros PI. rewrite Ht'.
  apply (probe_invariant_upd _ (hash_groups s)); trivial.
  intros _. now apply (reaches_upd_new _ (hash_groups s)).
Qed.

Lemma write_absent :
  probe_invariant (table s) = true -> k <> 0 -> key_at (table s) j <> k ->
  count (holds k) (table s) = 0.
Proof.
  intros PI Hk Hne. pose proof (count_bounds (holds k) (table s)) as B.
  destruct (Z.eq_dec (count (holds k) (table s)) 0) as [E|E]; trivial.
  destruct (count_pos_In (holds k) (table s)) as (q & Hq & Eq); [lia|].
  unfold holds in Eq. apply Z.eqb_eq in Eq.
  unfold probe_invariant in PI. rewrite forallb_forall in PI.
  specialize (PI q Hq). apply orb_true_iff in PI. destruct PI as [PI|PI].
  - unfold is_empty in PI. apply Z.eqb_eq in PI. lia.
  - unfold reaches in PI. destruct Hshape as (L & _).
    rewrite L, Eq, Hprobe in PI. apply Z.eqb_eq in PI. contradiction.
Qed.

Lemma write_distinct :
  probe_invariant (table s) = true ->
  distinct_keys (table s) -> distinct_keys (table s').
Proof.
  destruct Hshape as (L & Hh). intros PI D k' Hk'. rewrite Ht'.
  rewrite (count_upd empty_slot) by lia.
  fold (vnth empty_slot (table s) j). fold (slot_at (table s) j).
  unfold holds at 2 3; cbn [fst]. fold (key_at (table s) j).
  specialize (D k' Hk').
  destruct (Z.eqb_spec k k') as [<-|N]; simpl Z.b2z.
  - destruct (Z.eqb_spec (key_at (table s) j) k) as [E|E]; simpl Z.b2z; [lia|].
    rewrite write_absent; trivial. lia.
  - destruct (key_at (table s) j =? k'); simpl Z.b2z; lia.
Qed.

Lemma write_nonneg :
  0 <= k -> keys_nonneg (table s) -> keys_nonneg (table s').
Proof.
  intros Hk N q Hq. rewrite Ht' in Hq. apply In_upd in Hq.
  destruct Hq as [->|Hq]; [exact Hk|now apply N].
Qed.

Lemma write_In_new : In (k, v) (table s').
Proof.
  destruct Hshape as (L & Hh). rewrite Ht'. apply In_upd_new.
  unfold slot in *. lia.
Qed.

Lemma write_In_old (q : slot) :
  fst q <> 0 -> fst q <> k -> In q (table s) -> In q (table s').
Proof.
  intros H0 Hk Hq. rewrite Ht'.
  destruct (In_upd_keep empty_slot _ (Z.to_nat j) (k, v) q Hq) as [E|E]; trivial.
  exfalso. fold (vnth empty_slot (table s) j) in E.
  fold (slot_at (table s) j) in E. unfold key_at in Hfree. rewrite <- E in Hfree.
  tauto.
Qed.

Lemma write_good : 0 <= k -> good s -> good s'.
Proof.
  intros Hk [G1 G2 G3 G4 G5]. constructor.
  - apply write_shape.
  - now apply write_counted.
  - now apply write_probe_invariant.
  - now apply write_distinct.
  - now apply write_nonneg.
Qed.

End InsertWrite.

Lemma write_present (s : t) (k j : Z) :
  shape s ->
  probe (free_or_holds k) (table s) (hash_groups s) (length (table s))
    (bucket_index k (hash_groups s)) = Ret j ->
  probe_invariant (table s) = true -> k <> 0 ->
  0 < count (holds k) (table s) -> key_at (table s) j = k.
Proof.
  intros Hs Hp PI Hk Hc.
  destruct (Z.eq_dec (key_at (table s) j) k) as [E|E]; trivial.
  pose proof (write_absent s k j Hs Hp PI Hk E). lia.
Qed.

Lemma good_room (s : t) :
  good s -> overloaded s = false -> occupied (table s) < hash_groups s.
Proof.
  intros [(L & Hh) C _ _ _] O. unfold overloaded in O. unfold counted in C.
  pose proof (count_bounds (fun p => negb (is_empty p)) (table s)) as B.
  unfold occupied in *. apply Z.leb_gt in O. lia.
Qed.

Lemma resize_good (s s' : t) :
  good s -> resize s = Ret s' ->
  good s' /\ hash_groups s' = 2 * hash_groups s /\
  elements s' = elements s /\
  (forall q, fst q <> 0 -> In q (table s) <-> In q (table s')).
Proof.
  intros [Sh C PI D N] R.
  destruct (resize_inv s s' Sh R) as (Hh & Sh' & He & PI' & Cn & I).
  split; [|auto]. constructor; trivial.
  - unfold counted, occupied in *. rewrite He, C.
    symmetry. apply Cn, occupied_ignores_empty.
  - intros k Hk. rewrite (Cn _ (holds_ignores_empty k Hk)). now apply D.
  - intros q Hq. destruct (Z.eq_dec (fst q) 0) as [E|E]; [lia|].
    apply N. now apply I.
Qed.

Lemma insert_tail_good (s : t) (k v : Z) :
  good s -> 0 <= k -> occupied (table s) < hash_groups s ->
  exists s', insert_tail s k v = Ret s' /\ good s' /\
    hash_groups s' = hash_groups s /\
    In (k, v) (table s') /\
    (forall q, fst q <> 0 -> fst q <> k -> In q (table s) -> In q (table s')) /\
    elements s <= elements s' <= elements s + 1 /\
    (k <> 0 -> 0 < count (holds k) (table s) -> elements s' = elements s).
Proof.
  intros G Hk Hocc. pose proof G as [Sh C PI D N].
  pose proof Sh as (L & Hh).
  assert (B : 0 <= elements s < hash_groups s).
  { unfold counted in C. rewrite C. unfold occupied in *.
    pose proof (count_bounds (fun p => negb (is_empty p)) (table s)). lia. }
  destruct (insert_tail_total s k v Sh) as (s' & E);
    try (unfold INT_MIN, INT_MAX in *; lia).
  { apply home_nonneg; lia. }
  exists s'. split; [exact E|].
  destruct (insert_tail_inv s s' k v Sh E) as (j & Rj & Pj & Fj & Hh' & Ht' & He').
  split; [now apply (write_good s s' k v j)|]. split; [trivial|].
  split; [now apply (write_In_new s s' k v j)|].
  split; [intros q; now apply (write_In_old s s' k v j)|].
  split; [rewrite He'; destruct (key_at (table s) j =? k); lia|].
  intros Hk0 Hc. rewrite He', (write_present s k j), Z.eqb_refl; trivial.
Qed.

(** [insert] on a table that has only seen inserts of non-negative keys:
    it returns, unless the table has to double beyond [INT_MAX] slots. *)
Lemma insert_good (s : t) (k v : Z) :
  good s -> 0 <= k ->
  (overloaded s = true -> 2 * hash_groups s <= INT_MAX) ->
  exists s', insert s k v = Ret s' /\ good s' /\
    hash_groups s' = (if overloaded s then 2 * hash_groups s else hash_groups s) /\
    In (k, v) (table s') /\
    (forall q, fst q <> 0 -> fst q <> k -> In q (table s) -> In q (table s')) /\
    elements s <= elements s' <= elements s + 1 /\
    (k <> 0 -> 0 < count (holds k) (table s) -> elements s' = elements s).
Proof.
  intros G Hk Hmax. rewrite insert_unfold.
  destruct (overloaded s) eqn:O.
  - pose proof G as [Sh C PI D N]. pose proof Sh as (L & Hh).
    destruct (resize_total s Sh (Hmax eq_refl)) as (s1 & R).
    { intros q Hq. apply home_nonneg; [lia|]. now apply N. }
    rewrite R. cbn [bind].
    destruct (resize_good s s1 G R) as (G1 & Hh1 & He1 & I1).
    destruct (resize_inv s s1 Sh R) as (_ & _ & _ & _ & Cn & _).
    destruct (insert_tail_good s1 k v G1 Hk) as (s' & E & G' & Hh' & In1 & In2 & Be & Pe).
    { unfold occupied. rewrite (Cn _ occupied_ignores_empty), Hh1.
      pose proof (count_bounds (fun p => negb (is_empty p)) (table s)). lia. }
    exists s'. split; [exact E|]. split; [exact G'|].
    split; [lia|]. split; [exact In1|].
    split; [intros q H0 H1 H2; apply In2; trivial; now apply I1|].
    split; [lia|].
    intros Hk0 Hc. rewrite <- He1. apply Pe; trivial.
    now rewrite (Cn _ (holds_ignores_empty k Hk0)).
  - cbn [bind]. destruct (insert_tail_good s k v G Hk (good_room s G O))
      as (s' & E & G' & Hh' & Rest).
    exists s'. auto.
Qed.

(** ** The probing table: [get] on a table *)

Lemma get_fuel_spec (s : t) (key : Z) (fuel : nat) :
  shape s -> 0 <= bucket_index key (hash_groups s) ->
  (length (table s) <= fuel)%nat ->
  get_fuel fuel s key = Ret (get_spec (table s) key).
Proof.
  intros (L & Hh) Hk Hf. unfold get_fuel, get_spec.
  rewrite cmod_Ret by lia. simpl. fold (bucket_index key (hash_groups s)).
  assert (Hpos : 0 < hash_groups s) by lia.
  rewrite L, <- (home_mod _ _ Hpos Hk).
  apply get_loop_total; trivial. now apply home_range.
Qed.

Lemma distinct_values (tbl : list slot) (k v v' : Z) :
  count (holds k) tbl <= 1 -> In (k, v) tbl -> In (k, v') tbl -> v = v'.
Proof.
  induction tbl as [|q tbl IH]; simpl; [tauto|].
  rewrite count_cons. intros C H H'.
  pose proof (count_bounds (holds k) tbl) as B.
  assert (P : forall w, In (k, w) tbl -> 0 < count (holds k) tbl).
  { intros w Hw. apply (In_count_pos _ _ (k, w)); trivial.
    unfold holds. apply Z.eqb_refl. }
  destruct H as [->|H], H' as [E|H'].
  - congruence.
  - specialize (P _ H'). unfold holds in C at 1. cbn [fst] in C.
    rewrite Z.eqb_refl in C. simpl Z.b2z in C. lia.
  - specialize (P _ H). subst q. unfold holds in C at 1. cbn [fst] in C.
    rewrite Z.eqb_refl in C. simpl Z.b2z in C. lia.
  - apply IH; trivial. destruct (holds k q); simpl Z.b2z in C; lia.
Qed.

(** A stored key is found by [get], with the value stored with it. *)
Lemma get_present (s : t) (k v : Z) :
  shape s -> probe_invariant (table s) = true -> distinct_keys (table s) ->
  k <> 0 -> In (k, v) (table s) -> get s k = Ret v.
Proof.
  intros Sh PI D Hk Hin. pose proof Sh as (L & Hh).
  unfold probe_invariant in PI. rewrite forallb_forall in PI.
  specialize (PI _ Hin). apply orb_true_iff in PI. destruct PI as [PI|PI].
  { unfold is_empty in PI. cbn [fst] in PI. apply Z.eqb_eq in PI. contradiction. }
  unfold reaches in PI. cbn [fst] in PI. rewrite L in PI.
  destruct (probe (free_or_holds k) (table s) (hash_groups s) (length (table s))
              (bucket_index k (hash_groups s))) as [j| |] eqn:E; try discriminate.
  apply Z.eqb_eq in PI.
  pose proof (probe_start_range _ _ _ _ _ _ E) as Rs. rewrite L in Rs.
  destruct (probe_sound _ _ _ L Hh _ _ _ Rs E) as (d & Hd & Ej & _ & Hb).
  unfold get. rewrite get_fuel_spec by (trivial; lia).
  unfold get_spec. rewrite L, <- home_mod by lia.
  rewrite (probe_order_map _ (hash_groups s)) by trivial.
  rewrite (walk_hit k (fun e => slot_at (table s)
             (off (hash_groups s) (bucket_index k (hash_groups s)) e)) d);
    trivial.
  - simpl. rewrite <- Ej. f_equal.
    apply (distinct_values (table s) k); auto.
    assert (Rj : 0 <= j < hash_groups s) by (subst j; apply off_range; lia).
    pose proof (vnth_In empty_slot (table s) j ltac:(lia)) as Hj.
    fold (slot_at (table s) j) in Hj. unfold key_at in PI.
    destruct (slot_at (table s) j) as (k', v'). simpl in *. now subst k'.
  - intros e He. apply Hb. lia.
  - simpl. rewrite <- Ej. exact PI.
Qed.

(** ** The probing table: the element count *)

Lemma insert_counted (s s' : t) (k v : Z) :
  shape s -> counted s -> insert s k v = Ret s' ->
  shape s' /\ counted s' /\
  elements s <= elements s' <= elements s + 1 /\
  hash_groups s' = (if overloaded s then 2 * hash_groups s else hash_groups s).
Proof.
  intros Sh C H. rewrite insert_unfold in H.
  apply bind_Ret in H. destruct H as (s1 & H1 & H).
  assert (P : shape s1 /\ counted s1 /\ elements s1 = elements s /\
              hash_groups s1 =
              (if overloaded s then 2 * hash_groups s else hash_groups s)).
  { destruct (overloaded s).
    - destruct (resize_inv s s1 Sh H1) as (Hh & Sh1 & He & _ & Cn & _).
      split; [exact Sh1|]. split; [|auto]. unfold counted, occupied in *.
      rewrite He, C. symmetry. apply Cn, occupied_ignores_empty.
    - inversion H1; subst s1. auto. }
  destruct P as (Sh1 & C1 & He1 & Hh1).
  destruct (insert_tail_inv s1 s' k v Sh1 H) as (j & Rj & Pj & Fj & Hh' & Ht' & He').
  split; [now apply (write_shape s1 s' k v j)|].
  split; [now apply (write_counted s1 s' k v j)|].
  split; [|congruence].
  rewrite He', He1. destruct (key_at (table s1) j =? k); lia.
Qed.

Lemma remove_inv (s s' : t) (k : Z) :
  shape s -> remove s k = Ret s' ->
  exists j, 0 <= j < hash_groups s /\
    probe (holds k) (table s) (hash_groups s) (length (table s))
      (bucket_index k (hash_groups s)) = Ret j /\
    key_at (table s) j = k /\
    hash_groups s' = hash_groups s /\
    table s' = upd (table s) (Z.to_nat j) (0, 0) /\
    elements s' = elements s - 1.
Proof.
  intros (L & Hh) H. unfold remove in H.
  apply bind_Ret in H. destruct H as (i & Hi & H).
  apply bind_Ret in H. destruct H as (j & Hj & H).
  apply bind_Ret in H. destruct H as (tbl' & Ht & H).
  apply bind_Ret in H. destruct H as (e' & He & H).
  inversion H; subst s'; clear H. cbn [hash_groups elements table].
  apply cmod_inv in Hi. destruct Hi as (-> & _).
  apply vset_inv in Ht. destruct Ht as (Rj & ->).
  apply int_of_inv in He. destruct He as (-> & _).
  pose proof (probe_start_range _ _ _ _ _ _ Hj) as Rs. rewrite L in Rs.
  pose proof (probe_stops _ _ _ L Hh _ _ _ Rs Hj) as St.
  unfold holds in St. apply Z.eqb_eq in St.
  exists j. repeat split; trivial; lia.
Qed.

Lemma remove_counted (s s' : t) (k : Z) :
  shape s -> counted s -> k <> 0 -> remove s k = Ret s' ->
  shape s' /\ counted s' /\ elements s' = elements s - 1.
Proof.
  intros Sh C Hk H. pose proof Sh as (L & Hh).
  destruct (remove_inv s s' k Sh H) as (j & Rj & Pj & Kj & Hh' & Ht' & He').
  split; [|split; trivial].
  - unfold shape. rewrite Ht', Hh', length_upd. lia.
  - unfold counted, occupied in *. rewrite Ht', He', C.
    assert (E1 : negb (is_empty (nth (Z.to_nat j) (table s) empty_slot)) = true).
    { fold (vnth empty_slot (table s) j). fold (slot_at (table s) j).
      unfold is_empty. fold (key_at (table s) j). rewrite Kj.
      now destruct (Z.eqb_spec k 0). }
    rewrite (count_upd empty_slot) by lia. cbv beta. rewrite E1.
    simpl Z.b2z. lia.
Qed.

Lemma remove_total (s : t) (k : Z) :
  shape s -> 0 <= bucket_index k (hash_groups s) ->
  (exists j, 0 <= j < hash_groups s /\ key_at (table s) j = k) ->
  INT_MIN < elements s <= INT_MAX ->
  exists s', remove s k = Ret s'.
Proof.
  intros (L & Hh) Hk (x & Rx & Kx) He. unfold remove.
  assert (Hpos : 0 < hash_groups s) by lia.
  pose proof (home_range _ _ Hpos Hk) as Rs.
  rewrite cmod_Ret by lia. cbn [bind].
  assert (Sx : holds k (slot_at (table s) x) = true)
    by (unfold holds; now apply Z.eqb_eq).
  destruct (probe_total _ _ _ L Hh _ x Rs Rx Sx) as (j & E).
  unfold bucket_index in Rs, E. rewrite E. cbn [bind].
  pose proof (probe_range _ _ _ L Hh _ _ _ Rs E) as Rj.
  rewrite vset_Ret by lia. cbn [bind].
  rewrite int_of_Ret by (unfold INT_MIN, INT_MAX in *; lia). cbn [bind].
  eauto.
Qed.

(** After [remove] has cleared the first slot with the key on the probe
    path, [get] meets no slot with the key before that empty slot. *)
Lemma get_after_remove (s s' : t) (k : Z) :
  shape s -> remove s k = Ret s' -> get s' k = Ret (-1).
Proof.
  intros Sh H. pose proof Sh as (L & Hh).
  destruct (remove_inv s s' k Sh H) as (j & Rj & Pj & Kj & Hh' & Ht' & He').
  pose proof (probe_start_range _ _ _ _ _ _ Pj) as Rs. rewrite L in Rs.
  destruct (probe_sound _ _ _ L Hh _ _ _ Rs Pj) as (d & Hd & Ej & _ & Hb).
  assert (Sh' : shape s').
  { unfold shape. rewrite Ht', Hh', length_upd. lia. }
  unfold get. rewrite get_fuel_spec by (trivial; rewrite Hh'; lia).
  f_equal. unfold get_spec. destruct Sh' as (L' & _).
  rewrite L', Hh', <- home_mod by lia.
  rewrite (probe_order_map _ (hash_groups s)) by (trivial; lia).
  apply (walk_miss k _ d).
  - rewrite Ht', length_upd. lia.
  - intros e He. simpl. rewrite Ht'.
    assert (Ne : off (hash_groups s) (bucket_index k (hash_groups s)) e <> j).
    { intros Eq. specialize (Hb e ltac:(lia)). rewrite Eq in Hb.
      unfold holds in Hb. apply Z.eqb_neq in Hb. contradiction. }
    pose proof (off_range (hash_groups s) (bucket_index k (hash_groups s)) e
                  ltac:(lia)).
    rewrite slot_at_upd_other by lia. apply Hb. lia.
  - simpl. rewrite Ht', <- Ej, slot_at_upd_same by lia. reflexivity.
Qed.

Lemma count_complement (f : slot -> bool) (tbl : list slot) :
  count f tbl + count (fun q => negb (f q)) tbl = Z.of_nat (length tbl).
Proof.
  induction tbl as [|q tbl IH]; [reflexivity|].
  rewrite !count_cons. simpl length. destruct (f q); simpl Z.b2z; lia.
Qed.

Lemma empty_slot_room (tbl : list slot) (j : Z) :
  0 <= j < Z.of_nat (length tbl) -> key_at tbl j = 0 ->
  occupied tbl < Z.of_nat (length tbl).
Proof.
  intros Rj Kj. unfold occupied.
  pose proof (count_complement is_empty tbl) as C.
  assert (P : 0 < count is_empty tbl).
  { apply (In_count_pos _ _ (slot_at tbl j)).
    - now apply vnth_In.
    - unfold is_empty. now apply Z.eqb_eq. }
  lia.
Qed.

(** ** The probing table: the key [0] *)

Lemma get_zero (s : t) : shape s -> get s 0 = Ret (-1).
Proof.
  intros Sh. pose proof Sh as (L & Hh). unfold get.
  rewrite get_fuel_spec; trivial.
  - unfold get_spec. now rewrite walk_zero.
  - unfold bucket_index. rewrite Z.rem_0_l; lia.
Qed.

Lemma insert_tail_zero (s : t) (v : Z) :
  shape s -> occupied (table s) < hash_groups s ->
  exists s', insert_tail s 0 v = Ret s' /\ shape s' /\
    elements s' = elements s /\ hash_groups s' = hash_groups s /\
    occupied (table s') = occupied (table s) /\
    exists j, 0 <= j < hash_groups s' /\ slot_at (table s') j = (0, v).
Proof.
  intros Sh Hocc. pose proof Sh as (L & Hh).
  destruct (insert_tail_total s 0 v Sh) as (s' & E); auto.
  { unfold bucket_index. rewrite Z.rem_0_l; lia. }
  exists s'. split; [exact E|].
  destruct (insert_tail_inv s s' 0 v Sh E) as (j & Rj & Pj & Fj & Hh' & Ht' & He').
  assert (Kj : key_at (table s) j = 0) by tauto.
  pose proof He' as He0. rewrite Kj in He'. simpl in He'.
  split; [now apply (write_shape s s' 0 v j)|]. split; [trivial|].
  split; [trivial|]. split.
  - rewrite (write_occupied s s' 0 v j); trivial. rewrite Kj. simpl. lia.
  - exists j. rewrite Hh', Ht'. split; [trivial|].
    apply slot_at_upd_same. lia.
Qed.

End LinearProbingFacts.

(** ** The chained table: the chains *)

Module SeparateChainingFacts.
Import SeparateChaining.

Lemma cdiv_Ret (a b : Z) : 0 < b -> cdiv a b = Ret (Z.quot a b).
Proof.
  intros H. unfold cdiv.
  destruct (b =? 0) eqn:E1; [lia|].
  destruct (b =? -1) eqn:E2; [lia|].
  now rewrite andb_false_r.
Qed.

Lemma push_back_inv (tbl tbl' : list (list entry)) (g : Z) (e : entry) :
  push_back tbl g e = Ret tbl' ->
  0 <= g < Z.of_nat (length tbl) /\
  tbl' = upd tbl (Z.to_nat g) (chain_at tbl g ++ [e]).
Proof.
  unfold push_back. intros H. apply bind_Ret in H. destruct H as (c & Hc & H).
  apply (vget_inv []) in Hc. destruct Hc as (R & ->).
  apply vset_inv in H. tauto.
Qed.

Lemma push_back_Ret (tbl : list (list entry)) (g : Z) (e : entry) :
  0 <= g < Z.of_nat (length tbl) ->
  push_back tbl g e = Ret (upd tbl (Z.to_nat g) (chain_at tbl g ++ [e])).
Proof.
  intros R. unfold push_back. rewrite (vget_Ret []) by trivial. cbn [bind].
  now rewrite vset_Ret.
Qed.

Lemma concat_upd_length (tbl : list (list entry)) (i : nat) (c : list entry) :
  (i < length tbl)%nat ->
  (length (concat (upd tbl i c)) + length (nth i tbl []) =
   length (concat tbl) + length c)%nat.
Proof.
  revert i; induction tbl as [|x tbl IH]; intros [|i]; simpl; intros H; try lia.
  - rewrite !length_app. lia.
  - rewrite !length_app. specialize (IH i ltac:(lia)). lia.
Qed.

Lemma entries_upd (tbl : list (list entry)) (g : Z) (c : list entry) :
  0 <= g < Z.of_nat (length tbl) ->
  entries (upd tbl (Z.to_nat g) c) =
  entries tbl - Z.of_nat (length (chain_at tbl g)) + Z.of_nat (length c).
Proof.
  intros R. unfold entries, chain_at, vnth.
  pose proof (concat_upd_length tbl (Z.to_nat g) c ltac:(lia)). lia.
Qed.

Lemma entries_push_back (tbl tbl' : list (list entry)) (g : Z) (e : entry) :
  push_back tbl g e = Ret tbl' ->
  length tbl' = length tbl /\ entries tbl' = entries tbl + 1.
Proof.
  intros H. apply push_back_inv in H. destruct H as (R & ->).
  rewrite length_upd, entries_upd, length_app by trivial. simpl length.
  split; [trivial|lia].
Qed.

Lemma rehash_group_entries (h2 : Z) (group : list entry) : forall new new',
  rehash_group h2 new group = Ret new' ->
  length new' = length new /\
  entries new' = entries new + Z.of_nat (length group).
Proof.
  induction group as [|e group IH]; intros new new' H; simpl in H.
  - inversion H. simpl. lia.
  - apply bind_Ret in H. destruct H as (g & _ & H).
    apply bind_Ret in H. destruct H as (new1 & H1 & H).
    apply entries_push_back in H1. apply IH in H. simpl length. lia.
Qed.

Lemma rehash_entries (h2 : Z) (tbl : list (list entry)) : forall new new',
  rehash h2 new tbl = Ret new' ->
  length new' = length new /\ entries new' = entries new + entries tbl.
Proof.
  induction tbl as [|group tbl IH]; intros new new' H; simpl in H.
  - inversion H. unfold entries. simpl. lia.
  - apply bind_Ret in H. destruct H as (new1 & H1 & H).
    apply rehash_group_entries in H1. apply IH in H.
    unfold entries in *. simpl concat. rewrite length_app. lia.
Qed.

Lemma entries_repeat_nil (k : nat) : entries (repeat [] k) = 0.
Proof.
  unfold entries. induction k as [|k IH]; simpl; trivial.
Qed.

Lemma chained_resize_counted (s s' : t) :
  shape s -> counted s -> resize s = Ret s' -> shape s' /\ counted s'.
Proof.
  intros (L & Hh & He) C H. unfold resize in H.
  apply bind_Ret in H. destruct H as (load & _ & H).
  destruct (load <? 3); [inversion H; subst s'; unfold shape; auto|].
  apply bind_Ret in H. destruct H as (h2 & E2 & H).
  apply int_of_inv in E2. destruct E2 as (-> & B2).
  destruct (hash_groups s * 2 <? 0) eqn:E; [discriminate|].
  apply bind_Ret in H. destruct H as (new' & R & H).
  inversion H; subst s'; clear H. apply rehash_entries in R.
  destruct R as (L' & En). rewrite repeat_length in L'.
  rewrite entries_repeat_nil in En.
  unfold shape, counted in *. cbn [hash_groups elements table]. lia.
Qed.

Lemma chained_insert_counted (s s' : t) (k v : Z) :
  shape s -> counted s -> insert s k v = Ret s' -> shape s' /\ counted s'.
Proof.
  intros (L & Hh & He) C H. unfold insert in H.
  apply bind_Ret in H. destruct H as (g & _ & H).
  apply bind_Ret in H. destruct H as (tbl' & P & H).
  apply bind_Ret in H. destruct H as (e' & E & H).
  apply int_of_inv in E. destruct E as (-> & B).
  apply entries_push_back in P. destruct P as (L' & En).
  apply chained_resize_counted in H; trivial;
    unfold shape, counted in *; cbn [hash_groups elements table]; lia.
Qed.

Lemma erase_first_length (k : Z) (chain chain' : list entry) :
  erase_first k chain = Some chain' -> length chain = S (length chain').
Proof.
  revert chain'; induction chain as [|e chain IH]; intros chain' H; simpl in H;
    [discriminate|].
  destruct (fst e =? k); [inversion H; trivial|].
  destruct (erase_first k chain) as [r|]; [|discriminate].
  inversion H. simpl. f_equal. now apply IH.
Qed.

Lemma chained_remove_counted (s s' : t) (k : Z) :
  shape s -> counted s -> remove s k = Ret s' -> shape s' /\ counted s'.
Proof.
  intros (L & Hh & He) C H. unfold remove in H.
  apply bind_Ret in H. destruct H as (g & _ & H).
  apply bind_Ret in H. destruct H as (chain & Hc & H).
  apply (vget_inv []) in Hc. destruct Hc as (R & ->).
  destruct (erase_first k (vnth [] (table s) g)) as [chain'|] eqn:E;
    [|inversion H; subst s'; unfold shape; auto].
  apply bind_Ret in H. destruct H as (tbl' & Ht & H).
  apply vset_inv in Ht. destruct Ht as (_ & ->).
  apply bind_Ret in H. destruct H as (e' & E' & H).
  apply int_of_inv in E'. destruct E' as (-> & B).
  inversion H; subst s'; clear H.
  apply erase_first_length in E.
  unfold shape, counted in *. cbn [hash_groups elements table].
  rewrite length_upd, entries_upd by trivial. unfold chain_at. lia.
Qed.

(** ** The chained table: the table as a distribution of a log *)

Lemma length_distribute (h : Z) (log : list entry) :
  length (distribute h log) = Z.to_nat h.
Proof. unfold distribute. now rewrite length_map, length_seq. Qed.

Lemma nth_distribute (h : Z) (log : list entry) (b : nat) :
  (b < Z.to_nat h)%nat ->
  nth b (distribute h log) [] = filter (in_group h b) log.
Proof.
  intros Hb. unfold distribute.
  rewrite (nth_indep _ [] (filter (in_group h 0) log))
    by (rewrite length_map, length_seq; trivial).
  rewrite (map_nth (fun group => filter (in_group h group) log)).
  now rewrite seq_nth.
Qed.

Lemma distribute_ext (h : Z) (log : list entry) (tbl : list (list entry)) :
  length tbl = Z.to_nat h ->
  (forall b, (b < Z.to_nat h)%nat -> nth b tbl [] = filter (in_group h b) log) ->
  tbl = distribute h log.
Proof.
  intros L H. apply (nth_ext _ _ [] []).
  - now rewrite length_distribute.
  - intros b Hb. rewrite L in Hb. rewrite nth_distribute by trivial. auto.
Qed.

Lemma in_group_home (h : Z) (b : nat) (e : entry) :
  0 < h -> 0 <= fst e ->
  in_group h b e = (Z.to_nat (bucket_index (fst e) h) =? b)%nat.
Proof.
  intros Hh He. unfold in_group.
  pose proof (home_nonneg_bound (fst e) h) as B.
  destruct (Z.eqb_spec (bucket_index (fst e) h) (Z.of_nat b)) as [E|E];
    destruct (Nat.eqb_spec (Z.to_nat (bucket_index (fst e) h)) b) as [E'|E'];
    trivial; lia.
Qed.

Lemma nth_upd (tbl : list (list entry)) (i b : nat) (c : list entry) :
  (i < length tbl)%nat ->
  nth b (upd tbl i c) [] = if (i =? b)%nat then c else nth b tbl [].
Proof.
  intros Hi. destruct (Nat.eqb_spec i b) as [<-|N].
  - now apply nth_upd_same.
  - now apply nth_upd_other.
Qed.

Lemma filter_in_group_cons (h : Z) (b : nat) (e : entry) (l : list entry) :
  0 < h -> 0 <= fst e ->
  filter (in_group h b) (e :: l) =
  (if (Z.to_nat (bucket_index (fst e) h) =? b)%nat then [e] else [])
  ++ filter (in_group h b) l.
Proof.
  intros Hh He. simpl. rewrite in_group_home by trivial.
  now destruct (Z.to_nat (bucket_index (fst e) h) =? b)%nat.
Qed.

(** Pushing the pairs of [group] appends to every chain of the new table
    the pairs that belong to it, in their order in [group]. *)
Lemma rehash_group_spec (h2 : Z) (group : list entry) : forall new,
  Z.of_nat (length new) = h2 -> 0 < h2 ->
  (forall e, In e group -> 0 <= fst e) ->
  exists new', rehash_group h2 new group = Ret new' /\
    length new' = length new /\
    forall b, (b < length new)%nat ->
      nth b new' [] = nth b new [] ++ filter (in_group h2 b) group.
Proof.
  induction group as [|e group IH]; intros new L Hh Hk; simpl rehash_group.
  - exists new. repeat split; trivial. intros b _. simpl. now rewrite app_nil_r.
  - assert (He : 0 <= fst e) by (apply Hk; now left).
    pose proof (home_nonneg_bound (fst e) h2 Hh He) as B.
    rewrite cmod_Ret by trivial. cbn [bind].
    fold (bucket_index (fst e) h2).
    rewrite push_back_Ret by lia. cbn [bind].
    destruct (IH (upd new (Z.to_nat (bucket_index (fst e) h2))
                    (chain_at new (bucket_index (fst e) h2) ++ [e])))
      as (new' & R & L' & N).
    + now rewrite length_upd.
    + trivial.
    + intros x Hx. apply Hk. now right.
    + exists new'. split; [exact R|]. rewrite length_upd in L', N.
      split; [exact L'|]. intros b Hb. rewrite (N b Hb), nth_upd by lia.
      rewrite filter_in_group_cons by trivial. unfold chain_at, vnth.
      destruct (Nat.eqb_spec (Z.to_nat (bucket_index (fst e) h2)) b) as [<-|_].
      * now rewrite <- !app_assoc.
      * reflexivity.
Qed.

Lemma rehash_spec (h2 : Z) (tbl : list (list entry)) : forall new,
  Z.of_nat (length new) = h2 -> 0 < h2 ->
  (forall e, In e (concat tbl) -> 0 <= fst e) ->
  exists new', rehash h2 new tbl = Ret new' /\
    length new' = length new /\
    forall b, (b < length new)%nat ->
      nth b new' [] = nth b new [] ++ filter (in_group h2 b) (concat tbl).
Proof.
  induction tbl as [|group tbl IH]; intros new L Hh Hk; simpl rehash.
  - exists new. repeat split; trivial. intros b _. simpl. now rewrite app_nil_r.
  - simpl concat in Hk.
    destruct (rehash_group_spec h2 group new L Hh) as (new1 & R1 & L1 & N1).
    { intros e He. apply Hk, in_or_app. now left. }
    rewrite R1. cbn [bind].
    destruct (IH new1) as (new' & R & L' & N); trivial.
    { lia. }
    { intros e He. apply Hk, in_or_app. now right. }
    exists new'. split; [exact R|]. split; [lia|].
    intros b Hb. rewrite N, N1 by lia.
    simpl concat. now rewrite filter_app, app_assoc.
Qed.

Lemma filter_concat (f : entry -> bool) (ls : list (list entry)) :
  filter f (concat ls) = concat (map (filter f) ls).
Proof.
  induction ls as [|l ls IH]; simpl; trivial.
  now rewrite filter_app, IH.
Qed.

Lemma filter_filter_keep (f g : entry -> bool) (l : list entry) :
  (forall e, In e l -> f e = true -> g e = true) ->
  filter f (filter g l) = filter f l.
Proof.
  induction l as [|e l IH]; intros H; simpl; trivial.
  destruct (g e) eqn:G; simpl.
  - destruct (f e); rewrite IH; trivial; intros x Hx; apply H; now right.
  - destruct (f e) eqn:F.
    + rewrite (H e) in G; [discriminate|now left|trivial].
    + apply IH. intros x Hx. apply H. now right.
Qed.

Lemma filter_filter_drop (f g : entry -> bool) (l : list entry) :
  (forall e, In e l -> f e = true -> g e = false) ->
  filter f (filter g l) = [].
Proof.
  induction l as [|e l IH]; intros H; simpl; trivial.
  destruct (g e) eqn:G; simpl.
  - destruct (f e) eqn:F.
    + rewrite (H e) in G; [discriminate|now left|trivial].
    + apply IH. intros x Hx. apply H. now right.
  - apply IH. intros x Hx. apply H. now right.
Qed.

Lemma concat_map_nil {A : Type} (G : nat -> list A) (cs : list nat) :
  (forall c, In c cs -> G c = []) -> concat (map G cs) = [].
Proof.
  induction cs as [|c cs IH]; intros H; simpl; trivial.
  rewrite (H c) by now left. apply IH. intros x Hx. apply H. now right.
Qed.

Lemma concat_map_seq_single {A : Type} (G : nat -> list A) (c0 : nat) :
  forall len start,
  (start <= c0 < start + len)%nat ->
  (forall c, c <> c0 -> G c = []) ->
  concat (map G (seq start len)) = G c0.
Proof.
  induction len as [|len IH]; intros start Hc H; [lia|].
  simpl. destruct (Nat.eq_dec start c0) as [->|N].
  - rewrite concat_map_nil; [apply app_nil_r|].
    intros c Hc'. apply in_seq in Hc'. apply H. lia.
  - rewrite (H start N). simpl. apply IH; trivial. lia.
Qed.

(** The pairs of a group of the doubled table, read off the chains of the
    old table group by group, come in the order of the log. *)
Lemma filter_concat_distribute (h : Z) (log : list entry) (b : nat) :
  0 < h -> (forall e, In e log -> 0 <= fst e) ->
  filter (in_group (2 * h) b) (concat (distribute h log)) =
  filter (in_group (2 * h) b) log.
Proof.
  intros Hh Hk. rewrite filter_concat. unfold distribute. rewrite map_map.
  set (c0 := Z.to_nat (Z.of_nat b mod h)).
  assert (Hc0 : (0 <= c0 < 0 + Z.to_nat h)%nat).
  { pose proof (Z.mod_pos_bound (Z.of_nat b) h Hh). lia. }
  assert (Hmod : forall e, In e log -> in_group (2 * h) b e = true ->
            bucket_index (fst e) h = Z.of_nat b mod h).
  { intros e He Q. unfold in_group in Q. apply Z.eqb_eq in Q.
    specialize (Hk e He). unfold bucket_index in *.
    rewrite Z.rem_mod_nonneg in Q |- * by lia. rewrite <- Q.
    symmetry. apply Z.mod_mod_divide. exists 2. lia. }
  rewrite (concat_map_seq_single _ c0); trivial.
  - apply filter_filter_keep. intros e He Q.
    unfold in_group. rewrite (Hmod e He Q). apply Z.eqb_eq.
    pose proof (Z.mod_pos_bound (Z.of_nat b) h Hh). lia.
  - intros c Hc. apply filter_filter_drop. intros e He Q.
    unfold in_group. rewrite (Hmod e He Q). apply Z.eqb_neq.
    pose proof (Z.mod_pos_bound (Z.of_nat b) h Hh). lia.
Qed.

Lemma In_concat_distribute (h : Z) (log : list entry) (e : entry) :
  In e (concat (distribute h log)) -> In e log.
Proof.
  intros H. apply in_concat in H. destruct H as (c & Hc & He).
  unfold distribute in Hc. apply in_map_iff in Hc.
  destruct Hc as (g & <- & _). apply filter_In in He. tauto.
Qed.

(** ** The chained table: the operations on a represented log *)

Lemma make_represents (n : Z) : 0 < n <= INT_MAX -> represents (make n) [].
Proof.
  intros Hn. unfold represents, make. cbn [hash_groups elements table].
  repeat split; try lia; [|intros e []].
  apply distribute_ext; [apply repeat_length|].
  intros b Hb. simpl. apply nth_repeat.
Qed.

Lemma distribute_snoc (h : Z) (log : list entry) (e : entry) :
  0 < h -> 0 <= fst e ->
  upd (distribute h log) (Z.to_nat (bucket_index (fst e) h))
    (chain_at (distribute h log) (bucket_index (fst e) h) ++ [e]) =
  distribute h (log ++ [e]).
Proof.
  intros Hh He. pose proof (home_nonneg_bound (fst e) h Hh He) as B.
  apply distribute_ext.
  - now rewrite length_upd, length_distribute.
  - intros b Hb. rewrite nth_upd by (rewrite length_distribute; lia).
    rewrite filter_app, filter_in_group_cons by trivial.
    simpl filter at 2. rewrite app_nil_r. unfold chain_at, vnth.
    rewrite nth_distribute by lia.
    destruct (Nat.eqb_spec (Z.to_nat (bucket_index (fst e) h)) b) as [<-|_];
      trivial.
    now rewrite app_nil_r, nth_distribute by lia.
Qed.

Lemma entries_distribute (h : Z) (log : list entry) :
  0 < h -> (forall e, In e log -> 0 <= fst e) ->
  entries (distribute h log) = Z.of_nat (length log).
Proof.
  intros Hh. induction log as [|e log IH] using rev_ind; intros Hk.
  - unfold entries, distribute. rewrite concat_map_nil; trivial.
  - assert (He : 0 <= fst e) by (apply Hk, in_or_app; right; now left).
    pose proof (home_nonneg_bound (fst e) h Hh He) as B.
    rewrite <- distribute_snoc, entries_upd, IH by
      (trivial; try (intros x Hx; apply Hk, in_or_app; now left);
       rewrite length_distribute; lia).
    rewrite !length_app. simpl length. lia.
Qed.

Lemma represents_shape (s : t) (log : list entry) :
  represents s log -> shape s /\ counted s.
Proof.
  intros (Hh & Ht & He & Hm & Hk). unfold shape, counted. rewrite Ht.
  rewrite length_distribute, entries_distribute by (trivial; lia).
  repeat split; lia.
Qed.

Lemma resize_represents (s : t) (log : list entry) :
  represents s log ->
  exists s', resize s = Ret s' /\ represents s' log /\
    elements s' = elements s /\
    hash_groups s' = (if Z.quot (elements s) (hash_groups s) <? 3
                      then hash_groups s else 2 * hash_groups s).
Proof.
  intros R. pose proof R as (Hh & Ht & He & Hm & Hk). unfold resize.
  rewrite cdiv_Ret by lia. cbn [bind].
  destruct (Z.ltb_spec (Z.quot (elements s) (hash_groups s)) 3) as [Lo|Hi];
    [exists s; auto|].
  assert (B : 2 * hash_groups s <= elements s).
  { pose proof (Z.mul_quot_le (elements s) (hash_groups s) ltac:(lia) ltac:(lia)).
    nia. }
  rewrite int_of_Ret by (unfold INT_MIN, INT_MAX in *; lia). cbn [bind].
  destruct (hash_groups s * 2 <? 0) eqn:E; [lia|].
  destruct (rehash_spec (hash_groups s * 2) (table s)
              (repeat [] (Z.to_nat (hash_groups s * 2)))) as (new' & Rh & L' & N).
  - rewrite repeat_length. lia.
  - lia.
  - intros e Hin. rewrite Ht in Hin. apply Hk.
    now apply In_concat_distribute in Hin.
  - rewrite Rh. cbn [bind]. eexists. split; [reflexivity|].
    cbn [hash_groups elements table]. split; [|split; [trivial|lia]].
    unfold represents. cbn [hash_groups elements table].
    rewrite repeat_length in L', N.
    split; [lia|]. split; [|auto].
    apply distribute_ext; [exact L'|].
    intros b Hb. rewrite N by trivial. rewrite nth_repeat. simpl app.
    rewrite Ht. replace (hash_groups s * 2) with (2 * hash_groups s) by lia.
    apply filter_concat_distribute; trivial; lia.
Qed.

Lemma insert_represents (s : t) (log : list entry) (k v : Z) :
  represents s log -> 0 <= k -> elements s < INT_MAX ->
  exists s', insert s k v = Ret s' /\ represents s' (log ++ [(k, v)]) /\
    elements s' = elements s + 1.
Proof.
  intros R Hk Hmax. pose proof R as (Hh & Ht & He & Hm & Hkeys).
  unfold insert. rewrite cmod_Ret by lia. cbn [bind].
  fold (bucket_index k (hash_groups s)).
  pose proof (home_nonneg_bound k (hash_groups s) ltac:(lia) Hk) as B.
  rewrite push_back_Ret by (rewrite Ht, length_distribute; lia). cbn [bind].
  rewrite int_of_Ret by (unfold INT_MIN, INT_MAX in *; lia). cbn [bind].
  match goal with |- exists s', resize ?m = _ /\ _ =>
    destruct (resize_represents m (log ++ [(k, v)])) as (s' & Rs & R' & E' & _)
  end.
  - unfold represents. cbn [hash_groups elements table].
    split; [trivial|]. split.
    + rewrite Ht. apply (distribute_snoc _ log (k, v)); [lia|exact Hk].
    + rewrite length_app. simpl length. repeat split; try lia.
      intros e Hin. apply in_app_or in Hin. destruct Hin as [Hin|[<-|[]]]; auto.
  - exists s'. auto.
Qed.

Lemma find_first_filter (f : entry -> bool) (k : Z) (log : list entry) :
  (forall e, fst e = k -> f e = true) ->
  find_first k (filter f log) = find_first k log.
Proof.
  intros H. induction log as [|e log IH]; simpl; trivial.
  destruct (Z.eqb_spec (fst e) k) as [E|E].
  - rewrite (H e E). simpl. now rewrite E, Z.eqb_refl.
  - destruct (f e); simpl; trivial.
    destruct (Z.eqb_spec (fst e) k); [contradiction|trivial].
Qed.

Lemma in_group_of_key (h k : Z) (e : entry) :
  0 < h -> 0 <= k -> fst e = k ->
  in_group h (Z.to_nat (bucket_index k h)) e = true.
Proof.
  intros Hh Hk <-. unfold in_group.
  pose proof (home_nonneg_bound (fst e) h Hh Hk). apply Z.eqb_eq. lia.
Qed.

Lemma chain_represents (s : t) (log : list entry) (k : Z) :
  represents s log -> 0 <= k ->
  vget (table s) (bucket_index k (hash_groups s)) =
  Ret (filter (in_group (hash_groups s)
                 (Z.to_nat (bucket_index k (hash_groups s)))) log).
Proof.
  intros (Hh & Ht & _) Hk.
  pose proof (home_nonneg_bound k (hash_groups s) ltac:(lia) Hk) as B.
  rewrite (vget_Ret []) by (rewrite Ht, length_distribute; lia).
  unfold vnth. rewrite Ht, nth_distribute by lia. reflexivity.
Qed.

Lemma get_represents (s : t) (log : list entry) (k : Z) :
  represents s log -> 0 <= k -> get s k = Ret (find_first k log).
Proof.
  intros R Hk. pose proof R as (Hh & _). unfold get.
  rewrite cmod_Ret by lia. cbn [bind]. fold (bucket_index k (hash_groups s)).
  rewrite (chain_represents s log k R Hk). cbn [bind].
  rewrite find_first_filter; trivial.
  intros e. apply in_group_of_key; lia.
Qed.

Lemma erase_first_filter (f : entry -> bool) (k : Z) (log : list entry) :
  (forall e, fst e = k -> f e = true) ->
  erase_first k (filter f log) =
  match erase_first k log with
  | Some log' => Some (filter f log')
  | None => None
  end.
Proof.
  intros H. induction log as [|e log IH]; simpl; trivial.
  destruct (Z.eqb_spec (fst e) k) as [E|E].
  - rewrite (H e E). simpl. now rewrite E, Z.eqb_refl.
  - destruct (f e) eqn:F; simpl.
    + destruct (Z.eqb_spec (fst e) k); [contradiction|]. rewrite IH.
      destruct (erase_first k log); simpl; rewrite ?F; trivial.
    + rewrite IH. destruct (erase_first k log); simpl; rewrite ?F; trivial.
Qed.

Lemma erase_erase_first (k : Z) (log : list entry) :
  erase k log = match erase_first k log with Some log' => log' | None => log end.
Proof.
  induction log as [|e log IH]; simpl; trivial.
  destruct (fst e =? k); trivial. rewrite IH.
  now destruct (erase_first k log).
Qed.

Lemma filter_erase_other (f : entry -> bool) (k : Z) (log : list entry) :
  (forall e, fst e = k -> f e = false) ->
  filter f (erase k log) = filter f log.
Proof.
  intros H. induction log as [|e log IH]; simpl; trivial.
  destruct (Z.eqb_spec (fst e) k) as [E|E].
  - now rewrite (H e E).
  - simpl. now rewrite IH.
Qed.

Lemma In_erase (k : Z) (log : list entry) (e : entry) :
  In e (erase k log) -> In e log.
Proof.
  induction log as [|x log IH]; simpl; trivial.
  destruct (fst x =? k); simpl; intuition.
Qed.

Lemma remove_represents (s : t) (log : list entry) (k : Z) :
  represents s log -> 0 <= k ->
  exists s', remove s k = Ret s' /\ represents s' (erase k log) /\
    hash_groups s' = hash_groups s.
Proof.
  intros R Hk. pose proof R as (Hh & Ht & He & Hm & Hkeys). unfold remove.
  rewrite cmod_Ret by lia. cbn [bind]. fold (bucket_index k (hash_groups s)).
  rewrite (chain_represents s log k R Hk). cbn [bind].
  pose proof (home_nonneg_bound k (hash_groups s) ltac:(lia) Hk) as B.
  rewrite erase_first_filter by (intros e; apply in_group_of_key; lia).
  rewrite erase_erase_first.
  destruct (erase_first k log) as [log'|] eqn:E; [|exists s; auto].
  rewrite vset_Ret by (rewrite Ht, length_distribute; lia). cbn [bind].
  pose proof (erase_first_length k log log' E) as Len.
  rewrite int_of_Ret by (unfold INT_MIN, INT_MAX in *; lia). cbn [bind].
  eexists. split; [reflexivity|]. split; [|reflexivity].
  unfold represents. cbn [hash_groups elements table].
  assert (El : log' = erase k log) by (rewrite erase_erase_first, E; trivial).
  split; [trivial|]. split; [|repeat split; try lia].
  - rewrite Ht. apply distribute_ext.
    + now rewrite length_upd, length_distribute.
    + intros b Hb. rewrite nth_upd by (rewrite length_distribute; lia).
      destruct (Nat.eqb_spec (Z.to_nat (bucket_index k (hash_groups s))) b)
        as [<-|N]; trivial.
      rewrite nth_distribute, El by trivial. symmetry.
      apply filter_erase_other. intros e Ek. unfold in_group.
      rewrite Ek. apply Z.eqb_neq. lia.
  - intros e Hin. apply Hkeys. rewrite El in Hin. now apply In_erase in Hin.
Qed.

End SeparateChainingFacts.

(** * The claims *)

(** ** Bucket index *)

(** C4, as stated, fails: for the key [-1] and 5 groups the index the
    operations compute is [-1], not the normalised [4]; it is outside the
    table, and [insert] of both tables is undefined there. *)
Lemma negative_key_index_out_of_bounds :
  bucket_index (-1) 5 = -1 /\ normalized_index (-1) 5 = 4 /\
  cmod (-1) 5 = Ret (-1) /\
  SeparateChaining.insert (SeparateChaining.make 5) (-1) 7 = Undef /\
  LinearProbing.insert (LinearProbing.make 5) (-1) 7 = Undef.
Proof. repeat split; reflexivity. Qed.

(** C4, amended: for every non-negative key and every positive group count
    [n], the index [key % n] that the operations compute equals the
    normalised [((key % n) + n) % n] and lies in [0, n), so that the access
    to that bucket of a table with [n] groups, chained or probing, is in
    bounds. *)
Theorem bucket_index_normalized (key n : Z) :
  0 <= key -> 0 < n ->
  cmod key n = Ret (bucket_index key n) /\
  bucket_index key n = normalized_index key n /\
  0 <= bucket_index key n < n /\
  (forall s : SeparateChaining.t,
     SeparateChaining.hash_groups s = n ->
     Z.of_nat (length (SeparateChaining.table s)) = n ->
     vget (SeparateChaining.table s) (bucket_index key n) =
     Ret (SeparateChaining.chain_at (SeparateChaining.table s)
            (bucket_index key n))) /\
  (forall s : LinearProbing.t,
     LinearProbing.hash_groups s = n ->
     Z.of_nat (length (LinearProbing.table s)) = n ->
     vget (LinearProbing.table s) (bucket_index key n) =
     Ret (LinearProbing.slot_at (LinearProbing.table s) (bucket_index key n))).
Proof.
  intros Hk Hn. pose proof (home_nonneg_bound key n Hn Hk) as B.
  split; [now apply cmod_Ret|]. split; [|split; [exact B|split]].
  - unfold normalized_index, bucket_index in *.
    rewrite (Z.rem_mod_nonneg (Z.rem key n + n)) by lia.
    rewrite <- (Z.mod_unique (Z.rem key n + n) n 1 (Z.rem key n)); lia.
  - intros s _ L. apply vget_Ret. lia.
  - intros s _ L. apply vget_Ret. lia.
Qed.

Lemma bucket_index_normalized_witness :
  cmod 7 5 = Ret (bucket_index 7 5) /\
  bucket_index 7 5 = normalized_index 7 5 /\
  0 <= bucket_index 7 5 < 5.
Proof.
  destruct (bucket_index_normalized 7 5) as (A & B & C & _); [lia|lia|].
  auto.
Defined.

(** ** [get] of the probing table *)

Lemma walk_result (key : Z) (slots : list LinearProbing.slot) :
  LinearProbing.walk key slots = -1 \/
  In (key, LinearProbing.walk key slots) slots.
Proof.
  induction slots as [|p rest IH]; simpl; [now left|].
  destruct (fst p =? 0); [now left|].
  destruct (Z.eqb_spec (fst p) key) as [E|E].
  - right. left. destruct p; simpl in *. now subst.
  - destruct IH; [now left|right; now right].
Qed.

Lemma In_probe_order (tbl : list LinearProbing.slot) (home : Z)
    (p : LinearProbing.slot) :
  In p (LinearProbing.probe_order tbl home) -> In p tbl.
Proof.
  unfold LinearProbing.probe_order. intros H.
  rewrite <- (firstn_skipn (Z.to_nat home) tbl).
  apply in_app_or in H. apply in_or_app. tauto.
Qed.

(** C5: on every table and for every key whose home index is in the
    table, [get] returns within one round over the slots: one unit of fuel
    per slot is enough (and more changes nothing).  The result is what the
    walk in probe order finds: the value of the first slot with the key,
    or -1 when an empty slot comes first or the round ends; so it is -1 or
    a value stored with the key. *)
Theorem get_terminates_in_one_round (s : LinearProbing.t) (key : Z) :
  LinearProbing.shape s ->
  0 <= bucket_index key (LinearProbing.hash_groups s) ->
  LinearProbing.get s key =
    Ret (LinearProbing.get_spec (LinearProbing.table s) key) /\
  (forall fuel, (length (LinearProbing.table s) <= fuel)%nat ->
     LinearProbing.get_fuel fuel s key = LinearProbing.get s key) /\
  (LinearProbing.get_spec (LinearProbing.table s) key = -1 \/
   In (key, LinearProbing.get_spec (LinearProbing.table s) key)
      (LinearProbing.table s)).
Proof.
  intros Sh Hk. unfold LinearProbing.get.
  split; [|split].
  - apply LinearProbingFacts.get_fuel_spec; trivial.
  - intros fuel Hf.
    rewrite !LinearProbingFacts.get_fuel_spec; trivial.
  - unfold LinearProbing.get_spec.
    destruct (walk_result key (LinearProbing.probe_order (LinearProbing.table s)
                (key mod Z.of_nat (length (LinearProbing.table s))))) as [E|E].
    + now left.
    + right. now apply In_probe_order in E.
Qed.

Lemma get_terminates_in_one_round_witness :
  LinearProbing.get (LinearProbing.mk 3 3 [(3, 30); (1, 10); (4, 40)]) 7 =
  Ret (-1).
Proof.
  destruct (get_terminates_in_one_round
              (LinearProbing.mk 3 3 [(3, 30); (1, 10); (4, 40)]) 7) as (E & _).
  - unfold LinearProbing.shape, INT_MAX. simpl. lia.
  - vm_compute. discriminate.
  - rewrite E. reflexivity.
Defined.

(** ** The key [0] of the probing table *)

(** C10: on every table with an empty slot, [insert(0, v)] returns, leaves
    [elements] and the number of occupied slots as they were, and leaves
    [v] in a slot whose key is the empty sentinel 0; [get(0)] then returns
    -1. *)
Theorem insert_zero_is_lost (s : LinearProbing.t) (v : Z) :
  LinearProbing.shape s ->
  LinearProbing.keys_nonneg (LinearProbing.table s) ->
  (LinearProbing.overloaded s = true ->
   2 * LinearProbing.hash_groups s <= INT_MAX) ->
  (exists j, 0 <= j < LinearProbing.hash_groups s /\
             LinearProbing.key_at (LinearProbing.table s) j = 0) ->
  exists s', LinearProbing.insert s 0 v = Ret s' /\
    LinearProbing.elements s' = LinearProbing.elements s /\
    LinearProbing.occupied (LinearProbing.table s') =
      LinearProbing.occupied (LinearProbing.table s) /\
    (exists j, 0 <= j < LinearProbing.hash_groups s' /\
               LinearProbing.slot_at (LinearProbing.table s') j = (0, v)) /\
    LinearProbing.get s' 0 = Ret (-1).
Proof.
  intros Sh N Hmax (j & Rj & Kj). pose proof Sh as (L & Hh).
  rewrite LinearProbingFacts.insert_unfold.
  assert (Room : LinearProbing.occupied (LinearProbing.table s)
                 < LinearProbing.hash_groups s).
  { rewrite <- L. apply (LinearProbingFacts.empty_slot_room _ j); trivial. lia. }
  destruct (LinearProbing.overloaded s) eqn:O.
  - destruct (LinearProbingFacts.resize_total s Sh (Hmax eq_refl)) as (s1 & R).
    { intros q Hq. apply LinearProbingFacts.home_nonneg; [lia|]. now apply N. }
    rewrite R. cbn [bind].
    destruct (LinearProbingFacts.resize_inv s s1 Sh R)
      as (Hh1 & Sh1 & He1 & _ & Cn & _).
    pose proof (Cn _ LinearProbingFacts.occupied_ignores_empty) as Oc.
    fold (LinearProbing.occupied (LinearProbing.table s1)) in Oc.
    fold (LinearProbing.occupied (LinearProbing.table s)) in Oc.
    destruct (LinearProbingFacts.insert_tail_zero s1 v Sh1)
      as (s' & E & Sh' & He' & Hh' & Oc' & Sl); [lia|].
    exists s'. split; [exact E|]. split; [lia|]. split; [lia|].
    split; [exact Sl|]. now apply LinearProbingFacts.get_zero.
  - cbn [bind].
    destruct (LinearProbingFacts.insert_tail_zero s v Sh Room)
      as (s' & E & Sh' & He' & Hh' & Oc' & Sl).
    exists s'. split; [exact E|]. split; [lia|]. split; [lia|].
    split; [exact Sl|]. now apply LinearProbingFacts.get_zero.
Qed.

Lemma insert_zero_is_lost_witness :
  exists s', LinearProbing.insert (LinearProbing.make 5) 0 42 = Ret s' /\
    LinearProbing.elements s' = 0 /\
    LinearProbing.get s' 0 = Ret (-1).
Proof.
  destruct (insert_zero_is_lost (LinearProbing.make 5) 42)
    as (s' & E & He & _ & _ & G).
  - unfold LinearProbing.shape, INT_MAX. simpl. lia.
  - intros q Hq. simpl in Hq. intuition (subst; simpl; lia).
  - vm_compute. discriminate.
  - exists 0. vm_compute. intuition discriminate.
  - exists s'. auto.
Defined.

(** ** Deletion *)

Lemma find_first_absent (key : Z) (chain : list SeparateChaining.entry) :
  (forall e, In e chain -> fst e <> key) ->
  SeparateChaining.find_first key chain = -1.
Proof.
  induction chain as [|e chain IH]; intros H; simpl; trivial.
  destruct (Z.eqb_spec (fst e) key) as [E|E].
  - exfalso. apply (H e); [now left|trivial].
  - apply IH. intros x Hx. apply H. now right.
Qed.

Lemma find_first_skip (key : Z) (l1 l2 : list SeparateChaining.entry) :
  (forall e, In e l1 -> fst e <> key) ->
  SeparateChaining.find_first key (l1 ++ l2) =
  SeparateChaining.find_first key l2.
Proof.
  induction l1 as [|e l1 IH]; intros H; simpl; trivial.
  destruct (Z.eqb_spec (fst e) key) as [E|E].
  - exfalso. apply (H e); [now left|trivial].
  - apply IH. intros x Hx. apply H. now right.
Qed.

Lemma erase_first_skip (key v : Z) (l1 l2 : list SeparateChaining.entry) :
  (forall e, In e l1 -> fst e <> key) ->
  SeparateChaining.erase_first key (l1 ++ (key, v) :: l2) = Some (l1 ++ l2).
Proof.
  induction l1 as [|e l1 IH]; intros H; simpl.
  - now rewrite Z.eqb_refl.
  - destruct (Z.eqb_spec (fst e) key) as [E|E].
    + exfalso. apply (H e); [now left|trivial].
    + rewrite IH; trivial. intros x Hx. apply H. now right.
Qed.

(** The chained half of C8: [remove] takes the first entry for the key out
    of the key's chain, and [get] then answers from the rest of the
    chain. *)
Lemma chained_get_after_remove (s : SeparateChaining.t) (key v1 : Z)
    (l1 l2 : list SeparateChaining.entry) :
  SeparateChaining.shape s -> SeparateChaining.counted s ->
  0 <= bucket_index key (SeparateChaining.hash_groups s) ->
  SeparateChaining.chain_at (SeparateChaining.table s)
    (bucket_index key (SeparateChaining.hash_groups s))
    = l1 ++ (key, v1) :: l2 ->
  (forall e, In e l1 -> fst e <> key) ->
  exists s', SeparateChaining.remove s key = Ret s' /\
    SeparateChaining.chain_at (SeparateChaining.table s')
      (bucket_index key (SeparateChaining.hash_groups s')) = l1 ++ l2 /\
    SeparateChaining.get s' key = Ret (SeparateChaining.find_first key l2).
Proof.
  intros (L & Hh & Hm) C Hk Hc H1.
  assert (Hpos : 0 < SeparateChaining.hash_groups s) by lia.
  pose proof (LinearProbingFacts.home_range _ _ Hpos Hk) as B.
  unfold SeparateChaining.remove. rewrite cmod_Ret by lia. cbn [bind].
  fold (bucket_index key (SeparateChaining.hash_groups s)).
  rewrite (vget_Ret []) by lia. cbn [bind].
  fold (SeparateChaining.chain_at (SeparateChaining.table s)
          (bucket_index key (SeparateChaining.hash_groups s))).
  rewrite Hc, erase_first_skip by trivial.
  rewrite vset_Ret by lia. cbn [bind].
  assert (E : 0 < SeparateChaining.elements s).
  { unfold SeparateChaining.counted in C. rewrite C.
    unfold SeparateChaining.entries.
    pose proof (SeparateChainingFacts.concat_upd_length
                  (SeparateChaining.table s)
                  (Z.to_nat (bucket_index key (SeparateChaining.hash_groups s)))
                  [] ltac:(lia)) as U.
    unfold SeparateChaining.chain_at, vnth in Hc. rewrite Hc in U.
    rewrite length_app in U. simpl length in U. lia. }
  rewrite int_of_Ret by (unfold INT_MIN, INT_MAX in *; lia). cbn [bind].
  eexists. split; [reflexivity|].
  cbn [SeparateChaining.hash_groups SeparateChaining.table].
  assert (Ch : SeparateChaining.chain_at
            (upd (SeparateChaining.table s)
               (Z.to_nat (bucket_index key (SeparateChaining.hash_groups s)))
               (l1 ++ l2))
            (bucket_index key (SeparateChaining.hash_groups s)) = l1 ++ l2).
  { unfold SeparateChaining.chain_at. apply vnth_upd_same. lia. }
  split; [exact Ch|].
  unfold SeparateChaining.get.
  cbn [SeparateChaining.hash_groups SeparateChaining.table].
  rewrite cmod_Ret by lia. cbn [bind].
  fold (bucket_index key (SeparateChaining.hash_groups s)).
  rewrite (vget_Ret []) by (rewrite length_upd; lia). cbn [bind].
  fold (SeparateChaining.chain_at
          (upd (SeparateChaining.table s)
             (Z.to_nat (bucket_index key (SeparateChaining.hash_groups s)))
             (l1 ++ l2))
          (bucket_index key (SeparateChaining.hash_groups s))).
  rewrite Ch. now rewrite find_first_skip.
Qed.

(** C8: in every table state, for a key whose home index is in the table.
    Probing table: when some slot holds the key, [remove] returns and
    [get] then returns -1.  Chained table: when the key's chain holds an
    entry for the key, [remove] returns; [get] then returns -1 if that was
    the only entry for the key, and the value of the next entry for the key
    if there is one. *)
Theorem removed_key_is_not_found :
  (forall (s : LinearProbing.t) (key : Z),
     LinearProbing.shape s -> LinearProbing.counted s ->
     0 <= bucket_index key (LinearProbing.hash_groups s) ->
     (exists j, 0 <= j < LinearProbing.hash_groups s /\
                LinearProbing.key_at (LinearProbing.table s) j = key) ->
     exists s', LinearProbing.remove s key = Ret s' /\
                LinearProbing.get s' key = Ret (-1)) /\
  (forall (s : SeparateChaining.t) (key v1 : Z)
          (l1 l2 : list SeparateChaining.entry),
     SeparateChaining.shape s -> SeparateChaining.counted s ->
     0 <= bucket_index key (SeparateChaining.hash_groups s) ->
     SeparateChaining.chain_at (SeparateChaining.table s)
       (bucket_index key (SeparateChaining.hash_groups s))
       = l1 ++ (key, v1) :: l2 ->
     (forall e, In e l1 -> fst e <> key) ->
     exists s', SeparateChaining.remove s key = Ret s' /\
       ((forall e, In e l2 -> fst e <> key) ->
        SeparateChaining.get s' key = Ret (-1)) /\
       (forall l2a v2 l2b, l2 = l2a ++ (key, v2) :: l2b ->
          (forall e, In e l2a -> fst e <> key) ->
          SeparateChaining.get s' key = Ret v2)).
Proof.
  split.
  - intros s key Sh C Hk Hp. pose proof Sh as (L & Hh).
    destruct (LinearProbingFacts.remove_total s key Sh Hk Hp) as (s' & R).
    { unfold LinearProbing.counted, LinearProbing.occupied in C.
      pose proof (count_bounds (fun p => negb (LinearProbing.is_empty p))
                    (LinearProbing.table s)).
      unfold INT_MIN, INT_MAX in *. lia. }
    exists s'. split; [exact R|].
    now apply (LinearProbingFacts.get_after_remove s).
  - intros s key v1 l1 l2 Sh C Hk Hc H1.
    destruct (chained_get_after_remove s key v1 l1 l2 Sh C Hk Hc H1)
      as (s' & R & _ & G).
    exists s'. split; [exact R|]. split.
    + intros H2. now rewrite G, find_first_absent.
    + intros l2a v2 l2b -> H2. rewrite G, find_first_skip by trivial.
      simpl. now rewrite Z.eqb_refl.
Qed.

Lemma removed_key_is_not_found_witness :
  (exists s', LinearProbing.remove
                (LinearProbing.mk 5 2 [(0, 0); (1, 100); (6, 600); (0, 0); (0, 0)]) 6
              = Ret s' /\ LinearProbing.get s' 6 = Ret (-1)) /\
  (exists s', SeparateChaining.remove
                (SeparateChaining.mk 2 3 [[]; [(1, 100); (3, 300); (1, 111)]]) 1
              = Ret s' /\ SeparateChaining.get s' 1 = Ret 111).
Proof.
  destruct removed_key_is_not_found as (P & Q). split.
  - apply P.
    + unfold LinearProbing.shape, INT_MAX. simpl. lia.
    + reflexivity.
    + vm_compute. discriminate.
    + exists 2. vm_compute. intuition discriminate.
  - destruct (Q (SeparateChaining.mk 2 3 [[]; [(1, 100); (3, 300); (1, 111)]])
                1 100 [] [(3, 300); (1, 111)]) as (s' & R & _ & G).
    + unfold SeparateChaining.shape, INT_MAX. simpl. lia.
    + reflexivity.
    + vm_compute. discriminate.
    + reflexivity.
    + intros e [].
    + exists s'. split; [exact R|].
      apply (G [(3, 300)] 111 []); [reflexivity|].
      intros e [<-|[]]. simpl. lia.
Defined.

(** ** The element count *)

(** C9, as stated, fails: on a new probing table [remove(0)] stops at the
    first (empty) slot and decrements [elements] to -1, while no entry is
    in the table. *)
Lemma remove_zero_makes_size_negative :
  LinearProbing.shape (LinearProbing.make 5) /\
  LinearProbing.counted (LinearProbing.make 5) /\
  exists s', LinearProbing.remove (LinearProbing.make 5) 0 = Ret s' /\
    LinearProbing.elements s' = -1 /\
    LinearProbing.occupied (LinearProbing.table s') = 0.
Proof.
  split; [unfold LinearProbing.shape, INT_MAX; simpl; lia|].
  split; [reflexivity|].
  eexists. split; [reflexivity|]. split; reflexivity.
Qed.

(** C9, amended: [elements] is never negative and equals the number of
    entries in the structure; this is preserved, with no precondition on
    the key, by every operation of the chained table and by [insert] and
    [resize] of the probing table, and it is preserved by [remove] of the
    probing table for every key other than 0 ([get] changes nothing). *)
Theorem size_counts_entries :
  (forall s o s',
     SeparateChaining.shape s -> SeparateChaining.counted s ->
     SeparateChaining.step s o = Ret s' ->
     SeparateChaining.shape s' /\ SeparateChaining.counted s' /\
     0 <= SeparateChaining.elements s') /\
  (forall s s',
     SeparateChaining.shape s -> SeparateChaining.counted s ->
     SeparateChaining.resize s = Ret s' ->
     SeparateChaining.shape s' /\ SeparateChaining.counted s' /\
     0 <= SeparateChaining.elements s') /\
  (forall s o s',
     LinearProbing.shape s -> LinearProbing.counted s ->
     o <> LinearProbing.Remove 0 ->
     LinearProbing.step s o = Ret s' ->
     LinearProbing.shape s' /\ LinearProbing.counted s' /\
     0 <= LinearProbing.elements s') /\
  (forall s s',
     LinearProbing.shape s -> LinearProbing.counted s ->
     LinearProbing.resize s = Ret s' ->
     LinearProbing.shape s' /\ LinearProbing.counted s' /\
     0 <= LinearProbing.elements s').
Proof.
  assert (SCpos : forall s, SeparateChaining.counted s ->
                            0 <= SeparateChaining.elements s).
  { intros s C. rewrite C. unfold SeparateChaining.entries. lia. }
  assert (LPpos : forall s, LinearProbing.counted s ->
                            0 <= LinearProbing.elements s).
  { intros s C. rewrite C. unfold LinearProbing.occupied.
    apply count_bounds. }
  split; [|split; [|split]].
  - intros s [k v|k] s' Sh C H; simpl in H.
    + destruct (SeparateChainingFacts.chained_insert_counted s s' k v Sh C H); auto.
    + destruct (SeparateChainingFacts.chained_remove_counted s s' k Sh C H); auto.
  - intros s s' Sh C H.
    destruct (SeparateChainingFacts.chained_resize_counted s s' Sh C H); auto.
  - intros s [k v|k] s' Sh C No H; simpl in H.
    + destruct (LinearProbingFacts.insert_counted s s' k v Sh C H)
        as (Sh' & C' & _); auto.
    + assert (Hk : k <> 0) by congruence.
      destruct (LinearProbingFacts.remove_counted s s' k Sh C Hk H)
        as (Sh' & C' & _); auto.
  - intros s s' Sh C H.
    destruct (LinearProbingFacts.resize_inv s s' Sh H)
      as (_ & Sh' & He & _ & Cn & _).
    assert (C' : LinearProbing.counted s').
    { unfold LinearProbing.counted, LinearProbing.occupied in *.
      rewrite He, C. symmetry.
      apply Cn, LinearProbingFacts.occupied_ignores_empty. }
    auto.
Qed.

Lemma size_counts_entries_witness :
  (exists s', SeparateChaining.step (SeparateChaining.make 5)
                (SeparateChaining.Insert 7 70) = Ret s' /\
              SeparateChaining.counted s' /\ 0 <= SeparateChaining.elements s') /\
  (exists s', LinearProbing.step (LinearProbing.make 5)
                (LinearProbing.Insert 7 70) = Ret s' /\
              LinearProbing.counted s' /\ 0 <= LinearProbing.elements s').
Proof.
  destruct size_counts_entries as (P1 & _ & P3 & _). split.
  - eexists. split; [reflexivity|].
    refine (proj2 (P1 (SeparateChaining.make 5) (SeparateChaining.Insert 7 70)
                     _ _ _ eq_refl)).
    + unfold SeparateChaining.shape, INT_MAX. simpl. lia.
    + reflexivity.
  - eexists. split; [reflexivity|].
    refine (proj2 (P3 (LinearProbing.make 5) (LinearProbing.Insert 7 70)
                     _ _ _ _ eq_refl)).
    + unfold LinearProbing.shape, INT_MAX. simpl. lia.
    + reflexivity.
    + discriminate.
Defined.

(** ** Load factor of the probing table *)

(** C3, as stated, fails: a table made with one group is full after its
    first insert. *)
Lemma single_slot_table_fills_up :
  exists s, LinearProbing.run (LinearProbing.make 1)
              [LinearProbing.Insert 1 100] = Ret s /\
    LinearProbing.occupied (LinearProbing.table s) = LinearProbing.hash_groups s.
Proof. eexists. split; reflexivity. Qed.

Lemma run_inserts_load (kvs : list (Z * Z)) : forall s s',
  LinearProbing.shape s -> LinearProbing.counted s ->
  4 * (LinearProbing.elements s - 1) < 3 * LinearProbing.hash_groups s ->
  LinearProbing.run s (LinearProbing.inserts kvs) = Ret s' ->
  LinearProbing.shape s' /\ LinearProbing.counted s' /\
  4 * (LinearProbing.elements s' - 1) < 3 * LinearProbing.hash_groups s' /\
  LinearProbing.hash_groups s <= LinearProbing.hash_groups s'.
Proof.
  induction kvs as [|(k, v) kvs IH]; intros s s' Sh C Ld H; simpl in H.
  - inversion H; subst s'. split; [exact Sh|]. split; [exact C|].
    split; [exact Ld|lia].
  - apply bind_Ret in H. destruct H as (s1 & H1 & H).
    destruct (LinearProbingFacts.insert_counted s s1 k v Sh C H1)
      as (Sh1 & C1 & Be & Hh1).
    assert (B : 0 <= LinearProbing.elements s <= LinearProbing.hash_groups s).
    { destruct Sh as (L & _). rewrite C, <- L.
      unfold LinearProbing.occupied. apply count_bounds. }
    destruct Sh as (L & Hh).
    assert (P : 4 * (LinearProbing.elements s1 - 1)
                < 3 * LinearProbing.hash_groups s1 /\
                LinearProbing.hash_groups s <= LinearProbing.hash_groups s1).
    { unfold LinearProbing.overloaded in Hh1.
      destruct (Z.leb_spec (3 * LinearProbing.hash_groups s)
                  (4 * LinearProbing.elements s)); lia. }
    destruct (IH s1 s' Sh1 C1 (proj1 P) H) as (Sh' & C' & Ld' & Hh').
    split; [exact Sh'|]. split; [exact C'|]. split; [exact Ld'|lia].
Qed.

(** C3, amended: for every initial group count of at least 4 and every
    sequence of inserts, the number of occupied slots stays below
    [hash_groups]: it equals [elements], and [insert] keeps
    [4 * (elements - 1) < 3 * hash_groups]. *)
Theorem occupied_below_hash_groups (n : Z) (kvs : list (Z * Z))
    (s : LinearProbing.t) :
  4 <= n <= INT_MAX ->
  LinearProbing.run (LinearProbing.make n) (LinearProbing.inserts kvs) = Ret s ->
  LinearProbing.occupied (LinearProbing.table s) = LinearProbing.elements s /\
  4 * (LinearProbing.elements s - 1) < 3 * LinearProbing.hash_groups s /\
  LinearProbing.occupied (LinearProbing.table s) < LinearProbing.hash_groups s.
Proof.
  intros Hn H.
  destruct (run_inserts_load kvs (LinearProbing.make n) s) as (Sh & C & Ld & Hh);
    trivial.
  - unfold LinearProbing.shape, LinearProbing.make.
    cbn [LinearProbing.hash_groups LinearProbing.table].
    rewrite repeat_length. lia.
  - unfold LinearProbing.counted, LinearProbing.make, LinearProbing.occupied.
    cbn [LinearProbing.elements LinearProbing.table].
    now rewrite count_repeat_false.
  - cbn [LinearProbing.make LinearProbing.elements LinearProbing.hash_groups].
    lia.
  - cbn [LinearProbing.make LinearProbing.hash_groups] in Hh.
    unfold LinearProbing.counted in C. rewrite <- C. repeat split; lia.
Qed.

Lemma occupied_below_hash_groups_witness :
  exists s, LinearProbing.run (LinearProbing.make 4)
              (LinearProbing.inserts [(1, 10); (2, 20); (3, 30); (4, 40)]) = Ret s /\
    LinearProbing.occupied (LinearProbing.table s) < LinearProbing.hash_groups s.
Proof.
  eexists. split; [reflexivity|].
  refine (proj2 (proj2 (occupied_below_hash_groups 4
            [(1, 10); (2, 20); (3, 30); (4, 40)] _ _ eq_refl))).
  unfold INT_MAX. lia.
Defined.

(** ** The probe invariant *)

(** C2 does not hold of [remove]: on a table of 5 groups, after
    [insert(1, 100)] and [insert(6, 600)] the invariant holds, with 1 in
    slot 1 and 6, whose home is slot 1 too, in slot 2; [remove(1)] empties
    slot 1 and leaves 6 behind an empty slot: the invariant is broken and
    [get(6)] returns -1 although 6 is in the table. *)
Theorem remove_breaks_probe_invariant :
  exists s0 s,
    LinearProbing.run (LinearProbing.make 5)
      [LinearProbing.Insert 1 100; LinearProbing.Insert 6 600] = Ret s0 /\
    LinearProbing.probe_invariant (LinearProbing.table s0) = true /\
    LinearProbing.get s0 6 = Ret 600 /\
    LinearProbing.remove s0 1 = Ret s /\
    LinearProbing.table s = [(0, 0); (0, 0); (6, 600); (0, 0); (0, 0)] /\
    LinearProbing.probe_invariant (LinearProbing.table s) = false /\
    LinearProbing.reaches (LinearProbing.table s) 6 = false /\
    LinearProbing.get s 6 = Ret (-1).
Proof.
  do 2 eexists. repeat split; reflexivity.
Qed.

(** A consequence of the same defect: the next insert of 6 does not meet
    the stored 6 behind the empty slot and stores 6 a second time. *)
Lemma insert_after_remove_stores_key_twice :
  exists s,
    LinearProbing.run (LinearProbing.make 5)
      [LinearProbing.Insert 1 100; LinearProbing.Insert 6 600;
       LinearProbing.Remove 1; LinearProbing.Insert 6 601] = Ret s /\
    LinearProbing.table s = [(0, 0); (6, 601); (6, 600); (0, 0); (0, 0)] /\
    LinearProbing.elements s = 2.
Proof. eexists. repeat split; reflexivity. Qed.

(** ** Sequences of inserts *)

Lemma make_good (n : Z) : 0 < n <= INT_MAX -> LinearProbing.good (LinearProbing.make n).
Proof.
  intros Hn. unfold LinearProbing.make. constructor;
    cbn [LinearProbing.hash_groups LinearProbing.elements LinearProbing.table].
  - unfold LinearProbing.shape.
    cbn [LinearProbing.hash_groups LinearProbing.table].
    rewrite repeat_length. lia.
  - unfold LinearProbing.counted, LinearProbing.occupied.
    cbn [LinearProbing.elements LinearProbing.table].
    now rewrite count_repeat_false.
  - apply LinearProbingFacts.probe_invariant_fresh.
  - intros k Hk. rewrite count_repeat_false; [lia|].
    unfold LinearProbing.holds, LinearProbing.empty_slot. cbn [fst].
    apply Z.eqb_neq. congruence.
  - intros q Hq. apply repeat_spec in Hq. subst q. simpl. lia.
Qed.

Lemma good_elements_nonneg (s : LinearProbing.t) :
  LinearProbing.good s -> 0 <= LinearProbing.elements s.
Proof.
  intros [_ C _ _ _]. rewrite C. unfold LinearProbing.occupied.
  apply count_bounds.
Qed.

(** A table with at most [m] elements doubles to at most [3 * m] groups. *)
Lemma overloaded_can_double (s : LinearProbing.t) (m : Z) :
  LinearProbing.good s -> LinearProbing.elements s <= m -> 3 * m <= INT_MAX ->
  LinearProbing.overloaded s = true ->
  2 * LinearProbing.hash_groups s <= INT_MAX.
Proof.
  intros G Hm Hmax O. pose proof (good_elements_nonneg s G).
  unfold LinearProbing.overloaded in O. apply Z.leb_le in O. lia.
Qed.

Lemma first_value_cons (k k0 v0 : Z) (hist : list (Z * Z)) :
  first_value k ((k0, v0) :: hist) =
  if k0 =? k then Some v0 else first_value k hist.
Proof. unfold first_value. simpl. now destruct (k0 =? k). Qed.

Lemma first_value_In (k v : Z) (kvs : list (Z * Z)) :
  first_value k kvs = Some v -> In (k, v) kvs.
Proof.
  unfold first_value. destruct (find _ kvs) as [(k', v')|] eqn:E; [|discriminate].
  simpl. intros H; inversion H; subst v'.
  apply find_some in E. destruct E as (Hin & Ek). simpl in Ek.
  apply Z.eqb_eq in Ek. now subst k'.
Qed.

(** The probing table after a sequence of inserts of positive keys, from a
    state [s] that holds the latest value of every key of the earlier
    inserts [hist] (latest first). *)
Lemma run_inserts_good (kvs : list (Z * Z)) : forall s hist m,
  LinearProbing.good s -> LinearProbing.elements s <= m ->
  3 * (m + Z.of_nat (length kvs)) <= INT_MAX ->
  (forall kv, In kv kvs -> 0 < fst kv) ->
  (forall k v, k <> 0 -> first_value k hist = Some v ->
               In (k, v) (LinearProbing.table s)) ->
  exists s', LinearProbing.run s (LinearProbing.inserts kvs) = Ret s' /\
    LinearProbing.good s' /\
    LinearProbing.elements s' <= m + Z.of_nat (length kvs) /\
    (forall k v, k <> 0 -> first_value k (rev kvs ++ hist) = Some v ->
                 In (k, v) (LinearProbing.table s')).
Proof.
  induction kvs as [|(k0, v0) kvs IH]; intros s hist m G Hm Hmax Hpos Hin.
  - exists s. simpl. split; [reflexivity|]. split; [exact G|].
    split; [lia|exact Hin].
  - simpl length in Hmax. assert (Hk0 : 0 < k0) by (apply (Hpos (k0, v0)); now left).
    destruct (LinearProbingFacts.insert_good s k0 v0 G) as
      (s1 & E1 & G1 & _ & In1 & In2 & Be & _); [lia| |].
    { apply (overloaded_can_double s m); trivial. lia. }
    destruct (IH s1 ((k0, v0) :: hist) (m + 1)) as (s' & E' & G' & Be' & In');
      trivial; try lia.
    { intros kv Hkv. apply Hpos. now right. }
    { intros k v Hk Hf. rewrite first_value_cons in Hf.
      destruct (Z.eqb_spec k0 k) as [<-|N].
      - inversion Hf; subst v. exact In1.
      - apply In2; simpl; trivial; try congruence. now apply Hin. }
    exists s'. simpl. rewrite E1. cbn [bind]. split; [exact E'|].
    split; [exact G'|]. split; [simpl length; lia|].
    intros k v Hk Hf. apply In'; trivial. now rewrite <- app_assoc in Hf.
Qed.

Lemma length_erase_le (k : Z) (log : list SeparateChaining.entry) :
  (length (SeparateChaining.erase k log) <= length log)%nat.
Proof.
  induction log as [|e log IH]; simpl; [lia|].
  destruct (fst e =? k); simpl; lia.
Qed.

(** The chained table after a sequence of calls with non-negative keys. *)
Lemma run_represents (ops : list SeparateChaining.op) : forall s log,
  SeparateChaining.represents s log ->
  (forall o, In o ops -> 0 <= SeparateChaining.key_of o) ->
  SeparateChaining.elements s + Z.of_nat (length ops) <= INT_MAX ->
  exists s', SeparateChaining.run s ops = Ret s' /\
    SeparateChaining.represents s' (SeparateChaining.replay ops log).
Proof.
  induction ops as [|o ops IH]; intros s log R Hk Hmax.
  - exists s. simpl. auto.
  - simpl length in Hmax.
    assert (Ho : 0 <= SeparateChaining.key_of o) by (apply Hk; now left).
    assert (S1 : exists s1, SeparateChaining.step s o = Ret s1 /\
              SeparateChaining.represents s1 (SeparateChaining.apply_op log o) /\
              SeparateChaining.elements s1 <= SeparateChaining.elements s + 1).
    { destruct o as [k v|k];
        cbn [SeparateChaining.step SeparateChaining.apply_op
             SeparateChaining.key_of] in *.
      - destruct (SeparateChainingFacts.insert_represents s log k v R Ho)
          as (s1 & E1 & R1 & He1); [lia|].
        exists s1. split; [exact E1|]. split; [exact R1|lia].
      - destruct (SeparateChainingFacts.remove_represents s log k R Ho)
          as (s1 & E1 & R1 & _).
        exists s1. split; [exact E1|]. split; [exact R1|].
        destruct R as (_ & _ & He & _), R1 as (_ & _ & He1 & _).
        pose proof (length_erase_le k log). lia. }
    destruct S1 as (s1 & E1 & R1 & He1).
    destruct (IH s1 (SeparateChaining.apply_op log o) R1) as (s' & E' & R').
    { intros x Hx. apply Hk. now right. }
    { lia. }
    exists s'. simpl. rewrite E1. cbn [bind]. auto.
Qed.

Lemma replay_inserts (kvs : list (Z * Z)) : forall log,
  SeparateChaining.replay (SeparateChaining.inserts kvs) log = log ++ kvs.
Proof.
  induction kvs as [|(k, v) kvs IH]; intros log; simpl.
  - now rewrite app_nil_r.
  - unfold SeparateChaining.replay in IH. rewrite IH, <- app_assoc. reflexivity.
Qed.

Lemma find_first_value (k v : Z) (kvs : list (Z * Z)) :
  first_value k kvs = Some v -> SeparateChaining.find_first k kvs = v.
Proof.
  unfold first_value. induction kvs as [|e kvs IH]; simpl; [discriminate|].
  destruct (fst e =? k); simpl; [congruence|exact IH].
Qed.

(** X16: into a new table of [n] groups, chained or probing, insert any
    sequence of pairs with positive keys (no more than [INT_MAX / 3] of
    them, so that neither [hash_groups] nor [elements] overflows), through
    however many resizes that takes.  All the calls return, and [get] then
    returns for every inserted key its value: the latest one inserted for
    the key in the probing table, the first one in the chained table (the
    same value when the key was inserted once).  And the calls of [main],
    which form the scenario on 5 groups, leave both tables resized, with
    [get(20) = 2000]. *)
Theorem inserted_keys_survive_resize (n : Z) (kvs : list (Z * Z)) :
  0 < n <= INT_MAX ->
  (forall kv, In kv kvs -> 0 < fst kv) ->
  3 * Z.of_nat (length kvs) <= INT_MAX ->
  (exists s, LinearProbing.run (LinearProbing.make n)
               (LinearProbing.inserts kvs) = Ret s /\
     forall k v, last_value k kvs = Some v -> LinearProbing.get s k = Ret v) /\
  (exists s, SeparateChaining.run (SeparateChaining.make n)
               (SeparateChaining.inserts kvs) = Ret s /\
     forall k v, first_value k kvs = Some v ->
                 SeparateChaining.get s k = Ret v) /\
  (exists s, LinearProbing.run (LinearProbing.make 5) LinearProbing.demo = Ret s /\
     5 < LinearProbing.hash_groups s /\ LinearProbing.get s 20 = Ret 2000) /\
  (exists s, SeparateChaining.run (SeparateChaining.make 5)
               SeparateChaining.demo = Ret s /\
     5 < SeparateChaining.hash_groups s /\
     SeparateChaining.get s 20 = Ret 2000).
Proof.
  intros Hn Hpos Hmax. split; [|split; [|split]].
  - destruct (run_inserts_good kvs (LinearProbing.make n) [] 0)
      as (s & E & G & _ & Hin); trivial.
    + now apply make_good.
    + simpl. lia.
    + discriminate.
    + exists s. split; [exact E|]. intros k v Hl.
      unfold last_value in Hl.
      assert (Hk : 0 < k).
      { apply first_value_In in Hl. apply in_rev in Hl.
        apply (Hpos (k, v) Hl). }
      destruct G as [Sh _ PI D _].
      apply LinearProbingFacts.get_present; trivial; [lia|].
      apply Hin; [lia|]. now rewrite app_nil_r.
  - destruct (run_represents (SeparateChaining.inserts kvs)
                (SeparateChaining.make n) [])
      as (s & E & R).
    + now apply SeparateChainingFacts.make_represents.
    + intros o Ho. unfold SeparateChaining.inserts in Ho.
      apply in_map_iff in Ho. destruct Ho as (kv & <- & Hkv).
      simpl. specialize (Hpos kv Hkv). lia.
    + unfold SeparateChaining.inserts. rewrite length_map. simpl. lia.
    + exists s. split; [exact E|]. intros k v Hf.
      rewrite replay_inserts in R. simpl in R.
      assert (Hk : 0 < k).
      { apply first_value_In in Hf. apply (Hpos (k, v) Hf). }
      rewrite (SeparateChainingFacts.get_represents s kvs k R) by lia.
      f_equal. now apply find_first_value.
  - eexists. split; [vm_compute; reflexivity|]. split; vm_compute; reflexivity.
  - eexists. split; [vm_compute; reflexivity|]. split; vm_compute; reflexivity.
Qed.

Lemma inserted_keys_survive_resize_witness :
  (exists s, LinearProbing.run (LinearProbing.make 2)
               (LinearProbing.inserts [(3, 30); (5, 50); (3, 31); (7, 70)]) = Ret s /\
     LinearProbing.get s 3 = Ret 31) /\
  (exists s, SeparateChaining.run (SeparateChaining.make 2)
               (SeparateChaining.inserts [(3, 30); (5, 50); (3, 31); (7, 70)]) = Ret s /\
     SeparateChaining.get s 3 = Ret 30).
Proof.
  destruct (inserted_keys_survive_resize 2 [(3, 30); (5, 50); (3, 31); (7, 70)])
    as ((s & E & G) & (s' & E' & G') & _).
  - unfold INT_MAX. lia.
  - intros kv Hkv. simpl in Hkv. intuition (subst; simpl; lia).
  - unfold INT_MAX. simpl. lia.
  - split.
    + exists s. split; [exact E|]. apply G. reflexivity.
    + exists s'. split; [exact E'|]. apply G'. reflexivity.
Defined.

(** ** Inserting a key twice *)

(** X17: after any sequence of inserts of positive keys into a new probing
    table, insert a positive key [k] with [v1] and then with [v2] (few
    enough calls for [hash_groups] not to overflow).  The calls return;
    the table then has exactly one slot with key [k], it holds [v2],
    [get(k)] returns [v2], and the second insert left [elements] as the
    first one left it. *)
Theorem probing_insert_twice_updates_in_place
    (n : Z) (kvs : list (Z * Z)) (k v1 v2 : Z) :
  0 < n <= INT_MAX ->
  (forall kv, In kv kvs -> 0 < fst kv) ->
  0 < k ->
  3 * (Z.of_nat (length kvs) + 2) <= INT_MAX ->
  exists s s1 s2,
    LinearProbing.run (LinearProbing.make n) (LinearProbing.inserts kvs) = Ret s /\
    LinearProbing.insert s k v1 = Ret s1 /\
    LinearProbing.insert s1 k v2 = Ret s2 /\
    count (LinearProbing.holds k) (LinearProbing.table s2) = 1 /\
    In (k, v2) (LinearProbing.table s2) /\
    LinearProbing.get s2 k = Ret v2 /\
    LinearProbing.elements s2 = LinearProbing.elements s1.
Proof.
  intros Hn Hpos Hk Hmax.
  destruct (run_inserts_good kvs (LinearProbing.make n) [] 0)
    as (s & E & G & Be & _); trivial.
  { now apply make_good. }
  { simpl. lia. }
  { lia. }
  { discriminate. }
  destruct (LinearProbingFacts.insert_good s k v1 G) as
    (s1 & E1 & G1 & _ & In1 & _ & Be1 & _); [lia| |].
  { apply (overloaded_can_double s (Z.of_nat (length kvs))); trivial; lia. }
  destruct (LinearProbingFacts.insert_good s1 k v2 G1) as
    (s2 & E2 & G2 & _ & In2 & _ & Be2 & Same); [lia| |].
  { apply (overloaded_can_double s1 (Z.of_nat (length kvs) + 1)); trivial; lia. }
  exists s, s1, s2. split; [exact E|]. split; [exact E1|]. split; [exact E2|].
  assert (P : forall t v, In (k, v) (LinearProbing.table t) ->
                0 < count (LinearProbing.holds k) (LinearProbing.table t)).
  { intros t v Hin. apply (In_count_pos _ _ (k, v)); trivial.
    unfold LinearProbing.holds. apply Z.eqb_refl. }
  destruct G2 as [Sh2 _ PI2 D2 _].
  split; [|split; [exact In2|split]].
  - pose proof (D2 k ltac:(lia)). pose proof (P s2 v2 In2). lia.
  - apply LinearProbingFacts.get_present; trivial. lia.
  - apply Same; [lia|]. now apply (P s1 v1).
Qed.

Lemma probing_insert_twice_updates_in_place_witness :
  exists s s1 s2,
    LinearProbing.run (LinearProbing.make 5)
      (LinearProbing.inserts [(1, 100); (6, 600)]) = Ret s /\
    LinearProbing.insert s 11 1 = Ret s1 /\
    LinearProbing.insert s1 11 2 = Ret s2 /\
    count (LinearProbing.holds 11) (LinearProbing.table s2) = 1 /\
    In (11, 2) (LinearProbing.table s2) /\
    LinearProbing.get s2 11 = Ret 2 /\
    LinearProbing.elements s2 = LinearProbing.elements s1.
Proof.
  apply (probing_insert_twice_updates_in_place 5 [(1, 100); (6, 600)] 11 1 2).
  - unfold INT_MAX. lia.
  - intros kv Hkv. simpl in Hkv. intuition (subst; simpl; lia).
  - lia.
  - unfold INT_MAX. simpl. lia.
Defined.

Lemma replay_without (k : Z) (ops : list SeparateChaining.op) : forall log,
  (forall e, In e log -> fst e <> k) ->
  (forall o, In o ops -> SeparateChaining.key_of o <> k) ->
  forall e, In e (SeparateChaining.replay ops log) -> fst e <> k.
Proof.
  induction ops as [|o ops IH]; intros log Hl Ho e He; simpl in He; [auto|].
  apply (IH (SeparateChaining.apply_op log o)); trivial.
  - intros x Hx. destruct o as [k' v'|k']; simpl in Hx.
    + apply in_app_or in Hx. destruct Hx as [Hx|[<-|[]]]; [auto|].
      simpl. apply (Ho (SeparateChaining.Insert k' v')). now left.
    + apply Hl. now apply SeparateChainingFacts.In_erase in Hx.
  - intros x Hx. apply Ho. now right.
Qed.

Lemma filter_has_key_absent (k : Z) (log : list SeparateChaining.entry) :
  (forall e, In e log -> fst e <> k) -> filter (SeparateChaining.has_key k) log = [].
Proof.
  induction log as [|e log IH]; intros H; simpl; trivial.
  unfold SeparateChaining.has_key at 1. destruct (Z.eqb_spec (fst e) k) as [E|E].
  - exfalso. apply (H e); [now left|trivial].
  - apply IH. intros x Hx. apply H. now right.
Qed.

Lemma erase_skip (k v : Z) (l1 l2 : list SeparateChaining.entry) :
  (forall e, In e l1 -> fst e <> k) ->
  SeparateChaining.erase k (l1 ++ (k, v) :: l2) = l1 ++ l2.
Proof.
  induction l1 as [|e l1 IH]; intros H; simpl.
  - now rewrite Z.eqb_refl.
  - destruct (Z.eqb_spec (fst e) k) as [E|E].
    + exfalso. apply (H e); [now left|trivial].
    + rewrite IH; trivial. intros x Hx. apply H. now right.
Qed.

(** The entries for [k] in the chain of [k], in a table that represents
    [log]. *)
Lemma chain_entries_for (s : SeparateChaining.t)
    (log : list SeparateChaining.entry) (k : Z) :
  SeparateChaining.represents s log -> 0 <= k ->
  filter (SeparateChaining.has_key k)
    (SeparateChaining.chain_at (SeparateChaining.table s)
       (bucket_index k (SeparateChaining.hash_groups s)))
  = filter (SeparateChaining.has_key k) log.
Proof.
  intros R Hk. pose proof R as (Hh & _).
  pose proof (SeparateChainingFacts.chain_represents s log k R Hk) as C.
  apply (vget_inv []) in C. destruct C as (_ & C).
  unfold SeparateChaining.chain_at. rewrite <- C.
  apply SeparateChainingFacts.filter_filter_keep.
  intros e _ He. unfold SeparateChaining.has_key in He. apply Z.eqb_eq in He.
  apply SeparateChainingFacts.in_group_of_key; trivial; lia.
Qed.

(** C7: after any sequence of calls with non-negative keys other than [k]
    on a new chained table, insert a non-negative key [k] with [v1] and
    then with [v2] (with [elements] staying an [int]).  Each insert
    returns and increments [elements]; the chain of [k] then has the two
    entries for [k], in this order, and [get(k)] returns [v1].  One
    [remove(k)] returns, decrements [elements] once and leaves in the
    chain the one entry [(k, v2)], which [get(k)] returns. *)
Theorem chained_insert_twice_keeps_both
    (n : Z) (ops : list SeparateChaining.op) (k v1 v2 : Z) :
  0 < n <= INT_MAX ->
  (forall o, In o ops ->
     0 <= SeparateChaining.key_of o /\ SeparateChaining.key_of o <> k) ->
  0 <= k ->
  Z.of_nat (length ops) + 2 <= INT_MAX ->
  exists s s1 s2 s3,
    SeparateChaining.run (SeparateChaining.make n) ops = Ret s /\
    SeparateChaining.insert s k v1 = Ret s1 /\
    SeparateChaining.insert s1 k v2 = Ret s2 /\
    SeparateChaining.elements s1 = SeparateChaining.elements s + 1 /\
    SeparateChaining.elements s2 = SeparateChaining.elements s + 2 /\
    filter (SeparateChaining.has_key k)
      (SeparateChaining.chain_at (SeparateChaining.table s2)
         (bucket_index k (SeparateChaining.hash_groups s2)))
      = [(k, v1); (k, v2)] /\
    SeparateChaining.get s2 k = Ret v1 /\
    SeparateChaining.remove s2 k = Ret s3 /\
    SeparateChaining.elements s3 = SeparateChaining.elements s + 1 /\
    filter (SeparateChaining.has_key k)
      (SeparateChaining.chain_at (SeparateChaining.table s3)
         (bucket_index k (SeparateChaining.hash_groups s3)))
      = [(k, v2)] /\
    SeparateChaining.get s3 k = Ret v2.
Proof.
  intros Hn Hops Hk Hmax.
  destruct (run_represents ops (SeparateChaining.make n) [])
    as (s & E & R).
  { now apply SeparateChainingFacts.make_represents. }
  { intros o Ho. now apply Hops. }
  { simpl. lia. }
  set (log := SeparateChaining.replay ops []) in *.
  assert (Hlog : forall e, In e log -> fst e <> k).
  { apply replay_without; [intros e []|]. intros o Ho. now apply Hops. }
  assert (Hlen : SeparateChaining.elements s <= Z.of_nat (length ops)).
  { destruct R as (_ & _ & He & _). rewrite He. subst log.
    clear -ops. unfold SeparateChaining.replay.
    assert (G : forall l, (length (fold_left SeparateChaining.apply_op ops l)
                           <= length l + length ops)%nat).
    { induction ops as [|o ops IH]; intros l; simpl; [lia|].
      specialize (IH (SeparateChaining.apply_op l o)).
      destruct o as [k' v'|k']; simpl in *.
      - rewrite length_app in IH. simpl in IH. lia.
      - pose proof (length_erase_le k' l). lia. }
    specialize (G []). simpl in G. lia. }
  destruct (SeparateChainingFacts.insert_represents s log k v1 R Hk)
    as (s1 & E1 & R1 & He1); [lia|].
  destruct (SeparateChainingFacts.insert_represents s1 _ k v2 R1 Hk)
    as (s2 & E2 & R2 & He2); [lia|].
  destruct (SeparateChainingFacts.remove_represents s2 _ k R2 Hk)
    as (s3 & E3 & R3 & Hh3).
  rewrite <- app_assoc in R2, R3. simpl app in R2, R3.
  rewrite erase_skip in R3 by trivial.
  exists s, s1, s2, s3.
  split; [exact E|]. split; [exact E1|]. split; [exact E2|].
  split; [exact He1|]. split; [lia|].
  split; [|split; [|split; [exact E3|split; [|split]]]].
  - rewrite (chain_entries_for s2 _ k R2 Hk), filter_app.
    rewrite filter_has_key_absent by trivial. simpl.
    unfold SeparateChaining.has_key. simpl. now rewrite Z.eqb_refl.
  - rewrite (SeparateChainingFacts.get_represents s2 _ k R2 Hk).
    rewrite find_first_skip by trivial. simpl. now rewrite Z.eqb_refl.
  - destruct R3 as (_ & _ & He3 & _), R as (_ & _ & He & _).
    rewrite He3, He, length_app. simpl length. lia.
  - rewrite (chain_entries_for s3 _ k R3 Hk), filter_app.
    rewrite filter_has_key_absent by trivial. simpl.
    unfold SeparateChaining.has_key. simpl. now rewrite Z.eqb_refl.
  - rewrite (SeparateChainingFacts.get_represents s3 _ k R3 Hk).
    rewrite find_first_skip by trivial. simpl. now rewrite Z.eqb_refl.
Qed.

Lemma chained_insert_twice_keeps_both_witness :
  exists s s1 s2 s3,
    SeparateChaining.run (SeparateChaining.make 5)
      [SeparateChaining.Insert 1 100; SeparateChaining.Insert 6 600;
       SeparateChaining.Remove 1] = Ret s /\
    SeparateChaining.insert s 11 1 = Ret s1 /\
    SeparateChaining.insert s1 11 2 = Ret s2 /\
    SeparateChaining.elements s1 = SeparateChaining.elements s + 1 /\
    SeparateChaining.elements s2 = SeparateChaining.elements s + 2 /\
    filter (SeparateChaining.has_key 11)
      (SeparateChaining.chain_at (SeparateChaining.table s2)
         (bucket_index 11 (SeparateChaining.hash_groups s2)))
      = [(11, 1); (11, 2)] /\
    SeparateChaining.get s2 11 = Ret 1 /\
    SeparateChaining.remove s2 11 = Ret s3 /\
    SeparateChaining.elements s3 = SeparateChaining.elements s + 1 /\
    filter (SeparateChaining.has_key 11)
      (SeparateChaining.chain_at (SeparateChaining.table s3)
         (bucket_index 11 (SeparateChaining.hash_groups s3)))
      = [(11, 2)] /\
    SeparateChaining.get s3 11 = Ret 2.
Proof.
  apply (chained_insert_twice_keeps_both 5
           [SeparateChaining.Insert 1 100; SeparateChaining.Insert 6 600;
            SeparateChaining.Remove 1] 11 1 2).
  - unfold INT_MAX. lia.
  - intros o Ho. simpl in Ho.
    destruct Ho as [<-|[<-|[<-|[]]]]; simpl; lia.
  - lia.
  - unfold INT_MAX. simpl. lia.
Defined.

(** * Further properties of the code *)

(** ** [horner_hash] *)

Lemma ll_of_Ret (z : Z) : LLONG_MIN <= z <= LLONG_MAX -> ll_of z = Ret z.
Proof.
  intros H. unfold ll_of.
  destruct (LLONG_MIN <=? z) eqn:E1; destruct (z <=? LLONG_MAX) eqn:E2;
    simpl; trivial; lia.
Qed.

Lemma cmod_ll_Ret (a b : Z) :
  b <> 0 -> LLONG_MIN < a -> cmod_ll a b = Ret (Z.rem a b).
Proof.
  intros Hb Ha. unfold cmod_ll.
  destruct (b =? 0) eqn:E1; [lia|].
  destruct (a =? LLONG_MIN) eqn:E2; [lia|]. reflexivity.
Qed.

(** One round of the loop on [int] operands: nothing overflows, and the new
    hash value is the truncated remainder. *)
Lemma horner_round (c base modulus h : Z) (rest : list Z) :
  INT_MIN <= base <= INT_MAX -> INT_MIN <= modulus <= INT_MAX ->
  modulus <> 0 -> is_char c -> INT_MIN <= h <= INT_MAX ->
  horner_loop (c :: rest) base modulus h =
  horner_loop rest base modulus (Z.rem (h * base + c) modulus).
Proof.
  intros Hb Hm Hm0 Hc Hh. unfold is_char, INT_MIN, INT_MAX in *.
  cbn [horner_loop].
  assert (P : -4611686018427387904 <= h * base <= 4611686018427387904) by nia.
  rewrite ll_of_Ret by (unfold LLONG_MIN, LLONG_MAX; lia). cbn [bind].
  rewrite ll_of_Ret by (unfold LLONG_MIN, LLONG_MAX; lia). cbn [bind].
  rewrite cmod_ll_Ret by (unfold LLONG_MIN; lia). cbn [bind].
  replace (1 * h * base) with (h * base) by lia.
  pose proof (Z.rem_bound_abs (h * base + c) modulus Hm0) as R.
  rewrite int_of_Ret by (unfold INT_MIN, INT_MAX; lia). reflexivity.
Qed.

Lemma horner_loop_defined (s : list Z) (base modulus : Z) : forall h,
  INT_MIN <= base <= INT_MAX -> INT_MIN <= modulus <= INT_MAX ->
  modulus <> 0 -> Forall is_char s ->
  Z.abs h < Z.abs modulus ->
  exists r, horner_loop s base modulus h = Ret r /\ Z.abs r < Z.abs modulus.
Proof.
  induction s as [|c s IH]; intros h Hb Hm Hm0 Hs Hh.
  - exists h. auto.
  - inversion Hs; subst.
    rewrite horner_round by (trivial; unfold INT_MIN, INT_MAX in *; lia).
    apply IH; trivial. now apply Z.rem_bound_abs.
Qed.

(** X1: for every string of [char]s, every [int] [base] and every non-zero
    [int] [mod], [horner_hash] returns: no intermediate value leaves
    [long long], and the result is an [int] of absolute value below
    [|mod|].  With [mod = 0] and a non-empty string the remainder is
    undefined. *)
Theorem horner_hash_defined (s : list Z) (base modulus : Z) :
  Forall is_char s ->
  INT_MIN <= base <= INT_MAX -> INT_MIN <= modulus <= INT_MAX ->
  (modulus <> 0 ->
   exists r, horner_hash s base modulus = Ret r /\
             Z.abs r < Z.abs modulus /\ INT_MIN <= r <= INT_MAX) /\
  (modulus = 0 -> s <> [] -> horner_hash s base modulus = Undef).
Proof.
  intros Hs Hb Hm. split.
  - intros Hm0.
    destruct (horner_loop_defined s base modulus 0 Hb Hm Hm0 Hs) as (r & E & B);
      [lia|].
    exists r. split; [exact E|]. split; [exact B|].
    unfold INT_MIN, INT_MAX in *. lia.
  - intros -> Hne. destruct s as [|c s]; [congruence|].
    inversion Hs; subst. unfold horner_hash. cbn [horner_loop].
    unfold is_char, INT_MIN, INT_MAX in *.
    rewrite ll_of_Ret by (unfold LLONG_MIN, LLONG_MAX; lia). cbn [bind].
    rewrite ll_of_Ret by (unfold LLONG_MIN, LLONG_MAX; lia). cbn [bind].
    reflexivity.
Qed.

Lemma horner_hash_defined_witness :
  exists r, horner_hash [104; 105; -61] horner_base horner_mod = Ret r /\
            Z.abs r < Z.abs horner_mod.
Proof.
  destruct (horner_hash_defined [104; 105; -61] horner_base horner_mod)
    as (P & _).
  - repeat constructor; unfold is_char; lia.
  - unfold INT_MIN, INT_MAX, horner_base. lia.
  - unfold INT_MIN, INT_MAX, horner_mod. lia.
  - destruct P as (r & E & B & _); [unfold horner_mod; lia|]. eauto.
Defined.

Lemma horner_loop_poly (s : list Z) (base modulus : Z) : forall h,
  0 <= base <= INT_MAX -> 0 < modulus <= INT_MAX ->
  Forall (fun c => 0 <= c <= 127) s ->
  0 <= h < modulus ->
  horner_loop s base modulus h =
  Ret ((h * base ^ Z.of_nat (length s) + poly s base) mod modulus).
Proof.
  induction s as [|c s IH]; intros h Hb Hm Hs Hh.
  - simpl. rewrite Z.mul_1_r, Z.add_0_r, Z.mod_small by trivial. reflexivity.
  - inversion Hs; subst.
    rewrite horner_round by (unfold is_char, INT_MIN, INT_MAX in *; lia).
    assert (N : 0 <= h * base + c) by nia.
    rewrite Z.rem_mod_nonneg by lia.
    rewrite IH; trivial; [|apply Z.mod_pos_bound; lia]. f_equal.
    cbn [poly length]. rewrite Nat2Z.inj_succ, Z.pow_succ_r by lia.
    set (B := base ^ Z.of_nat (length s)).
    rewrite <- (Zplus_mod_idemp_l (((h * base + c) mod modulus) * B)).
    rewrite Zmult_mod_idemp_l, Zplus_mod_idemp_l.
    f_equal. ring.
Qed.

(** X2: on a string of ASCII characters (values 0 to 127), with a
    non-negative [base] and a positive [mod], reducing in every round
    changes nothing: [horner_hash] returns the value of the polynomial with
    the characters as coefficients, taken modulo [mod] once; so the result
    lies in [0, mod). *)
Theorem horner_hash_polynomial (s : list Z) (base modulus : Z) :
  Forall (fun c => 0 <= c <= 127) s ->
  0 <= base <= INT_MAX -> 0 < modulus <= INT_MAX ->
  horner_hash s base modulus = Ret (poly s base mod modulus) /\
  0 <= poly s base mod modulus < modulus.
Proof.
  intros Hs Hb Hm. split; [|apply Z.mod_pos_bound; lia].
  unfold horner_hash. rewrite horner_loop_poly by (trivial; lia).
  reflexivity.
Qed.

Lemma horner_hash_polynomial_witness :
  horner_hash [97; 98] horner_base horner_mod = Ret (97 * 31 + 98).
Proof.
  destruct (horner_hash_polynomial [97; 98] horner_base horner_mod) as (E & _).
  - repeat constructor; lia.
  - unfold INT_MAX, horner_base. lia.
  - unfold INT_MAX, horner_mod. lia.
  - rewrite E. reflexivity.
Defined.

(** ** Missing keys *)

(** X3: [remove] of the probing table, called with a key that no slot
    holds, never returns: its scan has no exit but a slot with the key.
    (No amount of fuel lets the scan return.) *)
Theorem probing_remove_absent_never_returns (s : LinearProbing.t) (key : Z) :
  LinearProbing.shape s ->
  0 <= bucket_index key (LinearProbing.hash_groups s) ->
  (forall j, 0 <= j < LinearProbing.hash_groups s ->
             LinearProbing.key_at (LinearProbing.table s) j <> key) ->
  LinearProbing.remove s key = Loops /\
  forall fuel,
    LinearProbing.probe (LinearProbing.holds key) (LinearProbing.table s)
      (LinearProbing.hash_groups s) fuel
      (bucket_index key (LinearProbing.hash_groups s)) = Loops.
Proof.
  intros Sh Hk Habs. pose proof Sh as (L & Hh).
  assert (Hpos : 0 < LinearProbing.hash_groups s) by lia.
  pose proof (LinearProbingFacts.home_range _ _ Hpos Hk) as Rs.
  assert (P : forall fuel,
    LinearProbing.probe (LinearProbing.holds key) (LinearProbing.table s)
      (LinearProbing.hash_groups s) fuel
      (bucket_index key (LinearProbing.hash_groups s)) = Loops).
  { intros fuel. apply LinearProbingFacts.probe_never_stops; trivial.
    intros j Hj. unfold LinearProbing.holds. apply Z.eqb_neq.
    now apply Habs. }
  split; [|exact P].
  unfold LinearProbing.remove. rewrite cmod_Ret by lia. cbn [bind].
  fold (bucket_index key (LinearProbing.hash_groups s)). now rewrite P.
Qed.

Lemma probing_remove_absent_never_returns_witness :
  LinearProbing.remove (LinearProbing.make 5) 3 = Loops.
Proof.
  apply (probing_remove_absent_never_returns (LinearProbing.make 5) 3).
  - unfold LinearProbing.shape, INT_MAX. simpl. lia.
  - vm_compute. discriminate.
  - intros j Hj. simpl in Hj.
    assert (C : j = 0 \/ j = 1 \/ j = 2 \/ j = 3 \/ j = 4) by lia.
    destruct C as [->|[->|[->|[->| ->]]]]; vm_compute; discriminate.
Defined.

(** X4: [insert] of the probing table never returns when the table has no
    empty slot, no slot holds the key, and the load test does not fire
    (which takes an [elements] below the number of occupied slots, as
    [remove(0)] leaves it). *)
Theorem probing_insert_full_never_returns (s : LinearProbing.t) (key value : Z) :
  LinearProbing.shape s ->
  LinearProbing.overloaded s = false ->
  0 <= bucket_index key (LinearProbing.hash_groups s) ->
  (forall j, 0 <= j < LinearProbing.hash_groups s ->
             LinearProbing.key_at (LinearProbing.table s) j <> 0 /\
             LinearProbing.key_at (LinearProbing.table s) j <> key) ->
  LinearProbing.insert s key value = Loops.
Proof.
  intros Sh O Hk Hfull. pose proof Sh as (L & Hh).
  assert (Hpos : 0 < LinearProbing.hash_groups s) by lia.
  pose proof (LinearProbingFacts.home_range _ _ Hpos Hk) as Rs.
  rewrite LinearProbingFacts.insert_unfold, O. cbn [bind].
  unfold LinearProbing.insert_tail. rewrite cmod_Ret by lia. cbn [bind].
  fold (bucket_index key (LinearProbing.hash_groups s)).
  rewrite LinearProbingFacts.probe_never_stops; trivial.
  intros j Hj. apply LinearProbingFacts.free_or_holds_false.
  now apply Hfull.
Qed.

Lemma probing_insert_full_never_returns_witness :
  exists s,
    LinearProbing.run (LinearProbing.make 4)
      [LinearProbing.Insert 1 10; LinearProbing.Insert 2 20;
       LinearProbing.Insert 3 30; LinearProbing.Remove 0;
       LinearProbing.Remove 0; LinearProbing.Insert 4 40] = Ret s /\
    LinearProbing.insert s 5 50 = Loops.
Proof.
  eexists. split; [reflexivity|].
  apply probing_insert_full_never_returns.
  - unfold LinearProbing.shape, INT_MAX. simpl. lia.
  - reflexivity.
  - vm_compute. discriminate.
  - intros j Hj. simpl in Hj.
    assert (C : j = 0 \/ j = 1 \/ j = 2 \/ j = 3) by lia.
    destruct C as [->|[->|[->| ->]]]; vm_compute; split; discriminate.
Defined.

Lemma walk_missing (key : Z) (slots : list LinearProbing.slot) :
  (forall v, ~ In (key, v) slots) -> LinearProbing.walk key slots = -1.
Proof.
  intros H. destruct (walk_result key slots) as [E|E]; trivial.
  now apply H in E.
Qed.

Lemma get_of_absent_key (s : LinearProbing.t) (key : Z) :
  LinearProbing.shape s ->
  0 <= bucket_index key (LinearProbing.hash_groups s) ->
  (forall v, ~ In (key, v) (LinearProbing.table s)) ->
  LinearProbing.get s key = Ret (-1).
Proof.
  intros Sh Hk Habs. unfold LinearProbing.get.
  rewrite LinearProbingFacts.get_fuel_spec; trivial. f_equal.
  apply walk_missing. intros v Hin. apply (Habs v).
  now apply In_probe_order in Hin.
Qed.

(** X5: [get] of the probing table returns -1 for every key that no slot
    holds, whatever the table holds otherwise (a full table included); in
    particular for every non-negative key on a new table. *)
Theorem probing_get_missing_key :
  (forall (s : LinearProbing.t) (key : Z),
     LinearProbing.shape s ->
     0 <= bucket_index key (LinearProbing.hash_groups s) ->
     (forall v, ~ In (key, v) (LinearProbing.table s)) ->
     LinearProbing.get s key = Ret (-1)) /\
  (forall n key, 0 < n <= INT_MAX -> 0 <= key ->
     LinearProbing.get (LinearProbing.make n) key = Ret (-1)).
Proof.
  split; [exact get_of_absent_key|].
  intros n key Hn Hk. destruct (Z.eq_dec key 0) as [->|N].
  - apply LinearProbingFacts.get_zero. apply (make_good n Hn).
  - apply get_of_absent_key.
    + apply (make_good n Hn).
    + apply LinearProbingFacts.home_nonneg; simpl; lia.
    + intros v Hin. simpl in Hin. apply repeat_spec in Hin.
      inversion Hin. lia.
Qed.

Lemma probing_get_missing_key_witness :
  LinearProbing.get (LinearProbing.mk 3 3 [(3, 30); (1, 10); (5, 50)]) 2
  = Ret (-1).
Proof.
  apply (proj1 probing_get_missing_key).
  - unfold LinearProbing.shape, INT_MAX. simpl. lia.
  - vm_compute. discriminate.
  - intros v Hin. simpl in Hin.
    destruct Hin as [E|[E|[E|[]]]]; inversion E.
Defined.

Lemma erase_first_absent (key : Z) (chain : list SeparateChaining.entry) :
  (forall e, In e chain -> fst e <> key) ->
  SeparateChaining.erase_first key chain = None.
Proof.
  induction chain as [|e chain IH]; intros H; simpl; trivial.
  destruct (Z.eqb_spec (fst e) key) as [E|E].
  - exfalso. apply (H e); [now left|trivial].
  - rewrite IH; trivial. intros x Hx. apply H. now right.
Qed.

(** X6: in the chained table, for a key with no entry in its chain, [get]
    returns -1 and [remove] returns with the table unchanged: it neither
    decrements [elements] nor signals anything. *)
Theorem chained_missing_key (s : SeparateChaining.t) (key : Z) :
  SeparateChaining.shape s ->
  0 <= bucket_index key (SeparateChaining.hash_groups s) ->
  (forall e,
     In e (SeparateChaining.chain_at (SeparateChaining.table s)
             (bucket_index key (SeparateChaining.hash_groups s))) ->
     fst e <> key) ->
  SeparateChaining.get s key = Ret (-1) /\
  SeparateChaining.remove s key = Ret s.
Proof.
  intros (L & Hh & _) Hk Habs.
  assert (Hpos : 0 < SeparateChaining.hash_groups s) by lia.
  pose proof (LinearProbingFacts.home_range _ _ Hpos Hk) as B.
  unfold SeparateChaining.get, SeparateChaining.remove.
  rewrite cmod_Ret by lia. cbn [bind].
  fold (bucket_index key (SeparateChaining.hash_groups s)).
  rewrite (vget_Ret []) by lia. cbn [bind].
  fold (SeparateChaining.chain_at (SeparateChaining.table s)
          (bucket_index key (SeparateChaining.hash_groups s))).
  rewrite find_first_absent, erase_first_absent by trivial. auto.
Qed.

Lemma chained_missing_key_witness :
  SeparateChaining.get (SeparateChaining.mk 2 2 [[(4, 40)]; [(1, 10)]]) 3
    = Ret (-1) /\
  SeparateChaining.remove (SeparateChaining.mk 2 2 [[(4, 40)]; [(1, 10)]]) 3
    = Ret (SeparateChaining.mk 2 2 [[(4, 40)]; [(1, 10)]]).
Proof.
  apply chained_missing_key.
  - unfold SeparateChaining.shape, INT_MAX. simpl. lia.
  - vm_compute. discriminate.
  - intros e He. vm_compute in He. destruct He as [<-|[]]. simpl. lia.
Defined.

(** ** Lookups in the probing table across [resize] and [insert] *)

Module ProbingLookup.
Import LinearProbing LinearProbingFacts.

(** Under the probe invariant [get] finds every stored key, with a value
    stored with it. *)
Lemma get_stored (s : t) (k v : Z) :
  shape s -> probe_invariant (table s) = true ->
  k <> 0 -> In (k, v) (table s) ->
  exists v', get s k = Ret v' /\ In (k, v') (table s).
Proof.
  intros Sh PI Hk Hin. pose proof Sh as (L & Hh).
  unfold probe_invariant in PI. rewrite forallb_forall in PI.
  specialize (PI _ Hin). apply orb_true_iff in PI. destruct PI as [PI|PI].
  { unfold is_empty in PI. cbn [fst] in PI. apply Z.eqb_eq in PI. contradiction. }
  unfold reaches in PI. cbn [fst] in PI. rewrite L in PI.
  destruct (probe (free_or_holds k) (table s) (hash_groups s) (length (table s))
              (bucket_index k (hash_groups s))) as [j| |] eqn:E; try discriminate.
  apply Z.eqb_eq in PI.
  pose proof (probe_start_range _ _ _ _ _ _ E) as Rs. rewrite L in Rs.
  destruct (probe_sound _ _ _ L Hh _ _ _ Rs E) as (d & Hd & Ej & _ & Hb).
  assert (Rj : 0 <= j < hash_groups s) by (subst j; apply off_range; lia).
  exists (snd (slot_at (table s) j)). split.
  - unfold get. rewrite get_fuel_spec by (trivial; lia).
    unfold get_spec. rewrite L, <- home_mod by lia.
    rewrite (probe_order_map _ (hash_groups s)) by trivial.
    rewrite (walk_hit k (fun e => slot_at (table s)
               (off (hash_groups s) (bucket_index k (hash_groups s)) e)) d);
      trivial.
    + simpl. now rewrite <- Ej.
    + intros e He. apply Hb. lia.
    + simpl. rewrite <- Ej. exact PI.
  - assert (Hj : In (slot_at (table s) j) (table s)) by (apply vnth_In; lia).
    unfold key_at in PI. destruct (slot_at (table s) j) as (k', v').
    simpl in *. now subst k'.
Qed.

(** Two tables of [good] shape that store the same values for a key answer
    [get] for it alike. *)
Lemma get_agree (s s' : t) (k : Z) :
  good s -> good s' -> 0 <= k ->
  (k <> 0 -> forall v, In (k, v) (table s) <-> In (k, v) (table s')) ->
  get s' k = get s k.
Proof.
  intros [Sh _ PI D _] [Sh' _ PI' D' _] Hk Same0.
  destruct (Z.eq_dec k 0) as [->|N]; [now rewrite !get_zero|].
  pose proof (Same0 N) as Same.
  pose proof (count_bounds (holds k) (table s)) as B.
  destruct (Z.eq_dec (count (holds k) (table s)) 0) as [E|E].
  - assert (A : forall v, ~ In (k, v) (table s)).
    { intros v Hin. pose proof (In_count_pos (holds k) _ (k, v) Hin) as P.
      unfold holds in P at 1. cbn [fst] in P. rewrite Z.eqb_refl in P.
      specialize (P eq_refl). lia. }
    rewrite !get_of_absent_key; trivial.
    + destruct Sh as (_ & Hh). apply home_nonneg; lia.
    + destruct Sh' as (_ & Hh). apply home_nonneg; lia.
    + intros v Hin. apply (A v). now apply Same.
  - destruct (count_pos_In (holds k) (table s)) as ((k', v) & Hin & Hk');
      [lia|].
    unfold holds in Hk'. cbn [fst] in Hk'. apply Z.eqb_eq in Hk'. subst k'.
    rewrite (get_present s k v), (get_present s' k v); trivial.
    now apply Same.
Qed.

Lemma insert_In_back (s s' : t) (k v : Z) (q : slot) :
  shape s -> insert s k v = Ret s' ->
  In q (table s') -> fst q <> 0 -> q = (k, v) \/ In q (table s).
Proof.
  intros Sh H Hq Hq0. rewrite insert_unfold in H.
  apply bind_Ret in H. destruct H as (s1 & H1 & H).
  assert (P : shape s1 /\ (In q (table s1) -> In q (table s))).
  { destruct (overloaded s).
    - destruct (resize_inv s s1 Sh H1) as (_ & Sh1 & _ & _ & _ & I).
      split; [exact Sh1|]. intros Hin. now apply I.
    - inversion H1; subst s1. auto. }
  destruct P as (Sh1 & Back).
  destruct (insert_tail_inv s1 s' k v Sh1 H) as (j & _ & _ & _ & _ & Ht' & _).
  rewrite Ht' in Hq. apply In_upd in Hq. destruct Hq as [->|Hq]; auto.
Qed.

(** X7: [resize] of the probing table re-establishes the probe invariant
    from any state with non-negative keys, whatever earlier removes have
    done to it: it returns (when the doubled count is an [int]), and in the
    new table of twice the groups [get] finds every key that was stored,
    with a value that was stored with it. *)
Theorem resize_restores_lookup (s : t) :
  shape s -> keys_nonneg (table s) -> 2 * hash_groups s <= INT_MAX ->
  exists s', resize s = Ret s' /\
    hash_groups s' = 2 * hash_groups s /\
    elements s' = elements s /\
    probe_invariant (table s') = true /\
    forall k v, k <> 0 -> In (k, v) (table s) ->
      exists v', get s' k = Ret v' /\ In (k, v') (table s).
Proof.
  intros Sh N Hmax. pose proof Sh as (L & Hh).
  destruct (resize_total s Sh Hmax) as (s' & R).
  { intros q Hq. apply home_nonneg; [lia|]. now apply N. }
  destruct (resize_inv s s' Sh R) as (Hh' & Sh' & He & PI & _ & I).
  exists s'. split; [exact R|]. split; [exact Hh'|]. split; [exact He|].
  split; [exact PI|]. intros k v Hk Hin.
  destruct (get_stored s' k v Sh' PI Hk) as (v' & G & Hin').
  { now apply (I (k, v)). }
  exists v'. split; [exact G|]. now apply (I (k, v')).
Qed.

Lemma resize_restores_lookup_witness :
  get (mk 5 1 [(0, 0); (0, 0); (6, 600); (0, 0); (0, 0)]) 6 = Ret (-1) /\
  exists s', resize (mk 5 1 [(0, 0); (0, 0); (6, 600); (0, 0); (0, 0)]) = Ret s' /\
    get s' 6 = Ret 600.
Proof.
  split; [reflexivity|].
  destruct (resize_restores_lookup
              (mk 5 1 [(0, 0); (0, 0); (6, 600); (0, 0); (0, 0)]))
    as (s' & R & _ & _ & _ & G).
  - unfold shape, INT_MAX. simpl. lia.
  - intros q Hq. simpl in Hq.
    destruct Hq as [<-|[<-|[<-|[<-|[<-|[]]]]]]; simpl; lia.
  - unfold INT_MAX. simpl. lia.
  - exists s'. split; [exact R|].
    destruct (G 6 600) as (v' & E & Hin); [lia|simpl; tauto|].
    simpl in Hin.
    destruct Hin as [X|[X|[X|[X|[X|[]]]]]]; inversion X. subst v'. exact E.
Defined.

(** X8: on a probing table that has only seen inserts of non-negative
    keys, [resize] changes no answer of [get]: stored keys keep their
    values and missing keys stay missing. *)
Theorem resize_keeps_get (s : t) :
  good s -> 2 * hash_groups s <= INT_MAX ->
  exists s', resize s = Ret s' /\ good s' /\
    hash_groups s' = 2 * hash_groups s /\
    forall k, 0 <= k -> get s' k = get s k.
Proof.
  intros G Hmax. pose proof G as [Sh _ _ _ N]. pose proof Sh as (L & Hh).
  destruct (resize_total s Sh Hmax) as (s' & R).
  { intros q Hq. apply home_nonneg; [lia|]. now apply N. }
  destruct (resize_good s s' G R) as (G' & Hh' & _ & I).
  exists s'. split; [exact R|]. split; [exact G'|]. split; [exact Hh'|].
  intros k Hk. apply get_agree; trivial.
  intros N0 v. apply (I (k, v)). exact N0.
Qed.

Lemma resize_keeps_get_witness :
  exists s', resize (mk 3 3 [(3, 30); (1, 10); (4, 40)]) = Ret s' /\
    get s' 4 = get (mk 3 3 [(3, 30); (1, 10); (4, 40)]) 4 /\
    get s' 7 = get (mk 3 3 [(3, 30); (1, 10); (4, 40)]) 7.
Proof.
  destruct (resize_keeps_get (mk 3 3 [(3, 30); (1, 10); (4, 40)]))
    as (s' & R & _ & _ & G).
  - constructor.
    + unfold shape, INT_MAX. simpl. lia.
    + reflexivity.
    + reflexivity.
    + intros k Hk. cbn [table]. rewrite !count_cons, count_nil.
      unfold holds. cbn [fst].
      destruct (Z.eqb_spec 3 k), (Z.eqb_spec 1 k), (Z.eqb_spec 4 k);
        simpl Z.b2z; lia.
    + intros q Hq. simpl in Hq.
      destruct Hq as [<-|[<-|[<-|[]]]]; simpl; lia.
  - unfold INT_MAX. simpl. lia.
  - exists s'. split; [exact R|]. split; apply G; lia.
Defined.

(** X9: on a probing table that has only seen inserts of non-negative
    keys, [insert(k, v)] with [k] positive returns (when a doubling stays
    in [int]), makes [get(k)] return [v], and changes the answer of [get]
    for no other key, through a resize or not. *)
Theorem insert_changes_one_key (s : t) (k v : Z) :
  good s -> 0 < k ->
  (overloaded s = true -> 2 * hash_groups s <= INT_MAX) ->
  exists s', insert s k v = Ret s' /\ good s' /\
    get s' k = Ret v /\
    forall k', 0 <= k' -> k' <> k -> get s' k' = get s k'.
Proof.
  intros G Hk Hmax. pose proof G as [Sh _ _ _ _].
  destruct (insert_good s k v G) as (s' & E & G' & _ & In1 & In2 & _);
    [lia|exact Hmax|].
  exists s'. split; [exact E|]. split; [exact G'|].
  pose proof G' as [Sh' _ PI' D' _]. split.
  - apply get_present; trivial. lia.
  - intros k' Hk' Ne. apply get_agree; trivial.
    intros N0 v'. split; intros Hin.
    + apply In2; simpl; trivial.
    + destruct (insert_In_back s s' k v (k', v') Sh E Hin N0) as [X|X];
        [inversion X; contradiction|exact X].
Qed.

Lemma insert_changes_one_key_witness :
  exists s', insert (make 5) 7 70 = Ret s' /\
    get s' 7 = Ret 70 /\ get s' 2 = get (make 5) 2.
Proof.
  destruct (insert_changes_one_key (make 5) 7 70) as (s' & E & _ & G & F).
  - apply make_good. unfold INT_MAX. lia.
  - lia.
  - vm_compute. discriminate.
  - exists s'. split; [exact E|]. split; [exact G|]. apply F; lia.
Defined.

End ProbingLookup.

(** ** Load and lookups in the chained table *)

Module ChainedLookup.
Import SeparateChaining SeparateChainingFacts.

Lemma resize_inv_groups (s s' : t) :
  resize s = Ret s' ->
  elements s' = elements s /\
  hash_groups s' = (if Z.quot (elements s) (hash_groups s) <? 3
                    then hash_groups s else 2 * hash_groups s).
Proof.
  intros H. unfold resize in H.
  apply bind_Ret in H. destruct H as (load & Hl & H).
  unfold cdiv in Hl.
  destruct ((hash_groups s =? 0)
            || ((elements s =? INT_MIN) && (hash_groups s =? -1)));
    [discriminate|].
  inversion Hl; subst load; clear Hl.
  destruct (Z.quot (elements s) (hash_groups s) <? 3);
    [inversion H; subst s'; auto|].
  apply bind_Ret in H. destruct H as (h2 & E2 & H).
  apply int_of_inv in E2. destruct E2 as (-> & _).
  destruct (hash_groups s * 2 <? 0); [discriminate|].
  apply bind_Ret in H. destruct H as (new' & _ & H).
  inversion H; subst s'. cbn [hash_groups elements]. split; lia.
Qed.

Lemma insert_inv_groups (s s' : t) (k v : Z) :
  insert s k v = Ret s' ->
  elements s' = elements s + 1 /\
  hash_groups s' = (if Z.quot (elements s + 1) (hash_groups s) <? 3
                    then hash_groups s else 2 * hash_groups s).
Proof.
  intros H. unfold insert in H.
  apply bind_Ret in H. destruct H as (g & _ & H).
  apply bind_Ret in H. destruct H as (tbl' & _ & H).
  apply bind_Ret in H. destruct H as (e' & E & H).
  apply int_of_inv in E. destruct E as (-> & _).
  apply resize_inv_groups in H. cbn [hash_groups elements] in H. exact H.
Qed.

Lemma remove_inv_groups (s s' : t) (k : Z) :
  remove s k = Ret s' ->
  hash_groups s' = hash_groups s /\
  (elements s' = elements s \/ elements s' = elements s - 1).
Proof.
  intros H. unfold remove in H.
  apply bind_Ret in H. destruct H as (g & _ & H).
  apply bind_Ret in H. destruct H as (chain & _ & H).
  destruct (erase_first k chain); [|inversion H; subst s'; auto].
  apply bind_Ret in H. destruct H as (tbl' & _ & H).
  apply bind_Ret in H. destruct H as (e' & E & H).
  apply int_of_inv in E. destruct E as (-> & _).
  inversion H; subst s'. cbn [hash_groups elements]. auto.
Qed.

Lemma quot_below_three (e h : Z) :
  0 <= e -> 0 < h -> (Z.quot e h <? 3) = (e <? 3 * h).
Proof.
  intros He Hh. rewrite Z.quot_div_nonneg by lia.
  pose proof (Z.div_mod e h ltac:(lia)) as D.
  pose proof (Z.mod_pos_bound e h Hh) as M.
  destruct (Z.ltb_spec (e / h) 3), (Z.ltb_spec e (3 * h)); trivial; nia.
Qed.

Lemma run_load (ops : list op) : forall s s' (j : nat) (n : Z),
  shape s -> counted s ->
  elements s < 3 * hash_groups s ->
  hash_groups s = n * 2 ^ Z.of_nat j ->
  run s ops = Ret s' ->
  shape s' /\ counted s' /\ elements s' < 3 * hash_groups s' /\
  exists j', hash_groups s' = n * 2 ^ Z.of_nat j'.
Proof.
  induction ops as [|o ops IH]; intros s s' j n Sh C Ld Hj H; simpl in H.
  - inversion H; subst s'. split; [exact Sh|]. split; [exact C|].
    split; [exact Ld|eauto].
  - apply bind_Ret in H. destruct H as (s1 & H1 & H).
    assert (E0 : 0 <= elements s) by (rewrite C; unfold entries; lia).
    pose proof Sh as (_ & Hh & _).
    destruct o as [k v|k]; simpl in H1.
    + destruct (chained_insert_counted s s1 k v Sh C H1) as (Sh1 & C1).
      destruct (insert_inv_groups s s1 k v H1) as (He1 & Hh1).
      rewrite quot_below_three in Hh1 by lia.
      destruct (Z.ltb_spec (elements s + 1) (3 * hash_groups s)).
      * apply (IH s1 s' j n); trivial; lia.
      * apply (IH s1 s' (S j) n); trivial; [lia|].
        rewrite Hh1, Hj, Nat2Z.inj_succ, Z.pow_succ_r by lia. ring.
    + destruct (chained_remove_counted s s1 k Sh C H1) as (Sh1 & C1).
      destruct (remove_inv_groups s s1 k H1) as (Hh1 & He1).
      apply (IH s1 s' j n); trivial; [lia|congruence].
Qed.

(** X10: after every sequence of inserts and removes on a new chained
    table of [n] groups, [elements] counts the entries and stays below
    [3 * hash_groups] (the average chain is shorter than 3), and
    [hash_groups] is [n] times a power of two: the table only grows, by
    doubling. *)
Theorem chained_load_below_three (n : Z) (ops : list op) (s : t) :
  0 < n <= INT_MAX ->
  run (make n) ops = Ret s ->
  elements s = entries (table s) /\
  elements s < 3 * hash_groups s /\
  exists j, hash_groups s = n * 2 ^ Z.of_nat j.
Proof.
  intros Hn H.
  destruct (represents_shape (make n) [] (make_represents n Hn)) as (Sh & C).
  destruct (run_load ops (make n) s 0 n Sh C) as (_ & C' & Ld & Hj); trivial.
  - cbn [make elements hash_groups]. lia.
  - cbn [make hash_groups]. change (2 ^ Z.of_nat 0) with 1. lia.
  - auto.
Qed.

Lemma chained_load_below_three_witness :
  exists s, run (make 1) (inserts [(1, 10); (2, 20); (3, 30); (4, 40)]) = Ret s /\
    elements s < 3 * hash_groups s /\ hash_groups s = 2.
Proof.
  eexists. split; [reflexivity|].
  split; [|reflexivity].
  refine (proj1 (proj2 (chained_load_below_three 1
            (inserts [(1, 10); (2, 20); (3, 30); (4, 40)]) _ _ eq_refl))).
  unfold INT_MAX. lia.
Defined.

Lemma find_first_app_other (k k' v : Z) (log : list entry) :
  k' <> k -> find_first k' (log ++ [(k, v)]) = find_first k' log.
Proof.
  intros N. induction log as [|e log IH]; simpl.
  - destruct (Z.eqb_spec k k'); [congruence|trivial].
  - now rewrite IH.
Qed.

Lemma find_first_app_present (k v0 : Z) (log l : list entry) :
  In (k, v0) log -> find_first k (log ++ l) = find_first k log.
Proof.
  induction log as [|e log IH]; simpl; [tauto|].
  intros [->|H].
  - simpl. now rewrite Z.eqb_refl.
  - rewrite IH by trivial. reflexivity.
Qed.

Lemma find_first_erase_other (k k' : Z) (log : list entry) :
  k' <> k -> find_first k' (erase k log) = find_first k' log.
Proof.
  intros N. induction log as [|e log IH]; simpl; trivial.
  destruct (Z.eqb_spec (fst e) k) as [E|E].
  - destruct (Z.eqb_spec (fst e) k'); [congruence|trivial].
  - simpl. now rewrite IH.
Qed.

(** X11: [insert(k, v)] on a chained table that holds the entries [log]
    (non-negative keys): it returns, and [get] answers as before for every
    other key, and for [k] too when [k] already has an entry (the first
    entry wins, the new value is shadowed); only when [k] has no entry
    does [get(k)] return [v]. *)
Theorem chained_insert_then_get (s : t) (log : list entry) (k v : Z) :
  represents s log -> 0 <= k -> elements s < INT_MAX ->
  exists s', insert s k v = Ret s' /\
    (forall k', 0 <= k' -> k' <> k -> get s' k' = get s k') /\
    (forall v0, In (k, v0) log -> get s' k = get s k) /\
    ((forall e, In e log -> fst e <> k) -> get s' k = Ret v).
Proof.
  intros R Hk Hmax.
  destruct (insert_represents s log k v R Hk Hmax) as (s' & E & R' & _).
  exists s'. split; [exact E|]. split; [|split].
  - intros k' Hk' N.
    rewrite (get_represents s' _ k' R' Hk'), (get_represents s log k' R Hk').
    now rewrite find_first_app_other.
  - intros v0 Hin.
    rewrite (get_represents s' _ k R' Hk), (get_represents s log k R Hk).
    now rewrite (find_first_app_present k v0).
  - intros Habs. rewrite (get_represents s' _ k R' Hk).
    rewrite find_first_skip by trivial. simpl. now rewrite Z.eqb_refl.
Qed.

Lemma chained_insert_then_get_witness :
  exists s s', run (make 2) (inserts [(1, 10); (4, 40)]) = Ret s /\
    insert s 1 11 = Ret s' /\
    get s' 1 = Ret 10 /\ get s' 4 = Ret 40.
Proof.
  destruct (run_represents (inserts [(1, 10); (4, 40)]) (make 2) [])
    as (s & E & R).
  - apply make_represents. unfold INT_MAX. lia.
  - intros o Ho. simpl in Ho. destruct Ho as [<-|[<-|[]]]; simpl; lia.
  - unfold INT_MAX. simpl. lia.
  - destruct (chained_insert_then_get s _ 1 11 R) as (s' & E' & F & P & _).
    + lia.
    + destruct R as (_ & _ & He & _). rewrite He. unfold INT_MAX. simpl. lia.
    + exists s, s'. split; [exact E|]. split; [exact E'|]. split.
      * rewrite (P 10) by (simpl; tauto).
        now rewrite (get_represents s _ 1 R) by lia.
      * rewrite F by lia. now rewrite (get_represents s _ 4 R) by lia.
Defined.

(** X12: [remove(k)] on a chained table that holds the entries [log]
    returns and changes the answer of [get] for no other key. *)
Theorem chained_remove_keeps_other_keys (s : t) (log : list entry) (k : Z) :
  represents s log -> 0 <= k ->
  exists s', remove s k = Ret s' /\
    hash_groups s' = hash_groups s /\
    forall k', 0 <= k' -> k' <> k -> get s' k' = get s k'.
Proof.
  intros R Hk.
  destruct (remove_represents s log k R Hk) as (s' & E & R' & Hh).
  exists s'. split; [exact E|]. split; [exact Hh|].
  intros k' Hk' N.
  rewrite (get_represents s' _ k' R' Hk'), (get_represents s log k' R Hk').
  now rewrite find_first_erase_other.
Qed.

Lemma chained_remove_keeps_other_keys_witness :
  exists s s', run (make 3) (inserts [(2, 20); (5, 50); (2, 21)]) = Ret s /\
    remove s 2 = Ret s' /\
    get s 5 = Ret 50 /\ get s' 5 = Ret 50 /\
    get s 2 = Ret 20 /\ get s' 2 = Ret 21.
Proof.
  destruct (run_represents (inserts [(2, 20); (5, 50); (2, 21)]) (make 3) [])
    as (s & E & R).
  - apply make_represents. unfold INT_MAX. lia.
  - intros o Ho. simpl in Ho. destruct Ho as [<-|[<-|[<-|[]]]]; simpl; lia.
  - unfold INT_MAX. simpl. lia.
  - destruct (chained_remove_keeps_other_keys s _ 2 R) as (s' & E' & _ & F);
      [lia|].
    exists s, s'. split; [exact E|]. split; [exact E'|].
    assert (G5 : get s 5 = Ret 50)
      by (rewrite (get_represents s _ 5 R) by lia; reflexivity).
    split; [exact G5|]. split; [rewrite F by lia; exact G5|].
    split; [rewrite (get_represents s _ 2 R) by lia; reflexivity|].
    assert (S : Ret s = Ret {| hash_groups := 3; elements := 3;
                 table := [[]; []; [(2, 20); (5, 50); (2, 21)]] |})
      by (rewrite <- E; reflexivity).
    inversion S; subst s. vm_compute in E'. inversion E'; subst s'.
    reflexivity.
Defined.

(** X13: on a chained table that holds the entries [log], inserting a key
    that has no entry and removing it again gives back a table with the
    same entries in the same order (perhaps with more groups): [elements]
    and every answer of [get] are as before. *)
Theorem chained_insert_remove_round_trip (s : t) (log : list entry) (k v : Z) :
  represents s log -> 0 <= k -> elements s < INT_MAX ->
  (forall e, In e log -> fst e <> k) ->
  exists s1 s2, insert s k v = Ret s1 /\ remove s1 k = Ret s2 /\
    represents s2 log /\ elements s2 = elements s /\
    forall k', 0 <= k' -> get s2 k' = get s k'.
Proof.
  intros R Hk Hmax Habs.
  destruct (insert_represents s log k v R Hk Hmax) as (s1 & E1 & R1 & _).
  destruct (remove_represents s1 _ k R1 Hk) as (s2 & E2 & R2 & _).
  rewrite erase_skip, app_nil_r in R2 by trivial.
  exists s1, s2. split; [exact E1|]. split; [exact E2|]. split; [exact R2|].
  split.
  - destruct R as (_ & _ & He & _), R2 as (_ & _ & He2 & _). congruence.
  - intros k' Hk'.
    now rewrite (get_represents s2 log k' R2 Hk'), (get_represents s log k' R Hk').
Qed.

Lemma chained_insert_remove_round_trip_witness :
  exists s1 s2, insert (make 1) 7 70 = Ret s1 /\ remove s1 7 = Ret s2 /\
    elements s2 = elements (make 1).
Proof.
  destruct (chained_insert_remove_round_trip (make 1) [] 7 70)
    as (s1 & s2 & E1 & E2 & _ & He & _).
  - apply make_represents. unfold INT_MAX. lia.
  - lia.
  - unfold INT_MAX. simpl. lia.
  - intros e [].
  - exists s1, s2. auto.
Defined.

End ChainedLookup.

(** ** What [insert] keeps and what [remove(0)] does in the probing table *)

Module ProbingInvariants.
Import LinearProbing LinearProbingFacts.

(** X14: [insert] of the probing table, for any key and on any table,
    keeps the probe invariant and keeps every key other than 0 in at most
    one slot, whether it resizes or not; the broken invariant of C2 is the
    work of [remove] alone. *)
Theorem insert_keeps_probe_invariant (s s' : t) (k v : Z) :
  shape s -> probe_invariant (table s) = true -> distinct_keys (table s) ->
  insert s k v = Ret s' ->
  shape s' /\ probe_invariant (table s') = true /\ distinct_keys (table s').
Proof.
  intros Sh PI D H. rewrite insert_unfold in H.
  apply bind_Ret in H. destruct H as (s1 & H1 & H).
  assert (P : shape s1 /\ probe_invariant (table s1) = true /\
              distinct_keys (table s1)).
  { destruct (overloaded s).
    - destruct (resize_inv s s1 Sh H1) as (_ & Sh1 & _ & PI1 & Cn & _).
      split; [exact Sh1|]. split; [exact PI1|].
      intros k' Hk'. rewrite (Cn _ (holds_ignores_empty k' Hk')). now apply D.
    - inversion H1; subst s1. auto. }
  destruct P as (Sh1 & PI1 & D1).
  destruct (insert_tail_inv s1 s' k v Sh1 H) as (j & Rj & Pj & Fj & Hh' & Ht' & He').
  split; [now apply (write_shape s1 s' k v j)|]. split.
  - now apply (write_probe_invariant s1 s' k v j).
  - now apply (write_distinct s1 s' k v j).
Qed.

Lemma insert_keeps_probe_invariant_witness :
  exists s', insert (mk 3 3 [(3, 30); (1, 10); (4, 40)]) 7 70 = Ret s' /\
    probe_invariant (table s') = true.
Proof.
  eexists. split; [reflexivity|].
  refine (proj1 (proj2 (insert_keeps_probe_invariant
            (mk 3 3 [(3, 30); (1, 10); (4, 40)]) _ 7 70 _ _ _ eq_refl))).
  - unfold shape, INT_MAX. simpl. lia.
  - reflexivity.
  - intros k Hk. cbn [table]. rewrite !count_cons, count_nil.
    unfold holds. cbn [fst].
    destruct (Z.eqb_spec 3 k), (Z.eqb_spec 1 k), (Z.eqb_spec 4 k);
      simpl Z.b2z; lia.
Defined.

(** X15: on every probing table with an empty slot (and [elements] above
    [INT_MIN]), [remove(0)] returns: it takes the first empty slot on its
    way for an entry, removes no key, and yet decrements [elements], which
    from then on is below the number of occupied slots. *)
Theorem remove_zero_only_decrements (s : t) :
  shape s -> INT_MIN < elements s <= INT_MAX ->
  (exists j, 0 <= j < hash_groups s /\ key_at (table s) j = 0) ->
  exists s', remove s 0 = Ret s' /\
    elements s' = elements s - 1 /\
    occupied (table s') = occupied (table s) /\
    forall q, fst q <> 0 -> In q (table s) <-> In q (table s').
Proof.
  intros Sh He Hempty. pose proof Sh as (L & Hh).
  destruct (remove_total s 0 Sh) as (s' & R); trivial.
  { unfold bucket_index. rewrite Z.rem_0_l; lia. }
  exists s'. split; [exact R|].
  destruct (remove_inv s s' 0 Sh R) as (j & Rj & _ & Kj & _ & Ht' & He').
  split; [exact He'|]. split.
  - unfold occupied. rewrite Ht', (count_upd empty_slot) by lia.
    fold (vnth empty_slot (table s) j). fold (slot_at (table s) j).
    unfold is_empty. cbn [fst]. fold (key_at (table s) j). rewrite Kj.
    simpl. lia.
  - intros q Hq. rewrite Ht'. split; intros Hin.
    + destruct (In_upd_keep empty_slot (table s) (Z.to_nat j) (0, 0) q Hin)
        as [X|X]; trivial.
      exfalso. apply Hq. rewrite X.
      fold (vnth empty_slot (table s) j). exact Kj.
    + apply In_upd in Hin. destruct Hin as [->|Hin]; trivial.
      now elim Hq.
Qed.

Lemma remove_zero_only_decrements_witness :
  exists s s', run (make 5) [Insert 1 100; Insert 2 200] = Ret s /\
    remove s 0 = Ret s' /\ elements s' = 1 /\ occupied (table s') = 2.
Proof.
  eexists.
  destruct (remove_zero_only_decrements
              (mk 5 2 [(0, 0); (1, 100); (2, 200); (0, 0); (0, 0)]))
    as (s' & R & He & Ho & _).
  - unfold shape, INT_MAX. simpl. lia.
  - unfold INT_MIN, INT_MAX. simpl. lia.
  - exists 0. vm_compute. intuition discriminate.
  - exists s'. split; [reflexivity|]. split; [exact R|].
    split; [exact He|]. rewrite Ho. reflexivity.
Defined.

End ProbingInvariants.

(** * Lookups of the probing table after a [remove] *)

(** C1 does not hold of the probing table once a [remove] has been called:
    on a table of 2 groups, after [insert(1, 10)], [insert(3, 30)],
    [remove(1)] and [insert(3, 31)], the key 3, never removed, is in two
    slots and [get(3)] returns 31, the value inserted last; the resize of
    the next insert, [insert(5, 50)], rehashes the slots in table order,
    and [get(3)] then returns the stale 30. *)
Theorem resize_after_remove_changes_value :
  exists s0 s1,
    LinearProbing.run (LinearProbing.make 2)
      [LinearProbing.Insert 1 10; LinearProbing.Insert 3 30;
       LinearProbing.Remove 1; LinearProbing.Insert 3 31] = Ret s0 /\
    LinearProbing.table s0 = [(3, 30); (3, 31)] /\
    LinearProbing.hash_groups s0 = 2 /\
    LinearProbing.get s0 3 = Ret 31 /\
    LinearProbing.overloaded s0 = true /\
    LinearProbing.insert s0 5 50 = Ret s1 /\
    LinearProbing.hash_groups s1 = 4 /\
    LinearProbing.table s1 = [(3, 31); (5, 50); (0, 0); (3, 30)] /\
    LinearProbing.get s1 3 = Ret 30.
Proof.
  do 2 eexists. repeat split; reflexivity.
Qed.

(** C6 does not hold of the probing table once a [remove] has been called:
    on a table of 5 groups, after [insert(1, 100)], [insert(6, 600)] and
    [remove(1)], the key 6 is stored behind the emptied slot 1.
    [insert(6, 1)] does not meet it: it counts 6 as a new key and stores it
    a second time; [insert(6, 2)] then updates that slot in place and
    [get(6)] returns 2, but the table has two slots with key 6. *)
Theorem insert_twice_after_remove_keeps_two_slots :
  exists s s1 s2,
    LinearProbing.run (LinearProbing.make 5)
      [LinearProbing.Insert 1 100; LinearProbing.Insert 6 600;
       LinearProbing.Remove 1] = Ret s /\
    In (6, 600) (LinearProbing.table s) /\
    LinearProbing.elements s = 1 /\
    LinearProbing.insert s 6 1 = Ret s1 /\
    LinearProbing.elements s1 = 2 /\
    LinearProbing.insert s1 6 2 = Ret s2 /\
    LinearProbing.elements s2 = 2 /\
    LinearProbing.table s2 = [(0, 0); (6, 2); (6, 600); (0, 0); (0, 0)] /\
    count (LinearProbing.holds 6) (LinearProbing.table s2) = 2 /\
    LinearProbing.get s2 6 = Ret 2.
Proof.
  do 3 eexists. repeat split; try reflexivity. simpl. tauto.
Qed.
